(** * xs-earthwork-takeoff: station detection, section framing and
      polyline reconstruction

    A shallow embedding of [src/xstakeoff/cli.py] and
    [src/xstakeoff/pdf_extract.py].  Python floats are IEEE-754 binary64
    numbers, modelled by Rocq's primitive [float]; Python exceptions are
    modelled by an explicit outcome type.  Functions of PyMuPDF ([fitz]) and
    of [math] that the code calls are collected in the [Externals] interface. *)

From Stdlib Require Import Ascii String ZArith List Bool Lia Floats Sorted Permutation.
Import ListNotations.

Set Implicit Arguments.

(* Decimal literals such as [0.9] denote the nearest binary64 number, as
   they do in Python. *)
Set Warnings "-inexact-float".

(* ===================================================================== *)
(** * Regular expressions: the fragment of [re] used by [STATION_RE]      *)
(* ===================================================================== *)

Module Re.

  (** A character of a token is a Unicode code point below 256, the value
      of the [ascii] that stands for it; tokens with a character above 255
      are outside the model.  On [str] patterns [\d] is a Unicode decimal
      digit and [\w] an alphanumeric character ([str.isalnum]) or the
      underscore. *)

  (** [\d]: below 256 the decimal digits are [0] to [9]. *)
Definition is_digit (c : ascii) : bool :=
    let n := nat_of_ascii c in (48 <=? n)%nat && (n <=? 57)%nat.

Definition is_alpha (c : ascii) : bool :=
    let n := nat_of_ascii c in
    ((65 <=? n)%nat && (n <=? 90)%nat) || ((97 <=? n)%nat && (n <=? 122)%nat).

  (** The alphanumeric characters from 128 to 255: the ordinal indicators
      (170, 186), the superscripts 2, 3 and 1 (178, 179, 185), the micro
      sign (181), the fractions (188 to 190) and the accented letters (192
      to 255 without the multiplication and division signs 215 and 247). *)
Definition is_alnum_above_ascii (c : ascii) : bool :=
    let n := nat_of_ascii c in
    (n =? 170)%nat || (n =? 178)%nat || (n =? 179)%nat || (n =? 181)%nat
    || (n =? 185)%nat || (n =? 186)%nat
    || ((188 <=? n)%nat && (n <=? 190)%nat)
    || ((192 <=? n)%nat && (n <=? 214)%nat)
    || ((216 <=? n)%nat && (n <=? 246)%nat)
    || (248 <=? n)%nat.

  (** [\w]: alphanumeric characters and the underscore. *)
Definition is_word (c : ascii) : bool :=
    is_alpha c || is_digit c || Ascii.eqb c "_" || is_alnum_above_ascii c.

  (** Atoms of a pattern: [\b], [\d] and an escaped literal character. *)
Inductive atom : Type :=
  | Bnd
  | Digit
  | Lit (c : ascii).

Definition pattern := list atom.

Definition word_before (prev : option ascii) : bool :=
    match prev with Some c => is_word c | None => false end.

Definition word_after (s : string) : bool :=
    match s with String c _ => is_word c | EmptyString => false end.

  (** [\b] holds between a word character and a non-word character, the
      two ends of the text counting as non-word. *)
Definition at_boundary (prev : option ascii) (s : string) : bool :=
    xorb (word_before prev) (word_after s).

  (** Matching a sequence of atoms at the current position; [prev] is the
      character just before it. *)
Fixpoint match_here (p : pattern) (prev : option ascii) (s : string) : bool :=
    match p with
    | [] => true
    | Bnd :: p' => at_boundary prev s && match_here p' prev s
    | Digit :: p' =>
        match s with
        | String c s' => is_digit c && match_here p' (Some c) s'
        | EmptyString => false
        end
    | Lit a :: p' =>
        match s with
        | String c s' => Ascii.eqb a c && match_here p' (Some c) s'
        | EmptyString => false
        end
    end.

  (** [pattern.match(text)]: the match is anchored at position 0 and need
      not reach the end of the text.  The result is the truth value of the
      match object. *)
Definition re_match (p : pattern) (text : string) : bool :=
    match_here p None text.

End Re.

(** [STATION_RE = re.compile(r"\b\d{3}\+\d{2}\b")] *)
Definition STATION_RE : Re.pattern :=
  [Re.Bnd; Re.Digit; Re.Digit; Re.Digit; Re.Lit "+"; Re.Digit; Re.Digit; Re.Bnd].

(** The pattern as the specification words it: [\d{3}\+\d{2}], anchored at
    the start of the token only. *)
Definition STATION_SPEC_PATTERN : Re.pattern :=
  [Re.Digit; Re.Digit; Re.Digit; Re.Lit "+"; Re.Digit; Re.Digit].

(* ===================================================================== *)
(** * Rectangles and words                                                *)
(* ===================================================================== *)

(** [fitz.Rect(x0, y0, x1, y1)] *)
Record Rect : Type := mkRect { x0 : float; y0 : float; x1 : float; y1 : float }.

(** One entry of [page.get_text("words")]: [(x0, y0, x1, y1, text, ...)]. *)
Record word : Type :=
  mkWord { w_x0 : float; w_y0 : float; w_x1 : float; w_y1 : float; w_text : string }.

Definition StationHit : Type := (string * Rect)%type.

Definition station_hit (w : word) : StationHit :=
  (w_text w, mkRect (w_x0 w) (w_y0 w) (w_x1 w) (w_y1 w)).

(** [find_station_text(page, clip)], on the words that
    [page.get_text("words", clip=clip)] returned. *)
Fixpoint find_station_text (words : list word) : list StationHit :=
  match words with
  | [] => []
  | w :: ws =>
      if Re.re_match STATION_RE (w_text w)
      then station_hit w :: find_station_text ws
      else find_station_text ws
  end.

(* ===================================================================== *)
(** * Python outcomes                                                     *)
(* ===================================================================== *)

(** The exceptions the modelled code can raise. *)
Inductive exn : Type :=
| ZeroDivisionError
| ValueError
| OverflowError
| TypeError
| IndexError.

(** A call returns a value or raises.  [OutOfFuel] is the outcome of a
    loop that was given too few iterations; the loops below are run with
    enough of them ([merge_segments_terminates]). *)
Inductive outcome (A : Type) : Type :=
| Ret (a : A)
| Raise (e : exn)
| OutOfFuel.

Arguments Ret {A} a.
Arguments Raise {A} e.
Arguments OutOfFuel {A}.

Definition bind {A B : Type} (c : outcome A) (k : A -> outcome B) : outcome B :=
  match c with
  | Ret a => k a
  | Raise e => Raise e
  | OutOfFuel => OutOfFuel
  end.

Declare Scope py_scope.
Delimit Scope py_scope with py.
Notation "x <- c ;; k" := (bind c (fun x => k))
  (at level 61, c at next level, right associativity) : py_scope.
Notation "' p <- c ;; k" := (bind c (fun x => let 'p := x in k))
  (at level 61, p pattern, c at next level, right associativity) : py_scope.

(* ===================================================================== *)
(** * Python numbers                                                      *)
(* ===================================================================== *)

Local Open Scope float_scope.

(** [x / y] on floats raises when the divisor is zero. *)
Definition py_div (x y : float) : outcome float :=
  if y =? 0 then Raise ZeroDivisionError else Ret (x / y).

(** The integer nearest to [m * 2^e], ties going to the even one. *)
Definition round_half_even (m : positive) (e : Z) : Z :=
  if (0 <=? e)%Z then (Zpos m * 2 ^ e)%Z
  else
    let d := (2 ^ (- e))%Z in
    let q := (Zpos m / d)%Z in
    let r := (Zpos m mod d)%Z in
    match (2 * r ?= d)%Z with
    | Lt => q
    | Gt => (q + 1)%Z
    | Eq => if Z.even q then q else (q + 1)%Z
    end.

(** [round(x)] with one argument: an [int], rounding half to even. *)
Definition py_round (x : float) : outcome Z :=
  match Prim2SF x with
  | S754_nan => Raise ValueError
  | S754_infinity _ => Raise OverflowError
  | S754_zero _ => Ret 0%Z
  | S754_finite s m e =>
      let n := round_half_even m e in Ret (if s then (- n)%Z else n)
  end.

(** [float(n)] for an [int] [n], as the mixed product [n * tol] applies it. *)
Definition int_to_float (n : Z) : outcome float :=
  let f := SF2Prim (binary_normalize prec emax n 0 false) in
  if is_infinity f then Raise OverflowError else Ret f.

(** [max(a, b)] and [min(a, b)] keep their first argument unless the
    second is strictly better. *)
Definition py_max (a b : float) : float := if a <? b then b else a.
Definition py_min (a b : float) : float := if b <? a then b else a.

(** [sum(...)] of floats: the terms are added from left to right to the
    start value [0]. *)
Definition py_sum (l : list float) : float := fold_left PrimFloat.add l 0.

(** [sorted(l, key=key)]: a stable ascending sort that compares keys with
    [<].  On keys that are numbers the stable sorted list is unique, and it
    is the one that insertion from the right builds. *)
Section Sorting.
Variable A : Type.
Variable key : A -> float.

Fixpoint insert_asc (x : A) (l : list A) : list A :=
    match l with
    | [] => [x]
    | y :: l' => if key y <? key x then y :: insert_asc x l' else x :: y :: l'
    end.

Definition sorted_by (l : list A) : list A := fold_right insert_asc [] l.

  (** [l.sort(key=key, reverse=True)]: stable, descending. *)
Fixpoint insert_desc (x : A) (l : list A) : list A :=
    match l with
    | [] => [x]
    | y :: l' => if key x <? key y then y :: insert_desc x l' else x :: y :: l'
    end.

Definition sort_reverse_by (l : list A) : list A := fold_right insert_desc [] l.
End Sorting.

(* ===================================================================== *)
(** * The library functions the code calls                                *)
(* ===================================================================== *)

(** [math.hypot] and the operations of [fitz.Rect] used by the code. *)
Class Externals : Type := {
  hypot : float -> float -> float;          (* math.hypot(dx, dy) *)
  rect_truthy : Rect -> bool;               (* bool(r) *)
  rect_intersects : Rect -> Rect -> bool;   (* r.intersects(s) *)
  rect_and : Rect -> Rect -> Rect;          (* r & s *)
  rect_or : Rect -> Rect -> Rect;           (* r | s *)
  get_area : Rect -> float                  (* r.get_area() *)
}.

(* ===================================================================== *)
(** * pdf_extract.py                                                      *)
(* ===================================================================== *)

Local Open Scope py_scope.

Definition Point : Type := (float * float)%type.
Definition Polyline : Type := list Point.
Definition Segment : Type := (Point * Point)%type.

(** A field of a path item as [page.get_drawings()] delivers it: a scalar
    or a point of two coordinates.  Items with other fields (a string, a
    point with one coordinate) and items without a kind are outside the
    model. *)
Inductive pyval : Type :=
| VNum (x : float)
| VPoint (x y : float).

(** A path item [(kind, field, ...)]; [len(item)] counts the kind. *)
Record item : Type := mkItem { kind : string; fields : list pyval }.

(** A drawing: [d.get("rect")] and [d.get("items", [])]. *)
Record drawing : Type := mkDrawing { d_rect : option Rect; d_items : list item }.

(** [float(v)] *)
Definition to_float (v : pyval) : outcome float :=
  match v with
  | VNum x => Ret x
  | VPoint _ _ => Raise TypeError
  end.

(** [(float(p[0]), float(p[1]))] *)
Definition to_point (v : pyval) : outcome Point :=
  match v with
  | VPoint x y => Ret (x, y)
  | VNum _ => Raise TypeError
  end.

(** [((float(x1), float(y1)), (float(x2), float(y2)))] *)
Definition scalar_segment (vx1 vy1 vx2 vy2 : pyval) : outcome (option Segment) :=
  fx1 <- to_float vx1 ;; fy1 <- to_float vy1 ;;
  fx2 <- to_float vx2 ;; fy2 <- to_float vy2 ;;
  Ret (Some ((fx1, fy1), (fx2, fy2))).

Definition point_segment (p1 p2 : pyval) : outcome (option Segment) :=
  a <- to_point p1 ;; b <- to_point p2 ;; Ret (Some (a, b)).

(** The body of the loop over the items of a drawing: the segment the item
    contributes, if any.  A line is read from 4 scalars or 2 points, a
    curve from 8 scalars or 4 points, of which only the first and the last
    point are kept. *)
Definition item_segment (it : item) : outcome (option Segment) :=
  if String.eqb (kind it) "l" then
    match fields it with
    | [vx1; vy1; vx2; vy2] => scalar_segment vx1 vy1 vx2 vy2
    | [p1; p2] => point_segment p1 p2
    | _ => Ret None
    end
  else if String.eqb (kind it) "c" then
    match fields it with
    | [vx1; vy1; _; _; _; _; vx4; vy4] => scalar_segment vx1 vy1 vx4 vy4
    | [p1; _; _; p4] => point_segment p1 p4
    | _ => Ret None
    end
  else Ret None.

Fixpoint collect_items (items : list item) (segments : list Segment)
  : outcome (list Segment) :=
  match items with
  | [] => Ret segments
  | it :: rest =>
      s <- item_segment it ;;
      match s with
      | Some seg => collect_items rest (segments ++ [seg])
      | None => collect_items rest segments
      end
  end.

Section Extract.
Context {ext : Externals}.

  (** [_dist], [_polyline_length], [_round_point] *)
Definition _dist (a b : Point) : float :=
    hypot (fst a - fst b) (snd a - snd b).

Fixpoint consecutive_dists (poly : Polyline) : list float :=
    match poly with
    | p :: (q :: _) as rest => _dist p q :: consecutive_dists rest
    | _ => []
    end.

Definition _polyline_length (poly : Polyline) : float :=
    py_sum (consecutive_dists poly).

Definition round_coord (c tol : float) : outcome float :=
    q <- py_div c tol ;;
    n <- py_round q ;;
    f <- int_to_float n ;;
    Ret (f * tol).

Definition _round_point (p : Point) (tol : float) : outcome Point :=
    rx <- round_coord (fst p) tol ;;
    ry <- round_coord (snd p) tol ;;
    Ret (rx, ry).

  (** The loop over the drawings of the page (lines 31-66). *)
Fixpoint collect_segments (drawings : list drawing) (rect : Rect)
           (segments : list Segment) : outcome (list Segment) :=
    match drawings with
    | [] => Ret segments
    | d :: rest =>
        match d_rect d with
        | None => collect_segments rest rect segments
        | Some drect =>
            if negb (rect_truthy drect) then collect_segments rest rect segments
            else if negb (rect_intersects drect rect)
            then collect_segments rest rect segments
            else
              segments' <- collect_items (d_items d) segments ;;
              collect_segments rest rect segments'
        end
    end.

  (** [endpoint_index]: a dictionary from quantized points to the indices
      appended under them, in insertion order.  Keys are compared as
      Python compares tuples of floats. *)
Definition EndpointIndex : Type := list (Point * list nat).

Definition point_eqb (p q : Point) : bool :=
    (fst p =? fst q) && (snd p =? snd q).

Fixpoint index_get (m : EndpointIndex) (k : Point) : list nat :=
    match m with
    | [] => []
    | (k', l) :: m' => if point_eqb k' k then l else index_get m' k
    end.

Fixpoint index_append (m : EndpointIndex) (k : Point) (idx : nat) : EndpointIndex :=
    match m with
    | [] => [(k, [idx])]
    | (k', l) :: m' =>
        if point_eqb k' k then (k', l ++ [idx]) :: m'
        else (k', l) :: index_append m' k idx
    end.

  (** Lines 72-75. *)
Fixpoint build_index (segments : list Segment) (tol : float) (idx : nat)
           (m : EndpointIndex) : outcome EndpointIndex :=
    match segments with
    | [] => Ret m
    | (a, b) :: rest =>
        ka <- _round_point a tol ;;
        let m1 := index_append m ka idx in
        kb <- _round_point b tol ;;
        let m2 := index_append m1 kb idx in
        build_index rest tol (S idx) m2
    end.

  (** [unused]: a set of segment indices.  CPython keeps a set of small
      non-negative integers built by [set(range(n))] in slot order, which
      is their ascending order, and removing an element keeps the others
      in place: the model is the ascending list, and [next(iter(unused))]
      is its head.  The hash table itself is [PySet] below, and that its
      keys come in this order is [of_range_keys] and
      [active_keys_discard]. *)
Definition set_mem (x : nat) (s : list nat) : bool := existsb (Nat.eqb x) s.
Definition set_remove (x : nat) (s : list nat) : list nat :=
    filter (fun y => negb (Nat.eqb x y)) s.

Definition get_segment (segments : list Segment) (i : nat) : outcome Segment :=
    match nth_error segments i with
    | Some s => Ret s
    | None => Raise IndexError
    end.

Section Merge.
Variable segments : list Segment.
Variable endpoint_index : EndpointIndex.
Variable endpoint_tol : float.
Variable min_length : float.

    (** Lines 79-84. *)
Definition next_connected (unused : list nat) (current : Point)
      : outcome (option nat) :=
      bucket <- _round_point current endpoint_tol ;;
      Ret (find (fun cand => set_mem cand unused) (index_get endpoint_index bucket)).

    (** The forward loop (lines 97-110) and the backward loop (lines
        115-128) are the same loop on [(chain, end)] and on
        [(prepend, start)]: [grow] is that loop on [(pts, current)].  It
        returns the unused set and the grown list. *)
Fixpoint grow (fuel : nat) (unused : list nat) (pts : list Point)
             (current : Point) : outcome (list nat * list Point) :=
      nxt <- next_connected unused current ;;
      match nxt with
      | None => Ret (unused, pts)
      | Some nxt =>
          match fuel with
          | O => OutOfFuel
          | S fuel' =>
              let unused' := set_remove nxt unused in
              '(a, b) <- get_segment segments nxt ;;
              if _dist current a <=? endpoint_tol
              then grow fuel' unused' (pts ++ [b]) b
              else if _dist current b <=? endpoint_tol
              then grow fuel' unused' (pts ++ [a]) a
              else Ret (unused', pts)
          end
      end.

    (** One iteration of [while unused] (lines 89-134) from the seed
        [start_idx]: the unused set afterwards and the merged polyline. *)
Definition merge_from (start_idx : nat) (unused : list nat)
      : outcome (list nat * Polyline) :=
      let unused1 := set_remove start_idx unused in
      '(a0, b0) <- get_segment segments start_idx ;;
      '(unused2, chain) <- grow (length unused1) unused1 [a0; b0] b0 ;;
      '(unused3, prepend) <- grow (length unused2) unused2 [a0] a0 ;;
      let prepend' := removelast (rev prepend) in
      Ret (unused3, prepend' ++ chain).

    (** Lines 88-134. *)
Fixpoint merge_loop (fuel : nat) (unused : list nat) (polylines : list Polyline)
      : outcome (list Polyline) :=
      match unused with
      | [] => Ret polylines
      | start_idx :: _ =>
          match fuel with
          | O => OutOfFuel
          | S fuel' =>
              '(unused', merged) <- merge_from start_idx unused ;;
              if min_length <=? _polyline_length merged
              then merge_loop fuel' unused' (polylines ++ [merged])
              else merge_loop fuel' unused' polylines
          end
      end.
End Merge.

  (** Lines 69-137: the reconstruction from the collected segments. *)
Definition merge_segments (segments : list Segment)
             (endpoint_tol min_length : float) : outcome (list Polyline) :=
    match segments with
    | [] => Ret []
    | _ =>
        endpoint_index <- build_index segments endpoint_tol 0 [] ;;
        let unused := seq 0 (length segments) in
        polylines <- merge_loop segments endpoint_index endpoint_tol min_length
                                (length unused) unused [] ;;
        Ret (sort_reverse_by _polyline_length polylines)
    end.

  (** [extract_merged_polylines_in_rect(page, rect, endpoint_tol,
      min_length)], on the drawings that [page.get_drawings()] returned. *)
Definition extract_merged_polylines_in_rect (drawings : list drawing) (rect : Rect)
             (endpoint_tol min_length : float) : outcome (list Polyline) :=
    segments <- collect_segments drawings rect [] ;;
    merge_segments segments endpoint_tol min_length.

Definition polyline_length (poly : Polyline) : float := _polyline_length poly.

End Extract.

(* ===================================================================== *)
(** * cli.py                                                              *)
(* ===================================================================== *)

(** What [detect_section_frames] reads from the page: [page.get_text("words")],
    [page.rect.width] and [page.rect.height]. *)
Record page : Type :=
  mkPage { page_words : list word; page_width : float; page_height : float }.

Definition hit_y0 (s : StationHit) : float := y0 (snd s).

(** [[ys[i+1] - ys[i] for i in range(len(ys) - 1)]] *)
Fixpoint deltas_of (ys : list float) : list float :=
  match ys with
  | y :: (y' :: _) as rest => (y' - y) :: deltas_of rest
  | _ => []
  end.

(** Step 3 (lines 43-51), on the station hits sorted by [y0]. *)
Definition section_height (station_hits : list StationHit) (height : float) : float :=
  let ys := map hit_y0 station_hits in
  let deltas := deltas_of ys in
  match deltas with
  | [] => height / 3
  | _ :: _ =>
      let deltas_sorted := sorted_by (fun d => d) deltas in
      let median_delta := nth (Nat.div (List.length deltas_sorted) 2) deltas_sorted 0 in
      py_max 200 (median_delta * 0.9)
  end.

(** Step 4 (lines 58-70): the frame around one station. *)
Definition frame_of (section_h width height : float) (hit : StationHit) : Rect :=
  let margin_left := width * 0.03 in
  let margin_right := width * 0.02 in
  let r := snd hit in
  let y_center := (y0 r + y1 r) / 2 in
  let fy0 := y_center - section_h / 2 in
  let fy1 := y_center + section_h / 2 in
  let fy0 := py_max 0 fy0 in
  let fy1 := py_min height fy1 in
  mkRect margin_left fy0 (width - margin_right) fy1.

Section Frames.
Context {ext : Externals}.

  (** The body of the loop of step 5 (lines 75-85). *)
Definition dedup_step (merged : list Rect) (fr : Rect) : list Rect :=
    match merged with
    | [] => [fr]
    | _ :: _ =>
        let prev := last merged fr in
        let overlap := rect_and prev fr in
        if rect_truthy overlap
           && (0.4 * py_min (get_area prev) (get_area fr) <? get_area overlap)
        then removelast merged ++ [rect_or prev fr]
        else merged ++ [fr]
    end.

Definition dedup_frames (frames_sorted : list Rect) : list Rect :=
    fold_left dedup_step frames_sorted [].

  (** [detect_section_frames(page)]; its first loop (lines 28-33) is the
      loop of [find_station_text] on the words of the whole page. *)
Definition detect_section_frames (pg : page) : list Rect :=
    match find_station_text (page_words pg) with
    | [] => []
    | hits =>
        let station_hits := sorted_by hit_y0 hits in
        let section_h := section_height station_hits (page_height pg) in
        let frames :=
          map (frame_of section_h (page_width pg) (page_height pg)) station_hits in
        let frames_sorted := sorted_by y0 frames in
        dedup_frames frames_sorted
    end.
End Frames.

(* ===================================================================== *)
(** * A reference implementation of the library interface                 *)
(* ===================================================================== *)

(** [math.hypot] as the rounded square root of the sum of squares, and
    rectangles after PyMuPDF's [Rect]: a rectangle is empty when it has no
    interior, its area is width times height with negative extents counted
    as zero, and it is false only when its four coordinates are zero.
    Concrete pages are run against this implementation. *)
Module Reference.

Definition hypot (x y : float) : float := sqrt (x * x + y * y).

Definition is_empty (r : Rect) : bool :=
    (x1 r <=? x0 r) || (y1 r <=? y0 r).

Definition width (r : Rect) : float := py_max 0 (x1 r - x0 r).
Definition height (r : Rect) : float := py_max 0 (y1 r - y0 r).
Definition get_area (r : Rect) : float := width r * height r.

Definition truthy (r : Rect) : bool :=
    negb ((x0 r =? 0) && (y0 r =? 0) && (x1 r =? 0) && (y1 r =? 0)).

Definition intersects (r s : Rect) : bool :=
    negb (is_empty r) && negb (is_empty s)
    && (x0 r <? x1 s) && (x0 s <? x1 r) && (y0 r <? y1 s) && (y0 s <? y1 r).

Definition intersect (r s : Rect) : Rect :=
    if is_empty s then s
    else if is_empty r then r
    else mkRect (py_max (x0 r) (x0 s)) (py_max (y0 r) (y0 s))
                (py_min (x1 r) (x1 s)) (py_min (y1 r) (y1 s)).

Definition union (r s : Rect) : Rect :=
    if is_empty s then r
    else if is_empty r then s
    else mkRect (py_min (x0 r) (x0 s)) (py_min (y0 r) (y0 s))
                (py_max (x1 r) (x1 s)) (py_max (y1 r) (y1 s)).

Definition externals : Externals :=
    Build_Externals hypot truthy intersects intersect union get_area.

End Reference.

(* ===================================================================== *)
(** * Vocabulary of the properties                                        *)
(* ===================================================================== *)

(** A float that is not NaN. *)
Definition is_number (x : float) : Prop := Prim2SF x <> S754_nan.

(** [R] holds of every two neighbours of [l]. *)
Fixpoint consecutive {A : Type} (R : A -> A -> Prop) (l : list A) : Prop :=
  match l with
  | p :: (q :: _) as rest => R p q /\ consecutive R rest
  | _ => True
  end.

(** The number of points of [l] that Python finds equal to [p]. *)
Definition count_point (p : Point) (l : list Point) : nat :=
  List.length (filter (point_eqb p) l).

Section Vocabulary.
Context {ext : Externals}.
Variable segments : list Segment.
Variable endpoint_tol : float.

(** [(p, q)] is a collected segment. *)
Definition is_segment (p q : Point) : Prop :=
  exists i, nth_error segments i = Some (p, q).

(** [q] can be appended after [p]: it is an endpoint of a collected
    segment whose other endpoint lies within the tolerance of [p]. *)
Definition link (p q : Point) : Prop :=
  exists i a b,
    nth_error segments i = Some (a, b)
    /\ ((q = b /\ (_dist p a <=? endpoint_tol) = true)
        \/ (q = a /\ (_dist p b <=? endpoint_tol) = true)).

(** The points [pts] were appended one after the other, starting at [cur]. *)
Fixpoint linked (cur : Point) (pts : list Point) : Prop :=
  match pts with
  | [] => True
  | q :: pts' => link cur q /\ linked q pts'
  end.

(** Two neighbours of a merged polyline: the seed segment, a forward
    link, or a backward link. *)
Definition joined (p q : Point) : Prop :=
  is_segment p q \/ link p q \/ link q p.

(** The reading of the specification: the pair is a collected segment or
    the reverse of one. *)
Definition segment_or_reverse (p q : Point) : Prop :=
  In (p, q) segments \/ In (q, p) segments.

(** [q] can be appended after [p] through segment [i]. *)
Definition link_via (i : nat) (p q : Point) : Prop :=
  exists a b,
    nth_error segments i = Some (a, b)
    /\ ((q = b /\ (_dist p a <=? endpoint_tol) = true)
        \/ (q = a /\ (_dist p b <=? endpoint_tol) = true)).

(** The points of [steps] were appended one after the other, starting at
    [cur], each through the segment it is paired with. *)
Fixpoint linked_via (cur : Point) (steps : list (nat * Point)) : Prop :=
  match steps with
  | [] => True
  | (i, q) :: steps' => link_via i cur q /\ linked_via q steps'
  end.

(** The neighbours [p] and [q] of a merged polyline are joined by segment
    [i]: as the seed segment, by a forward link or by a backward link. *)
Definition joined_via (i : nat) (p q : Point) : Prop :=
  nth_error segments i = Some (p, q) \/ link_via i p q \/ link_via i q p.

(** [used] names, edge by edge, a segment that joins the two points of
    the edge of [poly]. *)
Fixpoint edges_from (poly : Polyline) (used : list nat) {struct used} : Prop :=
  match used with
  | [] => List.length poly = 1%nat
  | i :: used' =>
      match poly with
      | p :: (q :: _) as rest => joined_via i p q /\ edges_from rest used'
      | _ => False
      end
  end.

End Vocabulary.

(** Non-increasing order of a key, as [<=] on floats sees it. *)
Definition non_increasing {A : Type} (key : A -> float) (p q : A) : Prop :=
  (key q <=? key p) = true.

(** Non-decreasing order, as [<=] on floats sees it. *)
Definition non_decreasing (a b : float) : Prop := (a <=? b) = true.

(** The reading of the specification: of a sorted list with an even
    number of elements, the lower of the two middle elements. *)
Definition lower_middle (sorted : list float) : float :=
  nth (Nat.div (List.length sorted - 1) 2) sorted 0.

(** The section height as the specification words it, with the
    lower-middle element of the sorted deltas. *)
Definition section_height_as_specified (station_hits : list StationHit) (height : float)
  : float :=
  match deltas_of (map hit_y0 station_hits) with
  | [] => height / 3
  | delta :: deltas =>
      py_max 200 (lower_middle (sorted_by (fun d => d) (delta :: deltas)) * 0.9)
  end.

(** The call returned or raised: its loops were given enough iterations. *)
Definition terminates {A : Type} (o : outcome A) : Prop := o <> OutOfFuel.

(** Concrete inputs on which the functions are run. *)
Module Example.

(** The two segments of the merge-closure example. *)
Definition closure_segments : list Segment :=
  [((0, 0), (10, 0)); ((10, 0.5), (20, 0))].

Definition region : Rect := mkRect 0 0 100 100.

(** A page whose drawings hold these two segments, one line in each of
    the two encodings. *)
Definition closure_drawings : list drawing :=
  [mkDrawing (Some (mkRect 0 0 20 1))
     [mkItem "l" [VNum 0; VNum 0; VNum 10; VNum 0];
      mkItem "l" [VPoint 10 0.5; VPoint 20 0]]].

(** Three segments that close a triangle. *)
Definition triangle : list Segment :=
  [((0, 0), (10, 0)); ((10, 0), (10, 10)); ((10, 10), (0, 0))].

(** Two segments whose near endpoints [(4, 4)] and [(-4, -4)] fall in one
    bucket of size 10 and are more than 10 apart. *)
Definition far_segments : list Segment :=
  [((10, 0), (4, 4)); ((-4, -4), (-10, 0))].

(** Station labels whose boxes start at the heights 100, 300 and 520. *)
Definition station_word (y : float) : word := mkWord 900 y 940 (y + 10) "445+00".

Definition station_words : list word :=
  [station_word 100; station_word 300; station_word 520].

(** Station labels at the heights 100, 300 and 700, whose deltas are 200
    and 400, and at the heights 100, 700 and 900, whose deltas 600 and 200
    are not in ascending order. *)
Definition spread_words : list word :=
  [station_word 100; station_word 300; station_word 700].

Definition uneven_words : list word :=
  [station_word 100; station_word 700; station_word 900].

(** Two frames that overlap on half of their height, and two that overlap
    on a quarter of it. *)
Definition frame_a : Rect := mkRect 30 0 980 200.
Definition frame_half : Rect := mkRect 30 100 980 300.
Definition frame_quarter : Rect := mkRect 30 150 980 350.

(** A frame of half the height of [frame_a] that overlaps it on 50 units,
    and a frame below their union that overlaps it on 10 units. *)
Definition frame_short : Rect := mkRect 30 150 980 250.
Definition frame_below : Rect := mkRect 30 240 980 440.

(** Three lines of lengths 50, 300 and 120, in this order. *)
Definition three_lines : list drawing :=
  [mkDrawing (Some (mkRect 100 50 400 150))
     [mkItem "l" [VNum 100; VNum 50; VNum 150; VNum 50];
      mkItem "l" [VPoint 100 100; VPoint 400 100];
      mkItem "l" [VNum 100; VNum 150; VNum 220; VNum 150]]].

(** A page with no station label, and drawings without a usable item. *)
Definition blank_page : page := mkPage [mkWord 0 0 10 10 "45+00"] 1000 1000.

Definition unusable_drawings : list drawing :=
  [mkDrawing None [mkItem "l" [VNum 0; VNum 0; VNum 10; VNum 0]];
   mkDrawing (Some region) [mkItem "l" [VNum 0; VNum 0; VNum 10]; mkItem "re" []]].

End Example.

(** A path item that the collection loop skips: its kind is neither a
    line nor a curve, or its field count is none of the accepted ones
    ([len(item)] 5 or 3 for a line, 9 or 5 for a curve). *)
Definition unrecognized (it : item) : bool :=
  let n := S (List.length (fields it)) in
  if String.eqb (kind it) "l" then negb (Nat.eqb n 5 || Nat.eqb n 3)
  else if String.eqb (kind it) "c" then negb (Nat.eqb n 9 || Nat.eqb n 5)
  else true.

(** A drawing that contributes no segment: it has no [rect], or each of
    its items is skipped. *)
Definition contributes_nothing (d : drawing) : Prop :=
  d_rect d = None \/ Forall (fun it => unrecognized it = true) (d_items d).

(** ** The set [unused]

    [unused] is a [set] of segment indices, and [next(iter(unused))] is the
    first key that iterating its hash table meets.  The table is the one of
    CPython's [Objects/setobject.c]: a key is probed first at the slot
    [hash & mask]; an iterator scans the slots in order; [remove] leaves a
    dummy in the slot of the key; after an insertion that brings
    [fill * 5] to [mask * 3] or above, the table is rebuilt with a larger
    size.  The slot taken after a collision and the size chosen at a
    rebuild are left open. *)
Module PySet.

Inductive slot : Type :=
| Unused
| Dummy
| Active (key : nat).

Definition table : Type := list slot.

(** The hash of an [int] from 0 to [2^61 - 2] is the [int]. *)
Definition hash (k : nat) : nat := k.

Definition mask (t : table) : nat := (List.length t - 1)%nat.

(** [hash & mask]: the size of a table is a power of two. *)
Definition first_probe (t : table) (k : nat) : nat :=
  Nat.modulo (hash k) (List.length t).

(** The keys of the set in the order of iteration, which is the order of
    the slots. *)
Fixpoint active_keys (t : table) : list nat :=
  match t with
  | [] => []
  | Active k :: t' => k :: active_keys t'
  | _ :: t' => active_keys t'
  end.

(** [so->used] counts the active slots, [so->fill] the active and the
    dummy ones. *)
Definition used (t : table) : nat := List.length (active_keys t).

Definition fill (t : table) : nat :=
  List.length (filter (fun s => match s with Unused => false | _ => true end) t).

(** [next(iter(s))]; [None] stands for [StopIteration]. *)
Fixpoint first_key (t : table) : option nat :=
  match t with
  | [] => None
  | Active k :: _ => Some k
  | _ :: t' => first_key t'
  end.

(** [s.remove(k)] for a key of the set. *)
Definition discard (k : nat) (t : table) : table :=
  map (fun s => match s with
                | Active k' => if Nat.eqb k k' then Dummy else s
                | _ => s
                end) t.

Definition store (t : table) (j : nat) (s : slot) : table :=
  firstn j t ++ s :: skipn (S j) t.

(** [set_add_entry]: a key that is not in the table goes to the slot of
    its first probe when that slot is unused, and otherwise to some slot
    that is unused or a dummy. *)
Inductive adds (t : table) (k : nat) : table -> Prop :=
| adds_present :
    In (Active k) t ->
    adds t k t
| adds_first_probe :
    ~ In (Active k) t ->
    nth_error t (first_probe t k) = Some Unused ->
    adds t k (store t (first_probe t k) (Active k))
| adds_after_collision j s :
    ~ In (Active k) t ->
    nth_error t (first_probe t k) <> Some Unused ->
    nth_error t j = Some s ->
    s = Unused \/ s = Dummy ->
    adds t k (store t j (Active k)).

(** The keys [ks] are added one after the other. *)
Inductive fills : table -> list nat -> table -> Prop :=
| fills_nil t :
    fills t [] t
| fills_cons t k t1 ks t2 :
    adds t k t1 ->
    fills t1 ks t2 ->
    fills t (k :: ks) t2.

(** [set_table_resize]: the keys are added, in slot order, to an empty
    table whose size is a power of two above twice their number (the code
    takes the least power of two above [used * 4], and above [used * 2]
    for more than 50000 keys). *)
Definition resized (t t' : table) : Prop :=
  exists e,
    (8 <= 2 ^ e)%nat /\ (2 * used t < 2 ^ e)%nat
    /\ fills (repeat Unused (2 ^ e)) (active_keys t) t'.

(** The end of [set_add_entry]: the table is kept while
    [fill * 5 < mask * 3], and rebuilt otherwise. *)
Inductive settles (t : table) : table -> Prop :=
| settles_keep :
    (fill t * 5 < mask t * 3)%nat ->
    settles t t
| settles_resize t' :
    ~ (fill t * 5 < mask t * 3)%nat ->
    resized t t' ->
    settles t t'.

(** [set(range(n))]: the keys [0] to [n - 1] are added, in this order, to
    an empty table of 8 slots. *)
Inductive of_range : nat -> table -> Prop :=
| of_range_O :
    of_range 0 (repeat Unused 8)
| of_range_S n t t1 t2 :
    of_range n t ->
    adds t n t1 ->
    settles t1 t2 ->
    of_range (S n) t2.

(** The table of [size] slots whose first [n] slots hold the keys [0] to
    [n - 1], the others being unused. *)
Definition ordered (n size : nat) : table :=
  map Active (seq 0 n) ++ repeat Unused (size - n).

End PySet.

(** What the executable loops see of an outcome with a table: the keys of
    the table in the order of iteration. *)
Definition keys_of {A : Type} (o : outcome (PySet.table * A)) : outcome (list nat * A) :=
  match o with
  | Ret (unused, a) => Ret (PySet.active_keys unused, a)
  | Raise e => Raise e
  | OutOfFuel => OutOfFuel
  end.

(** ** Runs of the reconstructor

    The loops of [extract_merged_polylines_in_rect] as relations between a
    state and the outcome of running the loop from it: one rule for each
    path through the loop body.  The set [unused] is a hash table; the
    test [cand in unused] is a test on its keys. *)
Section Runs.
Context {ext : Externals}.
Variable segments : list Segment.
Variable endpoint_index : EndpointIndex.
Variable endpoint_tol : float.
Variable min_length : float.

(** A growth loop (lines 97-110 and 115-128) from [(unused, pts, current)]. *)
Inductive grows : PySet.table -> list Point -> Point
                  -> outcome (PySet.table * list Point) -> Prop :=
| grows_lookup_raises unused pts current e :
    next_connected endpoint_index endpoint_tol (PySet.active_keys unused) current
    = Raise e ->
    grows unused pts current (Raise e)
| grows_no_candidate unused pts current :
    next_connected endpoint_index endpoint_tol (PySet.active_keys unused) current
    = Ret None ->
    grows unused pts current (Ret (unused, pts))
| grows_segment_raises unused pts current nxt e :
    next_connected endpoint_index endpoint_tol (PySet.active_keys unused) current
    = Ret (Some nxt) ->
    get_segment segments nxt = Raise e ->
    grows unused pts current (Raise e)
| grows_via_a unused pts current nxt a b o :
    next_connected endpoint_index endpoint_tol (PySet.active_keys unused) current
    = Ret (Some nxt) ->
    get_segment segments nxt = Ret (a, b) ->
    (_dist current a <=? endpoint_tol) = true ->
    grows (PySet.discard nxt unused) (pts ++ [b]) b o ->
    grows unused pts current o
| grows_via_b unused pts current nxt a b o :
    next_connected endpoint_index endpoint_tol (PySet.active_keys unused) current
    = Ret (Some nxt) ->
    get_segment segments nxt = Ret (a, b) ->
    (_dist current a <=? endpoint_tol) = false ->
    (_dist current b <=? endpoint_tol) = true ->
    grows (PySet.discard nxt unused) (pts ++ [a]) a o ->
    grows unused pts current o
| grows_candidate_dropped unused pts current nxt a b :
    next_connected endpoint_index endpoint_tol (PySet.active_keys unused) current
    = Ret (Some nxt) ->
    get_segment segments nxt = Ret (a, b) ->
    (_dist current a <=? endpoint_tol) = false ->
    (_dist current b <=? endpoint_tol) = false ->
    grows unused pts current (Ret (PySet.discard nxt unused, pts)).

(** The body of [while unused] (lines 89-131) for the seed [start_idx]. *)
Inductive merges_from (start_idx : nat) (unused : PySet.table)
  : outcome (PySet.table * Polyline) -> Prop :=
| merges_from_seed_raises e :
    get_segment segments start_idx = Raise e ->
    merges_from start_idx unused (Raise e)
| merges_from_forward_raises a0 b0 e :
    get_segment segments start_idx = Ret (a0, b0) ->
    grows (PySet.discard start_idx unused) [a0; b0] b0 (Raise e) ->
    merges_from start_idx unused (Raise e)
| merges_from_backward_raises a0 b0 unused2 chain e :
    get_segment segments start_idx = Ret (a0, b0) ->
    grows (PySet.discard start_idx unused) [a0; b0] b0 (Ret (unused2, chain)) ->
    grows unused2 [a0] a0 (Raise e) ->
    merges_from start_idx unused (Raise e)
| merges_from_merged a0 b0 unused2 chain unused3 prepend :
    get_segment segments start_idx = Ret (a0, b0) ->
    grows (PySet.discard start_idx unused) [a0; b0] b0 (Ret (unused2, chain)) ->
    grows unused2 [a0] a0 (Ret (unused3, prepend)) ->
    merges_from start_idx unused (Ret (unused3, removelast (rev prepend) ++ chain)).

(** The loop [while unused] (lines 88-134): it ends when the set has no
    key, and the seed is the first key that iterating the table meets. *)
Inductive merges : PySet.table -> list Polyline -> outcome (list Polyline) -> Prop :=
| merges_done unused polylines :
    PySet.first_key unused = None ->
    merges unused polylines (Ret polylines)
| merges_raises unused start_idx polylines e :
    PySet.first_key unused = Some start_idx ->
    merges_from start_idx unused (Raise e) ->
    merges unused polylines (Raise e)
| merges_kept unused start_idx polylines unused' merged o :
    PySet.first_key unused = Some start_idx ->
    merges_from start_idx unused (Ret (unused', merged)) ->
    (min_length <=? _polyline_length merged) = true ->
    merges unused' (polylines ++ [merged]) o ->
    merges unused polylines o
| merges_discarded unused start_idx polylines unused' merged o :
    PySet.first_key unused = Some start_idx ->
    merges_from start_idx unused (Ret (unused', merged)) ->
    (min_length <=? _polyline_length merged) = false ->
    merges unused' polylines o ->
    merges unused polylines o.

End Runs.

(** A run of [extract_merged_polylines_in_rect]: the outcome of the
    collection of the segments and the outcome of the call.  [unused] is
    any table that [set(range(len(segments)))] can build. *)
Inductive extraction_runs {ext : Externals} (drawings : list drawing) (rect : Rect)
          (endpoint_tol min_length : float)
  : outcome (list Segment) -> outcome (list Polyline) -> Prop :=
| run_collection_raises e :
    collect_segments drawings rect [] = Raise e ->
    extraction_runs drawings rect endpoint_tol min_length (Raise e) (Raise e)
| run_no_segment :
    collect_segments drawings rect [] = Ret [] ->
    extraction_runs drawings rect endpoint_tol min_length (Ret []) (Ret [])
| run_index_raises segments e :
    collect_segments drawings rect [] = Ret segments ->
    segments <> [] ->
    build_index segments endpoint_tol 0 [] = Raise e ->
    extraction_runs drawings rect endpoint_tol min_length (Ret segments) (Raise e)
| run_merge_raises segments index unused e :
    collect_segments drawings rect [] = Ret segments ->
    segments <> [] ->
    build_index segments endpoint_tol 0 [] = Ret index ->
    PySet.of_range (List.length segments) unused ->
    merges segments index endpoint_tol min_length unused [] (Raise e) ->
    extraction_runs drawings rect endpoint_tol min_length (Ret segments) (Raise e)
| run_returns segments index unused polylines :
    collect_segments drawings rect [] = Ret segments ->
    segments <> [] ->
    build_index segments endpoint_tol 0 [] = Ret index ->
    PySet.of_range (List.length segments) unused ->
    merges segments index endpoint_tol min_length unused [] (Ret polylines) ->
    extraction_runs drawings rect endpoint_tol min_length (Ret segments)
                    (Ret (sort_reverse_by _polyline_length polylines)).

(** ** Further vocabulary *)

(** The call returned. *)
Definition returns {A : Type} (o : outcome A) : Prop := exists a, o = Ret a.

(** The exceptions of [round(c / tol) * tol]. *)
Definition rounding_error (e : exn) : Prop :=
  e = ZeroDivisionError \/ e = ValueError \/ e = OverflowError.

(** [p] is an endpoint of a collected segment. *)
Definition is_endpoint (segments : list Segment) (p : Point) : Prop :=
  exists i a b, nth_error segments i = Some (a, b) /\ (p = a \/ p = b).

(** Every segment index stored in the index is below [n]. *)
Definition index_in_range (n : nat) (index : EndpointIndex) : Prop :=
  Forall (fun entry => Forall (fun i => (i < n)%nat) (snd entry)) index.

(** Every list of segment indices stored in the index is in ascending
    order and holds no index above [bound]. *)
Definition index_ascending (bound : nat) (index : EndpointIndex) : Prop :=
  Forall (fun entry => StronglySorted le (snd entry)
                       /\ Forall (fun i => (i <= bound)%nat) (snd entry)) index.

(** The number of edges of a polyline, and of a list of polylines. *)
Definition edges (poly : Polyline) : nat := (List.length poly - 1)%nat.
Definition total_edges (polylines : list Polyline) : nat :=
  list_sum (map edges polylines).

(* ===================================================================== *)
(** * cli.py: what [make_debug_overlay] computes for a frame              *)
(* ===================================================================== *)

(** [TOP_N = 12] *)
Definition TOP_N : nat := 12.

(** Lines 114-117, on the hits that [find_station_text(page, clip=fr)]
    returned: the text of the first hit in ascending order of [-x1].  The
    sorted list of a non-empty list is not empty, so that indexing it at 0
    does not raise. *)
Definition frame_station (stations : list StationHit) : option string :=
  match stations with
  | [] => None
  | _ :: _ =>
      match sorted_by (fun s => - x1 (snd s)) stations with
      | s :: _ => Some (fst s)
      | [] => None
      end
  end.

(** [station or 'NO STATION FOUND'] *)
Definition station_or_default (station : option string) : string :=
  match station with
  | None | Some EmptyString => "NO STATION FOUND"
  | Some s => s
  end.

(** Lines 125-133: the polylines drawn for the frame. *)
Definition frame_polylines {ext : Externals} (drawings : list drawing) (fr : Rect)
  : outcome (list Polyline) :=
  bind (extract_merged_polylines_in_rect drawings fr 2 120)
       (fun polys => Ret (firstn TOP_N polys)).

(** A frame with one long line and one short line. *)
Module OverlayExample.

Definition frame : Rect := mkRect 30 0 980 200.

Definition drawings : list drawing :=
  [mkDrawing (Some (mkRect 100 50 400 150))
     [mkItem "l" [VNum 100; VNum 100; VNum 400; VNum 100];
      mkItem "l" [VPoint 100 50; VPoint 150 50]]].

Definition stations : list StationHit :=
  [("445+00"%string, mkRect 100 0 140 10); ("446+50"%string, mkRect 900 0 940 10)].

End OverlayExample.

(** Three digits, [+], two digits, then the end of the token or a
    character that is not a word character ([Re.is_digit] and [Re.is_word]
    are [\d] and [\w] on the code points below 256). *)
Definition station_shape (text : string) : Prop :=
  exists d1 d2 d3 d4 d5 rest,
    text = String d1 (String d2 (String d3 (String "+" (String d4 (String d5 rest)))))
    /\ Re.is_digit d1 = true /\ Re.is_digit d2 = true /\ Re.is_digit d3 = true
    /\ Re.is_digit d4 = true /\ Re.is_digit d5 = true
    /\ Re.word_after rest = false.

Lemma is_digit_is_word (c : ascii) : Re.is_digit c = true -> Re.is_word c = true.
Proof.
  unfold Re.is_word. intros ->. now destruct (Re.is_alpha c).
Qed.

Lemma station_match_shape (text : string) :
  Re.re_match STATION_RE text = true <-> station_shape text.
Proof.
  unfold Re.re_match, STATION_RE, station_shape. split.
  - destruct text as [|d1 [|d2 [|d3 [|p [|d4 [|d5 rest]]]]]]; cbn [Re.match_here];
      rewrite ?andb_false_r; try discriminate.
    intros H.
    repeat (apply andb_prop in H; destruct H as [? H]).
    match goal with
    | E : Ascii.eqb _ p = true |- _ => apply Ascii.eqb_eq in E; subst p
    end.
    exists d1, d2, d3, d4, d5, rest. repeat split; try assumption.
    match goal with
    | E : Re.at_boundary (Some d5) rest = true |- _ =>
        unfold Re.at_boundary, Re.word_before in E;
        rewrite (is_digit_is_word d5) in E by assumption;
        destruct (Re.word_after rest); [discriminate | reflexivity]
    end.
  - intros (d1 & d2 & d3 & d4 & d5 & rest & -> & H1 & H2 & H3 & H4 & H5 & Hr).
    cbn [Re.match_here]. unfold Re.at_boundary, Re.word_before.
    cbn [Re.word_after].
    rewrite H1, H2, H3, H4, H5, Hr, (is_digit_is_word d1 H1), (is_digit_is_word d5 H5).
    reflexivity.
Qed.

Lemma find_station_text_filter (words : list word) :
  find_station_text words =
  map station_hit (filter (fun w => Re.re_match STATION_RE (w_text w)) words).
Proof.
  induction words as [|w ws IH]; simpl; [reflexivity|].
  destruct (Re.re_match STATION_RE (w_text w)); simpl; now rewrite IH.
Qed.

(** C1, as stated: the pattern of the specification and the compiled
    pattern disagree on ["445+005"] and on ["445+00extra"], which the
    locator does not return. *)
Lemma station_prefix_counterexample :
  Re.re_match STATION_SPEC_PATTERN "445+005" = true
  /\ Re.re_match STATION_RE "445+005" = false
  /\ Re.re_match STATION_SPEC_PATTERN "445+00extra" = true
  /\ Re.re_match STATION_RE "445+00extra" = false
  /\ find_station_text [mkWord 0 0 1 1 "445+005"; mkWord 0 0 1 1 "445+00extra"] = [].
Proof. repeat split; reflexivity. Qed.

(** C1, amended: for tokens whose characters are code points below 256,
    the station locator returns, in scan order, exactly the tokens that
    start with three digits, [+] and two digits and in which these are
    followed by the end of the token or by a character that is not a word
    character: ["445+00"], ["445+00."] and ["445+00"] followed by the
    multiplication sign (code point 215) match; ["45+00"], ["445+005"],
    ["445+00extra"] and ["445+00"] followed by the letter e with an acute
    accent (code point 233) do not. *)
Theorem find_station_text_word_bounded :
  (forall words,
      find_station_text words =
      map station_hit (filter (fun w => Re.re_match STATION_RE (w_text w)) words))
  /\ (forall text, Re.re_match STATION_RE text = true <-> station_shape text)
  /\ Re.re_match STATION_RE "445+00" = true
  /\ Re.re_match STATION_RE "445+00." = true
  /\ Re.re_match STATION_RE ("445+00" ++ String (ascii_of_nat 215) EmptyString) = true
  /\ Re.re_match STATION_RE "45+00" = false
  /\ Re.re_match STATION_RE "445+005" = false
  /\ Re.re_match STATION_RE "445+00extra" = false
  /\ Re.re_match STATION_RE ("445+00" ++ String (ascii_of_nat 233) EmptyString) = false.
Proof.
  split; [exact find_station_text_filter|].
  split; [exact station_match_shape|].
  repeat split; reflexivity.
Qed.

(* ===================================================================== *)
(** * Outcomes                                                            *)
(* ===================================================================== *)

Lemma bind_Ret_inv {A B : Type} (c : outcome A) (k : A -> outcome B) (r : B) :
  bind c k = Ret r -> exists a, c = Ret a /\ k a = Ret r.
Proof.
  destruct c as [a|e|]; simpl; intros H; try discriminate. now exists a.
Qed.

(** Splits a hypothesis [bind c k = Ret r]. *)
Ltac bind_inv H :=
  let a := fresh "a" in
  let Ha := fresh "Hc" in
  apply bind_Ret_inv in H; destruct H as (a & Ha & H).

(* ===================================================================== *)
(** * Order of floats                                                     *)
(* ===================================================================== *)

Lemma SFcompare_antisym (x y : spec_float) :
  SFcompare y x = option_map CompOpp (SFcompare x y).
Proof.
  destruct x as [sx|sx| |sx mx ex], y as [sy|sy| |sy my ey]; simpl;
    try reflexivity;
    try (destruct sx; reflexivity); try (destruct sy; reflexivity);
    try (destruct sx, sy; reflexivity).
  destruct sx, sy; try reflexivity;
    rewrite (Z.compare_antisym ey ex);
    destruct (ey ?= ex)%Z eqn:E; simpl; try reflexivity;
    rewrite (Pos.compare_cont_antisym _ _ Eq); simpl;
    try rewrite CompOpp_involutive; reflexivity.
Qed.

Lemma leb_is_number_r (m x : float) : (m <=? x) = true -> is_number x.
Proof.
  rewrite leb_spec. unfold is_number, SFleb. intros H E. rewrite E in H.
  destruct (Prim2SF m); discriminate.
Qed.

Lemma ltb_false_leb (x y : float) :
  is_number x -> is_number y -> (x <? y) = false -> (y <=? x) = true.
Proof.
  unfold is_number. rewrite ltb_spec, leb_spec. unfold SFltb, SFleb.
  rewrite (SFcompare_antisym (Prim2SF x) (Prim2SF y)).
  intros Hx Hy.
  destruct (Prim2SF x) eqn:Ex, (Prim2SF y) eqn:Ey; try congruence;
    match goal with
    | |- context [SFcompare ?a ?b] =>
        destruct (SFcompare a b) as [[]|] eqn:Ec
    end; simpl; try congruence; simpl in Ec; discriminate.
Qed.

(* ===================================================================== *)
(** * Sorting                                                             *)
(* ===================================================================== *)

Section SortFacts.
Variable A : Type.
Variable key : A -> float.

Lemma insert_desc_Forall (P : A -> Prop) (x : A) (l : list A) :
  P x -> Forall P l -> Forall P (insert_desc key x l).
Proof.
  intros Hx Hl. induction Hl as [|y l Hy Hl IH]; simpl.
  - now constructor.
  - destruct (key x <? key y); repeat constructor; assumption.
Qed.

Lemma sort_reverse_by_Forall (P : A -> Prop) (l : list A) :
  Forall P l -> Forall P (sort_reverse_by key l).
Proof.
  induction 1 as [|x l Hx Hl IH]; simpl; [constructor|].
  now apply insert_desc_Forall.
Qed.

Lemma insert_desc_In (x y : A) (l : list A) :
  In y (insert_desc key x l) <-> y = x \/ In y l.
Proof.
  induction l as [|z l IH]; simpl; [intuition congruence|].
  destruct (key x <? key z); simpl; rewrite ?IH; intuition congruence.
Qed.

Lemma insert_desc_HdRel (x y : A) (l : list A) :
  non_increasing key y x -> HdRel (non_increasing key) y l ->
  HdRel (non_increasing key) y (insert_desc key x l).
Proof.
  intros Hyx Hl. destruct l as [|z l]; simpl.
  - now constructor.
  - destruct (key x <? key z); constructor; [|assumption].
    now inversion Hl.
Qed.

Lemma insert_desc_Sorted (x : A) (l : list A) :
  is_number (key x) -> Forall (fun y => is_number (key y)) l ->
  Sorted (non_increasing key) l ->
  Sorted (non_increasing key) (insert_desc key x l).
Proof.
  intros Hx Hl Hs. induction Hs as [|y l Hs IH Hd]; simpl.
  - repeat constructor.
  - inversion Hl as [|? ? Hy Hl']; subst.
    destruct (key x <? key y) eqn:E.
    + constructor; [now apply IH|].
      apply insert_desc_HdRel; [|assumption].
      unfold non_increasing. rewrite leb_spec. rewrite ltb_spec in E.
      unfold SFltb in E. unfold SFleb.
      destruct (SFcompare (Prim2SF (key x)) (Prim2SF (key y))) as [[]|];
        try discriminate; reflexivity.
    + constructor; [now constructor|].
      constructor. now apply ltb_false_leb.
Qed.

Lemma sort_reverse_by_Sorted (l : list A) :
  Forall (fun y => is_number (key y)) l ->
  Sorted (non_increasing key) (sort_reverse_by key l).
Proof.
  induction 1 as [|x l Hx Hl IH]; simpl; [constructor|].
  apply insert_desc_Sorted; [assumption| |assumption].
  now apply sort_reverse_by_Forall.
Qed.

Lemma insert_desc_Permutation (x : A) (l : list A) :
  Permutation (x :: l) (insert_desc key x l).
Proof.
  induction l as [|y l IH]; simpl; [reflexivity|].
  destruct (key x <? key y); [|reflexivity].
  rewrite perm_swap. now apply perm_skip.
Qed.

(** The sort returns the polylines it was given. *)
Lemma sort_reverse_by_Permutation (l : list A) :
  Permutation l (sort_reverse_by key l).
Proof.
  induction l as [|x l IH]; simpl; [constructor|].
  rewrite <- insert_desc_Permutation. now apply perm_skip.
Qed.

End SortFacts.

(* ===================================================================== *)
(** * Lists of neighbours                                                 *)
(* ===================================================================== *)

Section Consecutive.
Variable A : Type.
Implicit Types (R : A -> A -> Prop) (l : list A).

Lemma consecutive_impl R R' l :
  (forall p q, R p q -> R' p q) -> consecutive R l -> consecutive R' l.
Proof.
  intros HR. induction l as [|p [|q l] IH]; simpl; auto.
  intros [H1 H2]. split; [now apply HR | now apply IH].
Qed.

Lemma consecutive_app R l1 x l2 :
  consecutive R (l1 ++ [x]) -> consecutive R (x :: l2) ->
  consecutive R (l1 ++ x :: l2).
Proof.
  induction l1 as [|p [|q l1] IH]; intros H1 H2.
  - exact H2.
  - simpl in *. split; [tauto | exact H2].
  - destruct H1 as [Hpq H1]. split; [exact Hpq|]. now apply IH.
Qed.

Lemma consecutive_snoc R l x y :
  consecutive R (l ++ [x]) -> R x y -> consecutive R ((l ++ [x]) ++ [y]).
Proof.
  intros H Hxy. rewrite <- app_assoc. simpl.
  apply consecutive_app; [exact H | simpl; auto].
Qed.

Lemma consecutive_rev R l :
  consecutive R l -> consecutive (fun p q => R q p) (rev l).
Proof.
  induction l as [|p [|q l] IH]; intros H; try exact I.
  destruct H as [Hpq H]. specialize (IH H).
  change (rev (p :: q :: l)) with (rev (q :: l) ++ [p]).
  simpl in *. apply consecutive_snoc; assumption.
Qed.

Lemma consecutive_nth R l :
  consecutive R l ->
  forall i p q, nth_error l i = Some p -> nth_error l (S i) = Some q -> R p q.
Proof.
  induction l as [|x [|y l] IH]; intros H i p q Hp Hq.
  - destruct i; discriminate.
  - destruct i as [|[|i]]; discriminate.
  - destruct H as [Hxy H]. destruct i as [|i].
    + simpl in Hp, Hq. congruence.
    + apply (IH H i); assumption.
Qed.

End Consecutive.

(* ===================================================================== *)
(** * Chain growth                                                        *)
(* ===================================================================== *)

Section MergeFacts.
Context {ext : Externals}.
Variable segments : list Segment.
Variable endpoint_index : EndpointIndex.
Variable endpoint_tol : float.
Variable min_length : float.

Local Abbreviation grow := (grow segments endpoint_index endpoint_tol).
Local Abbreviation next_connected := (next_connected endpoint_index endpoint_tol).
Local Abbreviation merge_from := (merge_from segments endpoint_index endpoint_tol).
Local Abbreviation merge_loop := (merge_loop segments endpoint_index endpoint_tol min_length).
Local Abbreviation link := (link segments endpoint_tol).
Local Abbreviation linked := (linked segments endpoint_tol).
Local Abbreviation joined := (joined segments endpoint_tol).

Lemma grow_eq (fuel : nat) (unused : list nat) (pts : list Point) (current : Point) :
  grow fuel unused pts current =
  bind (next_connected unused current) (fun nxt =>
    match nxt with
    | None => Ret (unused, pts)
    | Some nxt =>
        match fuel with
        | O => OutOfFuel
        | S fuel' =>
            let unused' := set_remove nxt unused in
            bind (get_segment segments nxt) (fun s =>
              let '(a, b) := s in
              if _dist current a <=? endpoint_tol
              then grow fuel' unused' (pts ++ [b]) b
              else if _dist current b <=? endpoint_tol
              then grow fuel' unused' (pts ++ [a]) a
              else Ret (unused', pts))
        end
    end).
Proof. destruct fuel; reflexivity. Qed.

Lemma get_segment_Ret (i : nat) (s : Segment) :
  get_segment segments i = Ret s -> nth_error segments i = Some s.
Proof.
  unfold get_segment. destruct (nth_error segments i); intros H;
    [now inversion H | discriminate].
Qed.

(** A growth loop only appends, and each appended point is linked to the
    point before it. *)
Lemma grow_extends (fuel : nat) :
  forall unused pts current unused' pts',
    grow fuel unused pts current = Ret (unused', pts') ->
    exists more, pts' = pts ++ more /\ linked current more.
Proof.
  induction fuel as [|fuel IH]; intros unused pts current unused' pts' H;
    rewrite grow_eq in H; bind_inv H; destruct a as [nxt|]; try discriminate.
  - inversion H; subst. exists []. rewrite app_nil_r. split; [reflexivity | exact I].
  - cbv zeta in H. bind_inv H. destruct a as [a b].
    apply get_segment_Ret in Hc0.
    destruct (_dist current a <=? endpoint_tol) eqn:Ea;
      [|destruct (_dist current b <=? endpoint_tol) eqn:Eb].
    + apply IH in H. destruct H as (more & -> & Hl).
      exists (b :: more). rewrite <- app_assoc. split; [reflexivity|].
      split; [|exact Hl]. exists nxt, a, b. auto.
    + apply IH in H. destruct H as (more & -> & Hl).
      exists (a :: more). rewrite <- app_assoc. split; [reflexivity|].
      split; [|exact Hl]. exists nxt, a, b. auto.
    + inversion H; subst. exists []. rewrite app_nil_r. split; [reflexivity | exact I].
  - inversion H; subst. exists []. rewrite app_nil_r. split; [reflexivity | exact I].
Qed.

Lemma linked_consecutive (current : Point) (more : list Point) :
  linked current more -> consecutive link (current :: more).
Proof.
  revert current. induction more as [|q more IH]; intros current H; [exact I|].
  destruct H as [H1 H2]. split; [exact H1 | now apply IH].
Qed.

(** The shape of a merged polyline: the points grown backward, reversed,
    then the seed segment, then the points grown forward. *)
Lemma merge_from_shape (start_idx : nat) (unused unused3 : list nat) (merged : Polyline) :
  merge_from start_idx unused = Ret (unused3, merged) ->
  exists a0 b0 unused2 chain prepend fwd back,
    nth_error segments start_idx = Some (a0, b0)
    /\ (let unused1 := set_remove start_idx unused in
        grow (List.length unused1) unused1 [a0; b0] b0 = Ret (unused2, chain))
    /\ grow (List.length unused2) unused2 [a0] a0 = Ret (unused3, prepend)
    /\ chain = a0 :: b0 :: fwd
    /\ prepend = a0 :: back
    /\ merged = rev back ++ a0 :: b0 :: fwd
    /\ linked b0 fwd /\ linked a0 back.
Proof.
  unfold merge_from. intros H. cbv zeta in H.
  bind_inv H. destruct a as [a0 b0]. apply get_segment_Ret in Hc.
  bind_inv H. destruct a as [unused2 chain].
  bind_inv H. destruct a as [u3 prepend].
  inversion H; subst; clear H.
  destruct (grow_extends _ _ _ _ Hc0) as (fwd & -> & Hf).
  destruct (grow_extends _ _ _ _ Hc1) as (back & -> & Hb).
  exists a0, b0, unused2, (a0 :: b0 :: fwd), (a0 :: back), fwd, back.
  repeat split; try assumption.
  simpl rev. now rewrite removelast_last.
Qed.

Lemma merge_from_joined (start_idx : nat) (unused unused3 : list nat) (merged : Polyline) :
  merge_from start_idx unused = Ret (unused3, merged) ->
  (2 <= List.length merged)%nat /\ consecutive joined merged.
Proof.
  intros H. apply merge_from_shape in H.
  destruct H as (a0 & b0 & u2 & chain & prepend & fwd & back
                 & Hs & _ & _ & _ & _ & -> & Hf & Hb).
  split.
  - rewrite length_app. simpl. lia.
  - apply consecutive_app.
    + change (rev back ++ [a0]) with (rev (a0 :: back)).
      apply consecutive_impl with (R := fun p q => link q p).
      * intros p q Hl. right. right. exact Hl.
      * apply consecutive_rev. now apply linked_consecutive.
    + split.
      * left. now exists start_idx.
      * apply consecutive_impl with (R := link).
        -- intros p q Hl. right. left. exact Hl.
        -- now apply linked_consecutive.
Qed.

(** What holds of every merged polyline that passes the length filter
    holds of every polyline the loop keeps. *)
Lemma merge_loop_Forall (P : Polyline -> Prop) :
  (forall start_idx unused unused' merged,
      merge_from start_idx unused = Ret (unused', merged) ->
      (min_length <=? _polyline_length merged) = true -> P merged) ->
  forall fuel unused polylines result,
    Forall P polylines ->
    merge_loop fuel unused polylines = Ret result ->
    Forall P result.
Proof.
  intros HP. induction fuel as [|fuel IH]; intros unused polylines result Hall H;
    destruct unused as [|start_idx rest]; simpl in H; try discriminate.
  - now inversion H; subst.
  - now inversion H; subst.
  - bind_inv H. destruct a as [unused' merged].
    destruct (min_length <=? _polyline_length merged) eqn:E.
    + apply IH in H; [exact H|]. apply Forall_app. split; [exact Hall|].
      constructor; [|constructor]. eapply HP; eassumption.
    + apply IH in H; assumption.
Qed.

(** A candidate none of whose endpoints is within the tolerance leaves
    the unused set and adds no point. *)
Lemma grow_drops_candidate (fuel : nat) (unused : list nat) (pts : list Point)
      (current : Point) (nxt : nat) (a b : Point) :
  next_connected unused current = Ret (Some nxt) ->
  nth_error segments nxt = Some (a, b) ->
  (_dist current a <=? endpoint_tol) = false ->
  (_dist current b <=? endpoint_tol) = false ->
  grow (S fuel) unused pts current = Ret (set_remove nxt unused, pts).
Proof.
  intros Hn Hs Ha Hb. rewrite grow_eq, Hn. simpl.
  unfold get_segment. rewrite Hs. simpl. now rewrite Ha, Hb.
Qed.

End MergeFacts.

(* ===================================================================== *)
(** * Termination                                                         *)
(* ===================================================================== *)

Lemma bind_terminates {A B : Type} (c : outcome A) (k : A -> outcome B) :
  terminates c -> (forall a, c = Ret a -> terminates (k a)) -> terminates (bind c k).
Proof.
  unfold terminates. destruct c as [a|e|]; simpl; intros Hc Hk.
  - now apply Hk.
  - discriminate.
  - congruence.
Qed.

Lemma set_mem_In (x : nat) (s : list nat) : set_mem x s = true -> In x s.
Proof.
  unfold set_mem. rewrite existsb_exists. intros (y & Hy & E).
  apply Nat.eqb_eq in E. now subst.
Qed.

Lemma set_remove_length_le (x : nat) (s : list nat) :
  (List.length (set_remove x s) <= List.length s)%nat.
Proof. apply filter_length_le. Qed.

Lemma set_remove_length_lt (x : nat) (s : list nat) :
  In x s -> (List.length (set_remove x s) < List.length s)%nat.
Proof.
  unfold set_remove. induction s as [|y s IH]; simpl; [tauto|].
  intros [->|H].
  - rewrite Nat.eqb_refl. simpl.
    pose proof (filter_length_le (fun y => negb (Nat.eqb x y)) s). lia.
  - specialize (IH H). destruct (negb (Nat.eqb x y)); simpl; lia.
Qed.

Section Termination.
Context {ext : Externals}.

Lemma round_coord_terminates (c tol : float) : terminates (round_coord c tol).
Proof.
  unfold round_coord, py_div, py_round, int_to_float, terminates.
  destruct (tol =? 0); simpl; [discriminate|].
  destruct (Prim2SF (c / tol)); simpl; try discriminate;
    match goal with
    | |- context [is_infinity ?f] => destruct (is_infinity f)
    end; discriminate.
Qed.

Lemma _round_point_terminates (p : Point) (tol : float) :
  terminates (_round_point p tol).
Proof.
  unfold _round_point.
  apply bind_terminates; [apply round_coord_terminates|]. intros rx _.
  apply bind_terminates; [apply round_coord_terminates|]. intros ry _.
  discriminate.
Qed.

Lemma get_segment_terminates (segments : list Segment) (i : nat) :
  terminates (get_segment segments i).
Proof. unfold get_segment. destruct (nth_error segments i); discriminate. Qed.

Section Loops.
Variable segments : list Segment.
Variable endpoint_index : EndpointIndex.
Variable endpoint_tol : float.
Variable min_length : float.

Local Abbreviation grow := (grow segments endpoint_index endpoint_tol).
Local Abbreviation next_connected := (next_connected endpoint_index endpoint_tol).
Local Abbreviation merge_from := (merge_from segments endpoint_index endpoint_tol).
Local Abbreviation merge_loop := (merge_loop segments endpoint_index endpoint_tol min_length).

Lemma next_connected_terminates (unused : list nat) (current : Point) :
  terminates (next_connected unused current).
Proof.
  unfold next_connected.
  apply bind_terminates; [apply _round_point_terminates|]. discriminate.
Qed.

(** The candidate that [next_connected] returns is in the unused set. *)
Lemma next_connected_In (unused : list nat) (current : Point) (nxt : nat) :
  next_connected unused current = Ret (Some nxt) -> In nxt unused.
Proof.
  unfold next_connected. intros H. bind_inv H. inversion H as [E].
  apply find_some in E. now apply set_mem_In.
Qed.

Lemma grow_terminates (fuel : nat) :
  forall unused pts current,
    (List.length unused <= fuel)%nat -> terminates (grow fuel unused pts current).
Proof.
  induction fuel as [|fuel IH]; intros unused pts current Hlen; rewrite grow_eq;
    (apply bind_terminates; [apply next_connected_terminates|]);
    intros [nxt|] Hn; try discriminate.
  - apply next_connected_In in Hn. destruct unused; [destruct Hn | simpl in Hlen; lia].
  - cbv zeta. apply bind_terminates; [apply get_segment_terminates|].
    intros [a b] _.
    assert (List.length (set_remove nxt unused) <= fuel)%nat.
    { apply next_connected_In in Hn. apply set_remove_length_lt in Hn. lia. }
    destruct (_dist current a <=? endpoint_tol); [now apply IH|].
    destruct (_dist current b <=? endpoint_tol); [now apply IH|].
    discriminate.
Qed.

Lemma grow_unused_le (fuel : nat) :
  forall unused pts current unused' pts',
    grow fuel unused pts current = Ret (unused', pts') ->
    (List.length unused' <= List.length unused)%nat.
Proof.
  induction fuel as [|fuel IH]; intros unused pts current unused' pts' H;
    rewrite grow_eq in H; bind_inv H; destruct a as [nxt|]; try discriminate.
  - inversion H; subst. lia.
  - cbv zeta in H. bind_inv H. destruct a as [a b].
    pose proof (set_remove_length_le nxt unused).
    destruct (_dist current a <=? endpoint_tol);
      [|destruct (_dist current b <=? endpoint_tol)].
    + apply IH in H. lia.
    + apply IH in H. lia.
    + inversion H; subst. lia.
  - inversion H; subst. lia.
Qed.

Lemma merge_from_terminates (start_idx : nat) (unused : list nat) :
  terminates (merge_from start_idx unused).
Proof.
  unfold merge_from. cbv zeta.
  apply bind_terminates; [apply get_segment_terminates|]. intros [a0 b0] _.
  apply bind_terminates; [now apply grow_terminates|]. intros [unused2 chain] _.
  apply bind_terminates; [now apply grow_terminates|]. intros [unused3 prepend] _.
  discriminate.
Qed.

Lemma merge_from_unused_le (start_idx : nat) (unused unused' : list nat) (merged : Polyline) :
  merge_from start_idx unused = Ret (unused', merged) ->
  (List.length unused' <= List.length (set_remove start_idx unused))%nat.
Proof.
  unfold merge_from. cbv zeta. intros H.
  bind_inv H. destruct a as [a0 b0].
  bind_inv H. destruct a as [unused2 chain].
  bind_inv H. destruct a as [unused3 prepend].
  inversion H; subst.
  apply grow_unused_le in Hc0. apply grow_unused_le in Hc1. lia.
Qed.

Lemma merge_loop_terminates (fuel : nat) :
  forall unused polylines,
    (List.length unused <= fuel)%nat -> terminates (merge_loop fuel unused polylines).
Proof.
  induction fuel as [|fuel IH]; intros [|start_idx rest] polylines Hlen; simpl;
    try discriminate.
  - simpl in Hlen. lia.
  - apply bind_terminates; [apply merge_from_terminates|].
    intros [unused' merged] Hm. apply merge_from_unused_le in Hm.
    assert (List.length unused' <= fuel)%nat.
    { pose proof (set_remove_length_lt start_idx (start_idx :: rest) (or_introl eq_refl)).
      change (List.length (start_idx :: rest)) with (S (List.length rest)) in *. lia. }
    destruct (min_length <=? _polyline_length merged); now apply IH.
Qed.

End Loops.

Lemma build_index_terminates (segments : list Segment) (tol : float) :
  forall idx m, terminates (build_index segments tol idx m).
Proof.
  induction segments as [|[a b] rest IH]; intros idx m; simpl; [discriminate|].
  apply bind_terminates; [apply _round_point_terminates|]. intros ka _.
  apply bind_terminates; [apply _round_point_terminates|]. intros kb _.
  apply IH.
Qed.

Lemma merge_segments_terminates (segments : list Segment) (tol min_length : float) :
  terminates (merge_segments segments tol min_length).
Proof.
  unfold merge_segments. destruct segments as [|s rest]; [discriminate|].
  apply bind_terminates; [apply build_index_terminates|]. intros index _.
  apply bind_terminates; [now apply merge_loop_terminates|]. discriminate.
Qed.

Lemma item_segment_terminates (it : item) : terminates (item_segment it).
Proof.
  unfold item_segment, scalar_segment, point_segment, to_float, to_point.
  destruct (String.eqb (kind it) "l"); [|destruct (String.eqb (kind it) "c")];
    try discriminate;
    repeat match goal with
           | |- context [match ?l with [] => _ | _ :: _ => _ end] => destruct l
           | |- context [match ?v with VNum _ => _ | VPoint _ _ => _ end] => destruct v
           end; simpl; discriminate.
Qed.

Lemma collect_items_terminates (items : list item) :
  forall segments, terminates (collect_items items segments).
Proof.
  induction items as [|it rest IH]; intros segments; simpl; [discriminate|].
  apply bind_terminates; [apply item_segment_terminates|].
  intros [seg|] _; apply IH.
Qed.

Lemma collect_segments_terminates (drawings : list drawing) (rect : Rect) :
  forall segments, terminates (collect_segments drawings rect segments).
Proof.
  induction drawings as [|d rest IH]; intros segments; simpl; [discriminate|].
  destruct (d_rect d) as [drect|]; [|apply IH].
  destruct (negb (rect_truthy drect)); [apply IH|].
  destruct (negb (rect_intersects drect rect)); [apply IH|].
  apply bind_terminates; [apply collect_items_terminates|]. intros s _. apply IH.
Qed.

(** X14: every call terminates.  Each iteration of the loops of
    [extract_merged_polylines_in_rect] takes a segment out of the unused
    set, so that as many iterations as there are unused segments are
    enough: the call returns or raises. *)
Lemma extract_terminates (drawings : list drawing) (rect : Rect) (tol min_length : float) :
  terminates (extract_merged_polylines_in_rect drawings rect tol min_length).
Proof.
  unfold extract_merged_polylines_in_rect.
  apply bind_terminates; [apply collect_segments_terminates|].
  intros segments _. apply merge_segments_terminates.
Qed.

End Termination.

(* ===================================================================== *)
(** * The polylines returned                                              *)
(* ===================================================================== *)

Section Returned.
Context {ext : Externals}.

Lemma merge_segments_Forall (P : Polyline -> Prop) (segments : list Segment)
      (tol min_length : float) (result : list Polyline) :
  (forall index start_idx unused unused' merged,
      merge_from segments index tol start_idx unused = Ret (unused', merged) ->
      (min_length <=? _polyline_length merged) = true -> P merged) ->
  merge_segments segments tol min_length = Ret result ->
  Forall P result.
Proof.
  unfold merge_segments. intros HP H.
  destruct segments as [|s rest]; [inversion H; constructor|].
  bind_inv H. bind_inv H. inversion H; subst.
  apply sort_reverse_by_Forall.
  eapply merge_loop_Forall; [|constructor|eassumption].
  intros. eapply HP; eassumption.
Qed.

(** C3: every polyline that [extract_merged_polylines_in_rect] returns has
    a length of at least [min_length], and the returned list is in
    non-increasing order of length. *)
Theorem returned_lengths_filtered_and_sorted
        (drawings : list drawing) (rect : Rect) (endpoint_tol min_length : float)
        (result : list Polyline) :
  extract_merged_polylines_in_rect drawings rect endpoint_tol min_length = Ret result ->
  Forall (fun poly => (min_length <=? _polyline_length poly) = true) result
  /\ Sorted (non_increasing _polyline_length) result.
Proof.
  unfold extract_merged_polylines_in_rect. intros H. bind_inv H.
  assert (Hall : Forall (fun poly => (min_length <=? _polyline_length poly) = true) result).
  { eapply merge_segments_Forall; [|eassumption]. intros; assumption. }
  split; [exact Hall|].
  unfold merge_segments in H. destruct a as [|s rest]; [inversion H; constructor|].
  bind_inv H. bind_inv H. inversion H; subst.
  apply sort_reverse_by_Sorted.
  eapply merge_loop_Forall with (P := fun poly => is_number (_polyline_length poly));
    [|constructor|eassumption].
  intros ? ? ? ? _ Hlen. eapply leb_is_number_r; eassumption.
Qed.

(** C6, amended: every polyline that [extract_merged_polylines_in_rect]
    returns has at least 2 points, and every two neighbours [p], [q] of it
    are joined by a collected segment: they are its two endpoints in order
    (the seed), or one of them is an endpoint of it and the other lies
    within [endpoint_tol] of its other endpoint. *)
Theorem returned_neighbours_joined
        (drawings : list drawing) (rect : Rect) (endpoint_tol min_length : float)
        (segments : list Segment) (result : list Polyline) :
  collect_segments drawings rect [] = Ret segments ->
  extract_merged_polylines_in_rect drawings rect endpoint_tol min_length = Ret result ->
  Forall (fun poly =>
            (2 <= List.length poly)%nat
            /\ forall i p q,
                nth_error poly i = Some p -> nth_error poly (S i) = Some q ->
                joined segments endpoint_tol p q) result.
Proof.
  unfold extract_merged_polylines_in_rect. intros Hs H. rewrite Hs in H. simpl in H.
  eapply merge_segments_Forall; [|eassumption].
  intros index start_idx unused unused' merged Hm _.
  apply merge_from_joined in Hm. destruct Hm as [Hlen Hc].
  split; [exact Hlen|]. now apply consecutive_nth.
Qed.

End Returned.

(* ===================================================================== *)
(** * The seed's start point in a merged polyline                         *)
(* ===================================================================== *)

Lemma SFcompare_refl (x : spec_float) : x <> S754_nan -> SFcompare x x = Some Eq.
Proof.
  destruct x as [s|s| |s m e]; simpl; intros H; try congruence.
  - now destruct s.
  - destruct s; rewrite Z.compare_refl, Pos.compare_cont_refl; reflexivity.
Qed.

Lemma eqb_refl_number (x : float) : is_number x -> (x =? x) = true.
Proof.
  unfold is_number. intros H. rewrite eqb_spec. unfold SFeqb.
  now rewrite SFcompare_refl.
Qed.

Lemma div_number_l (x y : float) : is_number (x / y) -> is_number x.
Proof.
  unfold is_number. rewrite div_spec. intros H E. apply H. rewrite E. reflexivity.
Qed.

Lemma round_coord_Ret_number (c tol r : float) :
  round_coord c tol = Ret r -> is_number c.
Proof.
  unfold round_coord, py_div, py_round. intros H.
  destruct (tol =? 0); [discriminate|]. simpl in H.
  apply div_number_l with (y := tol). intros E. rewrite E in H. discriminate.
Qed.

Section SeedStart.
Context {ext : Externals}.

Lemma _round_point_Ret_eqb (p k : Point) (tol : float) :
  _round_point p tol = Ret k -> point_eqb p p = true.
Proof.
  unfold _round_point, point_eqb. intros H. bind_inv H. bind_inv H.
  apply round_coord_Ret_number in Hc, Hc0.
  now rewrite !eqb_refl_number.
Qed.

Lemma grow_Ret_eqb segments index tol fuel unused pts current r :
  grow segments index tol fuel unused pts current = Ret r ->
  point_eqb current current = true.
Proof.
  rewrite grow_eq. intros H. bind_inv H. unfold next_connected in Hc.
  bind_inv Hc. eapply _round_point_Ret_eqb; eassumption.
Qed.

Lemma count_point_app (p : Point) (l1 l2 : list Point) :
  count_point p (l1 ++ l2) = (count_point p l1 + count_point p l2)%nat.
Proof. unfold count_point. now rewrite filter_app, length_app. Qed.

Lemma count_point_rev (p : Point) (l : list Point) :
  count_point p (rev l) = count_point p l.
Proof.
  induction l as [|q l IH]; [reflexivity|].
  simpl rev. rewrite count_point_app, IH.
  unfold count_point. simpl. destruct (point_eqb p q); simpl; lia.
Qed.

(** C7, amended: the merged sequence is the reversed prepend list without
    the element that duplicates the seed's start point, followed by the
    forward chain, which begins with the seed's two endpoints; the join
    holds the seed's start once, so that the merged sequence has
    [len(prepend) + len(chain) - 1] points, and the seed's start occurs in
    it once more for every grown point and seed end that equals it. *)
Theorem merged_is_reversed_prepend_then_chain
        (segments : list Segment) (index : EndpointIndex) (endpoint_tol : float)
        (start_idx : nat) (unused unused' : list nat) (merged : Polyline) :
  merge_from segments index endpoint_tol start_idx unused = Ret (unused', merged) ->
  exists a0 b0 unused2 chain prepend fwd back,
    nth_error segments start_idx = Some (a0, b0)
    /\ (let unused1 := set_remove start_idx unused in
        grow segments index endpoint_tol (List.length unused1) unused1 [a0; b0] b0
        = Ret (unused2, chain))
    /\ grow segments index endpoint_tol (List.length unused2) unused2 [a0] a0
       = Ret (unused', prepend)
    /\ chain = a0 :: b0 :: fwd
    /\ prepend = a0 :: back
    /\ merged = rev back ++ chain
    /\ List.length merged = (List.length prepend + List.length chain - 1)%nat
    /\ count_point a0 merged
       = (1 + count_point a0 back + count_point a0 (b0 :: fwd))%nat.
Proof.
  intros H. apply merge_from_shape in H.
  destruct H as (a0 & b0 & u2 & chain & prepend & fwd & back
                 & Hs & Hf & Hb & -> & -> & -> & _ & _).
  exists a0, b0, u2, (a0 :: b0 :: fwd), (a0 :: back), fwd, back.
  repeat split; try assumption.
  - rewrite length_app, length_rev. simpl. lia.
  - apply grow_Ret_eqb in Hb.
    rewrite count_point_app, count_point_rev.
    change (a0 :: b0 :: fwd) with ([a0] ++ b0 :: fwd).
    rewrite count_point_app. unfold count_point at 2. simpl filter.
    rewrite Hb. simpl. lia.
Qed.

End SeedStart.

(* ===================================================================== *)
(** * Runs on concrete inputs                                             *)
(* ===================================================================== *)

Section ConcreteRuns.
Local Existing Instance Reference.externals.

(** Two floats with different representations are different. *)
Ltac float_neq H := apply (f_equal Prim2SF) in H; vm_compute in H; discriminate.

(** Two segments that differ in a coordinate are different. *)
Ltac segment_neq H :=
  first
    [ apply (f_equal (fun s : Segment => fst (fst s))) in H; simpl in H; float_neq H
    | apply (f_equal (fun s : Segment => snd (fst s))) in H; simpl in H; float_neq H
    | apply (f_equal (fun s : Segment => fst (snd s))) in H; simpl in H; float_neq H
    | apply (f_equal (fun s : Segment => snd (snd s))) in H; simpl in H; float_neq H ].

(** C2, as stated: the single polyline returned for the two segments
    does not have the length [10 + sqrt(100.25)], nor a length that rounds
    to 20.02. *)
Lemma merge_closure_length_counterexample :
  ~ (exists poly,
        merge_segments Example.closure_segments 1 5 = Ret [poly]
        /\ List.length poly = 3%nat
        /\ _polyline_length poly = 10 + sqrt 100.25)
  /\ ~ (exists poly,
           merge_segments Example.closure_segments 1 5 = Ret [poly]
           /\ (20.015 <=? _polyline_length poly) = true).
Proof.
  split; intros (poly & H & Hl).
  - destruct Hl as [_ Hl]. vm_compute in H. inversion H; subst poly.
    vm_compute in Hl. float_neq Hl.
  - vm_compute in H. inversion H; subst poly. vm_compute in Hl. discriminate.
Qed.

(** C2, amended: for the two segments [((0,0),(10,0))] and
    [((10,0.5),(20,0))], with [endpoint_tol = 1.0] and a [min_length] of at
    most 20, the reconstructor returns the single 3-point polyline
    [(0,0), (10,0), (20,0)], of total length exactly 20, and not two
    polylines: the endpoints [(10,0)] and [(10,0.5)] quantize to the same
    bucket and are within the tolerance of each other, and the point
    [(10,0.5)] itself is not kept. *)
Theorem merge_closure_example (min_length : float) :
  (min_length <=? 20) = true ->
  merge_segments Example.closure_segments 1 min_length = Ret [[(0, 0); (10, 0); (20, 0)]]
  /\ _polyline_length [(0, 0); (10, 0); (20, 0)] = 20
  /\ _round_point (10, 0) 1 = Ret (10, 0)
  /\ _round_point (10, 0.5) 1 = Ret (10, 0)
  /\ (_dist (10, 0) (10, 0.5) <=? 1) = true.
Proof.
  intros H. split; [|repeat split; vm_compute; reflexivity].
  vm_compute. vm_compute in H. rewrite H. reflexivity.
Qed.

(** The example with [min_length = 5]. *)
Lemma merge_closure_example_witness :
  merge_segments Example.closure_segments 1 5 = Ret [[(0, 0); (10, 0); (20, 0)]]
  /\ _polyline_length [(0, 0); (10, 0); (20, 0)] = 20
  /\ _round_point (10, 0) 1 = Ret (10, 0)
  /\ _round_point (10, 0.5) 1 = Ret (10, 0)
  /\ (_dist (10, 0) (10, 0.5) <=? 1) = true.
Proof. apply (@merge_closure_example 5). vm_compute. reflexivity. Defined.

(** C3 on the page of the merge-closure example, with [min_length = 5]. *)
Lemma returned_lengths_filtered_and_sorted_witness :
  Forall (fun poly => (5 <=? _polyline_length poly) = true) [[(0, 0); (10, 0); (20, 0)]]
  /\ Sorted (non_increasing _polyline_length) [[(0, 0); (10, 0); (20, 0)]].
Proof.
  apply (@returned_lengths_filtered_and_sorted
           Reference.externals Example.closure_drawings Example.region 1 5).
  vm_compute. reflexivity.
Defined.

(** C6, as stated: in the polyline returned for the two segments of the
    merge-closure example, the neighbours [(10,0)] and [(20,0)] are neither
    a collected segment nor the reverse of one. *)
Lemma neighbours_not_segments_counterexample :
  extract_merged_polylines_in_rect Example.closure_drawings Example.region 1 5
  = Ret [[(0, 0); (10, 0); (20, 0)]]
  /\ collect_segments Example.closure_drawings Example.region [] = Ret Example.closure_segments
  /\ ~ consecutive (segment_or_reverse Example.closure_segments) [(0, 0); (10, 0); (20, 0)].
Proof.
  split; [vm_compute; reflexivity|]. split; [vm_compute; reflexivity|].
  intros (_ & H & _). unfold segment_or_reverse, Example.closure_segments in H.
  simpl in H.
  destruct H as [[H|[H|[]]]|[H|[H|[]]]];
    segment_neq H.
Qed.

(** C6, amended, on the page of the merge-closure example. *)
Lemma returned_neighbours_joined_witness :
  Forall (fun poly =>
            (2 <= List.length poly)%nat
            /\ forall i p q,
                nth_error poly i = Some p -> nth_error poly (S i) = Some q ->
                joined Example.closure_segments 1 p q)
         [[(0, 0); (10, 0); (20, 0)]].
Proof.
  apply (@returned_neighbours_joined
           Reference.externals Example.closure_drawings Example.region 1 5);
    vm_compute; reflexivity.
Defined.

(** C7, as stated: on the triangle the chain grown from the first segment
    comes back to the seed's start point, which is in the merged sequence
    twice. *)
Lemma seed_start_twice_counterexample :
  exists index,
    build_index Example.triangle 1 0 [] = Ret index
    /\ merge_from Example.triangle index 1 0 [0; 1; 2]%nat
       = Ret ([], [(0, 0); (10, 0); (10, 10); (0, 0)])
    /\ count_point (0, 0) [(0, 0); (10, 0); (10, 10); (0, 0)] = 2%nat
    /\ merge_segments Example.triangle 1 5 = Ret [[(0, 0); (10, 0); (10, 10); (0, 0)]].
Proof.
  eexists. split; [vm_compute; reflexivity|].
  repeat split; vm_compute; reflexivity.
Qed.

(** C7, amended, for the seed [((10,0.5),(20,0))] of the merge-closure
    example, whose backward growth prepends [(0,0)]. *)
Lemma merged_is_reversed_prepend_then_chain_witness :
  exists a0 b0 unused2 chain prepend fwd back,
    nth_error Example.closure_segments 1 = Some (a0, b0)
    /\ (let unused1 := set_remove 1 [0; 1]%nat in
        grow Example.closure_segments
             [((0, 0), [0%nat]); ((10, 0), [0; 1]%nat); ((20, 0), [1%nat])] 1
             (List.length unused1) unused1 [a0; b0] b0
        = Ret (unused2, chain))
    /\ grow Example.closure_segments
            [((0, 0), [0%nat]); ((10, 0), [0; 1]%nat); ((20, 0), [1%nat])] 1
            (List.length unused2) unused2 [a0] a0
       = Ret ([], prepend)
    /\ chain = a0 :: b0 :: fwd
    /\ prepend = a0 :: back
    /\ [(0, 0); (10, 0.5); (20, 0)] = rev back ++ chain
    /\ List.length [(0, 0); (10, 0.5); (20, 0)]
       = (List.length prepend + List.length chain - 1)%nat
    /\ count_point a0 [(0, 0); (10, 0.5); (20, 0)]
       = (1 + count_point a0 back + count_point a0 (b0 :: fwd))%nat.
Proof.
  apply (@merged_is_reversed_prepend_then_chain
           Reference.externals Example.closure_segments
           [((0, 0), [0%nat]); ((10, 0), [0; 1]%nat); ((20, 0), [1%nat])] 1 1 [0; 1]%nat).
  vm_compute. reflexivity.
Defined.

(** C10: a candidate found through the index is removed from the unused
    set before its endpoints are measured against the chain end.  On the
    two segments [((10,0),(4,4))] and [((-4,-4),(-10,0))] with
    [endpoint_tol = 10] and [min_length = 5], the second segment shares the
    bucket [(0,0)] with the chain end [(4,4)], both its endpoints are
    farther than 10 from it, the growth loop consumes it without appending
    a point, and no returned polyline holds it although its own length is
    at least [min_length]. *)
Theorem consumed_candidate_is_lost :
  exists index,
    build_index Example.far_segments 10 0 [] = Ret index
    /\ _round_point (4, 4) 10 = Ret (0, 0)
    /\ _round_point (-4, -4) 10 = Ret (0, 0)
    /\ next_connected index 10 [1%nat] (4, 4) = Ret (Some 1%nat)
    /\ (_dist (4, 4) (-4, -4) <=? 10) = false
    /\ (_dist (4, 4) (-10, 0) <=? 10) = false
    /\ grow Example.far_segments index 10 1 [1%nat] [(10, 0); (4, 4)] (4, 4)
       = Ret ([], [(10, 0); (4, 4)])
    /\ (5 <=? _dist (-4, -4) (-10, 0)) = true
    /\ merge_segments Example.far_segments 10 5 = Ret [[(10, 0); (4, 4)]]
    /\ Forall (fun poly => count_point (-4, -4) poly = 0%nat
                           /\ count_point (-10, 0) poly = 0%nat)
              [[(10, 0); (4, 4)]].
Proof.
  eexists. split; [vm_compute; reflexivity|].
  repeat split; try (vm_compute; reflexivity).
  repeat constructor.
Qed.

End ConcreteRuns.

(* ===================================================================== *)
(** * Section height                                                      *)
(* ===================================================================== *)

Lemma insert_asc_length {A : Type} (key : A -> float) (x : A) (l : list A) :
  List.length (insert_asc key x l) = S (List.length l).
Proof.
  induction l as [|y l IH]; simpl; [reflexivity|].
  destruct (key y <? key x); simpl; now rewrite ?IH.
Qed.

Lemma sorted_by_length {A : Type} (key : A -> float) (l : list A) :
  List.length (sorted_by key l) = List.length l.
Proof.
  induction l as [|x l IH]; simpl; [reflexivity|].
  now rewrite insert_asc_length, IH.
Qed.

Lemma deltas_of_length (y : float) (ys : list float) :
  List.length (deltas_of (y :: ys)) = List.length ys.
Proof.
  revert y. induction ys as [|y' ys IH]; intros y; [reflexivity|].
  change (deltas_of (y :: y' :: ys)) with ((y' - y) :: deltas_of (y' :: ys)).
  cbn [List.length]. now rewrite IH.
Qed.

(* ===================================================================== *)
(** * Frame deduplication                                                 *)
(* ===================================================================== *)

Lemma binary_round_aux_sign (sx : bool) (mx ex : Z) (lx : location) :
  match binary_round_aux prec emax sx mx ex lx with
  | S754_zero s | S754_infinity s | S754_finite s _ _ => s = sx
  | S754_nan => True
  end.
Proof.
  unfold binary_round_aux.
  destruct (shr_fexp prec emax mx ex lx) as [mrs' e'].
  destruct (shr_fexp prec emax _ e' loc_Exact) as [mrs'' e''].
  destruct (shr_m mrs''); try exact I; try reflexivity.
  destruct (Z.leb e'' (emax - prec)); reflexivity.
Qed.

(** A positive multiple of a number that is not negative is not negative. *)
Lemma mul_pos_not_negative (c x : float) :
  (0 <? c) = true -> (x <? 0) = false -> (c * x <? 0) = false.
Proof.
  rewrite !ltb_spec, mul_spec. change (Prim2SF 0) with (S754_zero false).
  unfold SFltb, SF64mul.
  destruct (Prim2SF c) as [sc|sc| |sc mc ec], (Prim2SF x) as [sx|sx| |sx mx ex];
    simpl; try discriminate; try reflexivity;
    try (destruct sc; simpl; try discriminate;
         destruct sx; simpl; try discriminate; reflexivity).
  destruct sc; simpl; try discriminate.
  destruct sx; simpl; try discriminate. intros _ _.
  pose proof (binary_round_aux_sign false (Zpos (mc * mx)) (ec + ex) loc_Exact) as H.
  destruct (binary_round_aux prec emax false (Zpos (mc * mx)) (ec + ex) loc_Exact);
    try reflexivity; subst; reflexivity.
Qed.

Lemma py_min_cases (a b : float) : py_min a b = a \/ py_min a b = b.
Proof. unfold py_min. destruct (b <? a); auto. Qed.

(** Nothing is below a zero that is not below [0]. *)
Lemma ltb_zero_r (t z : float) :
  (z =? 0) = true -> (t <? 0) = false -> (t <? z) = false.
Proof.
  rewrite eqb_spec, !ltb_spec. change (Prim2SF 0) with (S754_zero false).
  unfold SFeqb, SFltb.
  destruct (Prim2SF z) as [sz|sz| |sz mz ez]; simpl; try discriminate.
  - intros _. now destruct (Prim2SF t).
  - now destruct sz.
  - now destruct sz.
Qed.

Section Dedup.
Context {ext : Externals}.

Lemma dedup_frames_snoc (frames : list Rect) (fr : Rect) :
  dedup_frames (frames ++ [fr]) = dedup_step (dedup_frames frames) fr.
Proof. unfold dedup_frames. now rewrite fold_left_app. Qed.

(** One step of the walk from a list that ends with [prev], in a library
    in which areas are not negative and a false rectangle has area zero. *)
Lemma dedup_step_threshold (kept : list Rect) (prev fr : Rect) :
  (rect_truthy (rect_and prev fr) = false -> (get_area (rect_and prev fr) =? 0) = true) ->
  (get_area prev <? 0) = false ->
  (get_area fr <? 0) = false ->
  dedup_step (kept ++ [prev]) fr
  = if 0.4 * py_min (get_area prev) (get_area fr) <? get_area (rect_and prev fr)
    then kept ++ [rect_or prev fr]
    else kept ++ [prev; fr].
Proof.
  intros Hfalse Hprev Hfr. unfold dedup_step.
  destruct (kept ++ [prev]) as [|r l] eqn:E; [now destruct kept|]. rewrite <- E.
  rewrite last_last, removelast_last.
  destruct (rect_truthy (rect_and prev fr)) eqn:Et; simpl.
  - match goal with
    | |- (if ?c then _ else _) = _ => destruct c
    end; [reflexivity|]. now rewrite <- app_assoc.
  - rewrite ltb_zero_r.
    + now rewrite <- app_assoc.
    + now apply Hfalse.
    + apply mul_pos_not_negative; [reflexivity|].
      destruct (py_min_cases (get_area prev) (get_area fr)) as [-> | ->]; assumption.
Qed.

End Dedup.

(* ===================================================================== *)
(** * No detection                                                        *)
(* ===================================================================== *)

Lemma unrecognized_skipped (it : item) :
  unrecognized it = true -> item_segment it = Ret None.
Proof.
  unfold unrecognized, item_segment.
  destruct (String.eqb (kind it) "l"); [|destruct (String.eqb (kind it) "c")];
    [| |reflexivity];
    destruct (fields it) as [|v1 [|v2 [|v3 [|v4 [|v5 [|v6 [|v7 [|v8 [|v9 l]]]]]]]]];
    simpl; intros H; try discriminate; reflexivity.
Qed.

Lemma collect_items_skipped (items : list item) (segments : list Segment) :
  Forall (fun it => unrecognized it = true) items ->
  collect_items items segments = Ret segments.
Proof.
  induction 1 as [|it rest Hit _ IH]; simpl; [reflexivity|].
  now rewrite (unrecognized_skipped it Hit).
Qed.

Section NoDetection.
Context {ext : Externals}.

Lemma collect_segments_nothing (drawings : list drawing) (rect : Rect)
      (segments : list Segment) :
  Forall contributes_nothing drawings ->
  collect_segments drawings rect segments = Ret segments.
Proof.
  induction 1 as [|d rest Hd _ IH]; simpl; [reflexivity|].
  destruct Hd as [-> | Hd]; [exact IH|].
  destruct (d_rect d) as [drect|]; [|exact IH].
  destruct (negb (rect_truthy drect)); [exact IH|].
  destruct (negb (rect_intersects drect rect)); [exact IH|].
  now rewrite (collect_items_skipped _ Hd).
Qed.

(** C8: no detection is an empty result and not an exception.  With no
    station hit [detect_section_frames] returns the empty list, and with no
    collected segment [extract_merged_polylines_in_rect] returns the empty
    list; no segment is collected, and nothing is raised, when every
    drawing lacks a rect or has only items that are skipped for their
    field count or kind. *)
Theorem no_detection_is_empty
        (pg : page) (drawings : list drawing) (rect : Rect)
        (endpoint_tol min_length : float) :
  find_station_text (page_words pg) = [] ->
  collect_segments drawings rect [] = Ret [] ->
  detect_section_frames pg = []
  /\ extract_merged_polylines_in_rect drawings rect endpoint_tol min_length = Ret []
  /\ (forall others,
         Forall contributes_nothing others ->
         collect_segments others rect [] = Ret []
         /\ extract_merged_polylines_in_rect others rect endpoint_tol min_length = Ret []).
Proof.
  intros Hhits Hsegs. split; [|split].
  - unfold detect_section_frames. now rewrite Hhits.
  - unfold extract_merged_polylines_in_rect. now rewrite Hsegs.
  - intros others Hall.
    pose proof (collect_segments_nothing rect [] Hall) as Hc.
    split; [exact Hc|].
    unfold extract_merged_polylines_in_rect. now rewrite Hc.
Qed.

End NoDetection.

(** C8 on a page without station label and drawings without usable item. *)
Lemma no_detection_is_empty_witness :
  @detect_section_frames Reference.externals Example.blank_page = []
  /\ @extract_merged_polylines_in_rect
       Reference.externals Example.unusable_drawings Example.region 2 80 = Ret []
  /\ (forall others,
         Forall contributes_nothing others ->
         @collect_segments Reference.externals others Example.region [] = Ret []
         /\ @extract_merged_polylines_in_rect
              Reference.externals others Example.region 2 80 = Ret []).
Proof.
  apply (@no_detection_is_empty
           Reference.externals Example.blank_page Example.unusable_drawings Example.region 2 80);
    reflexivity.
Defined.

(* ===================================================================== *)
(** * Determinism                                                         *)
(* ===================================================================== *)

Lemma list_eq_dec_nil {A : Type} (l : list A) : {l = []} + {l <> []}.
Proof. destruct l; [now left | right; discriminate]. Qed.

(** ** The table of [set(range(n))] *)

Lemma active_keys_app (t1 t2 : PySet.table) :
  PySet.active_keys (t1 ++ t2) = PySet.active_keys t1 ++ PySet.active_keys t2.
Proof.
  induction t1 as [|[| |k] t1 IH]; simpl; [reflexivity| | |]; now rewrite ?IH.
Qed.

Lemma active_keys_map_Active (l : list nat) :
  PySet.active_keys (map PySet.Active l) = l.
Proof. induction l as [|k l IH]; simpl; [reflexivity | now rewrite IH]. Qed.

Lemma active_keys_repeat_Unused (n : nat) :
  PySet.active_keys (repeat PySet.Unused n) = [].
Proof. induction n as [|n IH]; simpl; [reflexivity | exact IH]. Qed.

Lemma active_keys_ordered (n size : nat) :
  PySet.active_keys (PySet.ordered n size) = seq 0 n.
Proof.
  unfold PySet.ordered.
  now rewrite active_keys_app, active_keys_map_Active, active_keys_repeat_Unused, app_nil_r.
Qed.

Lemma used_ordered (n size : nat) : PySet.used (PySet.ordered n size) = n.
Proof. unfold PySet.used. now rewrite active_keys_ordered, length_seq. Qed.

Lemma fill_ordered (n size : nat) : PySet.fill (PySet.ordered n size) = n.
Proof.
  unfold PySet.fill, PySet.ordered. rewrite filter_app, length_app.
  assert (H1 : forall l,
             filter (fun s => match s with PySet.Unused => false | _ => true end)
                    (map PySet.Active l) = map PySet.Active l).
  { induction l as [|k l IH]; simpl; [reflexivity | now rewrite IH]. }
  assert (H2 : forall m,
             filter (fun s => match s with PySet.Unused => false | _ => true end)
                    (repeat PySet.Unused m) = []).
  { induction m as [|m IH]; simpl; [reflexivity | exact IH]. }
  rewrite H1, H2, length_map, length_seq. simpl. lia.
Qed.

Lemma length_ordered (n size : nat) :
  (n <= size)%nat -> List.length (PySet.ordered n size) = size.
Proof.
  intros H. unfold PySet.ordered.
  rewrite length_app, length_map, length_seq, repeat_length. lia.
Qed.

Lemma In_Active_ordered (k n size : nat) :
  In (PySet.Active k) (PySet.ordered n size) -> (k < n)%nat.
Proof.
  unfold PySet.ordered. intros H. apply in_app_or in H. destruct H as [H | H].
  - apply in_map_iff in H. destruct H as (j & E & Hj). inversion E; subst.
    apply in_seq in Hj. lia.
  - apply repeat_spec in H. discriminate.
Qed.

Lemma nth_error_ordered_free (n size j : nat) :
  (n <= j < size)%nat -> nth_error (PySet.ordered n size) j = Some PySet.Unused.
Proof.
  intros H. unfold PySet.ordered.
  rewrite nth_error_app2; rewrite length_map, length_seq; [|lia].
  apply nth_error_repeat. lia.
Qed.

Lemma store_at_length (l1 l2 : PySet.table) (x s : PySet.slot) (j : nat) :
  j = List.length l1 -> PySet.store (l1 ++ x :: l2) j s = l1 ++ s :: l2.
Proof.
  intros ->. unfold PySet.store.
  rewrite firstn_app, firstn_all, Nat.sub_diag, firstn_O, app_nil_r.
  rewrite skipn_app, skipn_all2 by lia.
  replace (S (List.length l1) - List.length l1)%nat with 1%nat by lia.
  reflexivity.
Qed.

Lemma store_ordered (n size : nat) :
  (n < size)%nat ->
  PySet.store (PySet.ordered n size) n (PySet.Active n) = PySet.ordered (S n) size.
Proof.
  intros H. unfold PySet.ordered.
  replace (size - n)%nat with (S (size - S n)) by lia. simpl repeat.
  rewrite store_at_length by now rewrite length_map, length_seq.
  rewrite seq_S, map_app, <- app_assoc. reflexivity.
Qed.

Lemma first_probe_ordered (n size : nat) :
  (n < size)%nat -> PySet.first_probe (PySet.ordered n size) n = n.
Proof.
  intros H. unfold PySet.first_probe, PySet.hash.
  rewrite length_ordered by lia. now apply Nat.mod_small.
Qed.

(** In a table whose keys are in order and that is not full, the next key
    goes to the next slot: its first probe meets no collision. *)
Lemma adds_ordered (n size : nat) (t : PySet.table) :
  (n < size)%nat ->
  PySet.adds (PySet.ordered n size) n t -> t = PySet.ordered (S n) size.
Proof.
  intros H Ha. inversion Ha as [Hin | Hnot Hfree | j s Hnot Htaken Hj Hs]; subst.
  - apply In_Active_ordered in Hin. lia.
  - rewrite first_probe_ordered by assumption. now apply store_ordered.
  - exfalso. apply Htaken. rewrite first_probe_ordered by assumption.
    apply nth_error_ordered_free. lia.
Qed.

Lemma adds_ordered_intro (n size : nat) :
  (n < size)%nat ->
  PySet.adds (PySet.ordered n size) n (PySet.ordered (S n) size).
Proof.
  intros H. rewrite <- (store_ordered H).
  pose proof (@PySet.adds_first_probe (PySet.ordered n size) n) as Ha.
  rewrite (first_probe_ordered H) in Ha. apply Ha.
  - intros Hin. apply In_Active_ordered in Hin. lia.
  - apply nth_error_ordered_free. lia.
Qed.

Lemma fills_ordered (b : nat) :
  forall a size t,
    (a + b <= size)%nat ->
    PySet.fills (PySet.ordered a size) (seq a b) t -> t = PySet.ordered (a + b) size.
Proof.
  induction b as [|b IH]; intros a size t Hle Hf; simpl in Hf.
  - inversion Hf; subst. now rewrite Nat.add_0_r.
  - inversion Hf as [|? ? t1 ? ? Ha Hf']; subst.
    apply adds_ordered in Ha; [|lia]. subst t1.
    apply IH in Hf'; [|lia]. subst t. f_equal. lia.
Qed.

Lemma fills_ordered_intro (b : nat) :
  forall a size,
    (a + b <= size)%nat ->
    PySet.fills (PySet.ordered a size) (seq a b) (PySet.ordered (a + b) size).
Proof.
  induction b as [|b IH]; intros a size Hle; simpl.
  - rewrite Nat.add_0_r. constructor.
  - apply PySet.fills_cons with (t1 := PySet.ordered (S a) size).
    + apply adds_ordered_intro. lia.
    + replace (a + S b)%nat with (S a + b)%nat by lia. apply IH. lia.
Qed.

Lemma repeat_Unused_ordered (size : nat) :
  repeat PySet.Unused size = PySet.ordered 0 size.
Proof. unfold PySet.ordered. simpl. now rewrite Nat.sub_0_r. Qed.

(** Every table that [set(range(n))] can build holds the keys in order,
    whatever sizes its rebuilds chose, and is not full. *)
Lemma of_range_ordered (n : nat) (t : PySet.table) :
  PySet.of_range n t ->
  exists size, t = PySet.ordered n size /\ (n * 5 < (size - 1) * 3)%nat.
Proof.
  induction 1 as [|n t t1 t2 _ IH Ha Hs].
  - exists 8%nat. split; [reflexivity | simpl; lia].
  - destruct IH as (size & -> & Hb).
    apply adds_ordered in Ha; [|lia]. subst t1.
    inversion Hs as [Hkeep | t' Hfull (e & _ & Hu & Hf)]; subst.
    + exists size. split; [reflexivity|].
      rewrite fill_ordered in Hkeep. unfold PySet.mask in Hkeep.
      rewrite length_ordered in Hkeep by lia. exact Hkeep.
    + rewrite used_ordered in Hu. rewrite active_keys_ordered in Hf.
      rewrite repeat_Unused_ordered in Hf.
      apply fills_ordered in Hf; [|simpl; lia]. simpl in Hf.
      exists (2 ^ e)%nat. split; [exact Hf | lia].
Qed.

(** Iterating [set(range(n))] gives the keys in ascending order. *)
Lemma of_range_keys (n : nat) (t : PySet.table) :
  PySet.of_range n t -> PySet.active_keys t = seq 0 n.
Proof.
  intros H. apply of_range_ordered in H. destruct H as (size & -> & _).
  apply active_keys_ordered.
Qed.

Lemma of_range_exists (n : nat) : exists t, PySet.of_range n t.
Proof.
  induction n as [|n [t Ht]]; [exists (repeat PySet.Unused 8); constructor|].
  destruct (of_range_ordered Ht) as (size & E & Hb). subst t.
  assert (Hlt : (n < size)%nat) by lia.
  pose proof (adds_ordered_intro Hlt) as Ha.
  destruct (lt_dec (PySet.fill (PySet.ordered (S n) size) * 5)
                   (PySet.mask (PySet.ordered (S n) size) * 3)) as [Hkeep | Hfull].
  - exists (PySet.ordered (S n) size).
    eapply PySet.of_range_S; [exact Ht | exact Ha | now apply PySet.settles_keep].
  - assert (Hp : (n < 2 ^ n)%nat) by (apply Nat.pow_gt_lin_r; lia).
    assert (E : (2 ^ (n + 4) = 2 ^ n * 16)%nat) by (rewrite Nat.pow_add_r; reflexivity).
    exists (PySet.ordered (S n) (2 ^ (n + 4))).
    eapply PySet.of_range_S; [exact Ht | exact Ha |].
    apply PySet.settles_resize; [exact Hfull|].
    exists (n + 4)%nat. rewrite used_ordered, active_keys_ordered, repeat_Unused_ordered.
    split; [lia|]. split; [lia|].
    apply (@fills_ordered_intro (S n) 0%nat). simpl. lia.
Qed.

(** Removing a key leaves the other keys in place. *)
Lemma active_keys_discard (k : nat) (t : PySet.table) :
  PySet.active_keys (PySet.discard k t) = set_remove k (PySet.active_keys t).
Proof.
  unfold set_remove. induction t as [|[| |k'] t IH]; simpl; try assumption; [reflexivity|].
  destruct (Nat.eqb k k'); simpl; now rewrite IH.
Qed.

Lemma first_key_hd (t : PySet.table) :
  PySet.first_key t = hd_error (PySet.active_keys t).
Proof. induction t as [|[| |k] t IH]; simpl; try assumption; reflexivity. Qed.

Lemma first_key_None (t : PySet.table) :
  PySet.first_key t = None -> PySet.active_keys t = [].
Proof. rewrite first_key_hd. now destruct (PySet.active_keys t). Qed.

Lemma first_key_Some (t : PySet.table) (k : nat) :
  PySet.first_key t = Some k -> exists rest, PySet.active_keys t = k :: rest.
Proof.
  rewrite first_key_hd. destruct (PySet.active_keys t) as [|k' rest]; simpl;
    intros H; inversion H; subst. now exists rest.
Qed.

Section Determinism.
Context {ext : Externals}.

Section LoopRuns.
Variable segments : list Segment.
Variable endpoint_index : EndpointIndex.
Variable endpoint_tol : float.
Variable min_length : float.

Local Abbreviation grows := (grows segments endpoint_index endpoint_tol).
Local Abbreviation merges_from := (merges_from segments endpoint_index endpoint_tol).
Local Abbreviation merges := (merges segments endpoint_index endpoint_tol min_length).
Local Abbreviation grow := (grow segments endpoint_index endpoint_tol).
Local Abbreviation merge_loop := (merge_loop segments endpoint_index endpoint_tol min_length).
Local Abbreviation next_connected := (next_connected endpoint_index endpoint_tol).

Lemma discard_fuel (nxt fuel : nat) (unused : PySet.table) (current : Point) :
  next_connected (PySet.active_keys unused) current = Ret (Some nxt) ->
  (List.length (PySet.active_keys unused) <= S fuel)%nat ->
  (List.length (PySet.active_keys (PySet.discard nxt unused)) <= fuel)%nat.
Proof.
  intros Hn Hlen. rewrite active_keys_discard.
  apply next_connected_In in Hn. apply set_remove_length_lt in Hn. lia.
Qed.

Lemma candidate_fuel (nxt fuel : nat) (unused : PySet.table) (current : Point) :
  next_connected (PySet.active_keys unused) current = Ret (Some nxt) ->
  (List.length (PySet.active_keys unused) <= fuel)%nat ->
  exists fuel', fuel = S fuel'.
Proof.
  intros Hn Hlen. apply next_connected_In in Hn.
  destruct fuel as [|fuel']; [|now exists fuel'].
  destruct (PySet.active_keys unused); [destruct Hn | simpl in Hlen; lia].
Qed.

(** A run of a growth loop ends as the executable loop does on the keys
    of the table. *)
Lemma grows_grow unused pts current o :
  grows unused pts current o ->
  forall fuel,
    (List.length (PySet.active_keys unused) <= fuel)%nat ->
    grow fuel (PySet.active_keys unused) pts current = keys_of o.
Proof.
  induction 1 as [unused pts current e En
                 |unused pts current En
                 |unused pts current nxt e En Es
                 |unused pts current nxt a b o En Es Ea _ IH
                 |unused pts current nxt a b o En Es Ea Eb _ IH
                 |unused pts current nxt a b En Es Ea Eb];
    intros fuel Hlen; rewrite grow_eq, En; simpl; try reflexivity;
    destruct (candidate_fuel _ _ En Hlen) as [fuel' ->];
    cbv zeta; rewrite Es; simpl; rewrite ?Ea, ?Eb; try reflexivity.
  - rewrite <- active_keys_discard. apply IH. eapply discard_fuel; eassumption.
  - rewrite <- active_keys_discard. apply IH. eapply discard_fuel; eassumption.
  - now rewrite active_keys_discard.
Qed.

Lemma merges_from_merge_from start_idx unused o :
  merges_from start_idx unused o ->
  merge_from segments endpoint_index endpoint_tol start_idx (PySet.active_keys unused)
  = keys_of o.
Proof.
  intros H. unfold merge_from. cbv zeta.
  inversion H as [e Es | a0 b0 e Es Hf | a0 b0 u2 chain e Es Hf Hb
                  | a0 b0 u2 chain u3 prepend Es Hf Hb]; subst;
    rewrite Es; simpl; try reflexivity;
    apply grows_grow with (fuel := List.length (PySet.active_keys (PySet.discard start_idx unused)))
      in Hf; try apply le_n;
    rewrite active_keys_discard in Hf; rewrite Hf; simpl; try reflexivity;
    apply grows_grow with (fuel := List.length (PySet.active_keys u2)) in Hb; try apply le_n;
    rewrite Hb; reflexivity.
Qed.

Lemma merges_merge_loop unused polylines o :
  merges unused polylines o ->
  forall fuel,
    (List.length (PySet.active_keys unused) <= fuel)%nat ->
    merge_loop fuel (PySet.active_keys unused) polylines = o.
Proof.
  induction 1 as [unused polylines Ek
                 |unused start_idx polylines e Ek Hm
                 |unused start_idx polylines unused' merged o Ek Hm El _ IH
                 |unused start_idx polylines unused' merged o Ek Hm El _ IH];
    intros fuel Hlen.
  - rewrite (first_key_None _ Ek). now destruct fuel.
  - apply merges_from_merge_from in Hm.
    destruct (first_key_Some _ Ek) as [rest Er]. rewrite Er in *.
    destruct fuel as [|fuel]; [simpl in Hlen; lia|]. simpl. now rewrite Hm.
  - apply merges_from_merge_from in Hm.
    destruct (first_key_Some _ Ek) as [rest Er]. rewrite Er in *.
    destruct fuel as [|fuel]; [simpl in Hlen; lia|]. simpl. rewrite Hm. simpl. rewrite El.
    apply IH. simpl in Hm. apply merge_from_unused_le in Hm.
    pose proof (set_remove_length_lt start_idx (start_idx :: rest) (or_introl eq_refl)).
    simpl in Hlen. change (List.length (start_idx :: rest)) with (S (List.length rest)) in *. lia.
  - apply merges_from_merge_from in Hm.
    destruct (first_key_Some _ Ek) as [rest Er]. rewrite Er in *.
    destruct fuel as [|fuel]; [simpl in Hlen; lia|]. simpl. rewrite Hm. simpl. rewrite El.
    apply IH. simpl in Hm. apply merge_from_unused_le in Hm.
    pose proof (set_remove_length_lt start_idx (start_idx :: rest) (or_introl eq_refl)).
    simpl in Hlen. change (List.length (start_idx :: rest)) with (S (List.length rest)) in *. lia.
Qed.

(** The executable loops compute runs. *)
Lemma grow_grows (fuel : nat) :
  forall unused pts current,
    (List.length (PySet.active_keys unused) <= fuel)%nat ->
    exists o,
      grows unused pts current o
      /\ keys_of o = grow fuel (PySet.active_keys unused) pts current.
Proof.
  induction fuel as [|fuel IH]; intros unused pts current Hlen; rewrite grow_eq;
    destruct (next_connected (PySet.active_keys unused) current)
      as [[nxt|]|e|] eqn:En; simpl;
    try (exists (Ret (unused, pts)); split; [now constructor | reflexivity]);
    try (exists (Raise e); split; [now constructor | reflexivity]);
    try (exfalso;
         now apply (next_connected_terminates endpoint_index endpoint_tol
                      (PySet.active_keys unused) current)).
  - destruct (candidate_fuel _ _ En Hlen) as [fuel' E]. discriminate.
  - pose proof (discard_fuel _ _ En Hlen) as Hlen'.
    destruct (get_segment segments nxt) as [[a b]|e|] eqn:Es; simpl.
    + destruct (_dist current a <=? endpoint_tol) eqn:Ea;
        [|destruct (_dist current b <=? endpoint_tol) eqn:Eb].
      * destruct (IH (PySet.discard nxt unused) (pts ++ [b]) b Hlen') as (o & Hg & Ho).
        exists o. split; [eapply grows_via_a; eauto|].
        now rewrite Ho, active_keys_discard.
      * destruct (IH (PySet.discard nxt unused) (pts ++ [a]) a Hlen') as (o & Hg & Ho).
        exists o. split; [eapply grows_via_b; eauto|].
        now rewrite Ho, active_keys_discard.
      * exists (Ret (PySet.discard nxt unused, pts)).
        split; [eapply grows_candidate_dropped; eauto|].
        simpl. now rewrite active_keys_discard.
    + exists (Raise e). split; [eapply grows_segment_raises; eauto | reflexivity].
    + exfalso. now apply (get_segment_terminates segments nxt).
Qed.

Lemma merge_from_merges_from (start_idx : nat) (unused : PySet.table) :
  exists o,
    merges_from start_idx unused o
    /\ keys_of o
       = merge_from segments endpoint_index endpoint_tol start_idx (PySet.active_keys unused).
Proof.
  unfold merge_from. cbv zeta.
  destruct (get_segment segments start_idx) as [[a0 b0]|e|] eqn:Es; simpl.
  - destruct (@grow_grows (List.length (PySet.active_keys (PySet.discard start_idx unused)))
                (PySet.discard start_idx unused) [a0; b0] b0 (le_n _)) as (o1 & Hf & Ef).
    rewrite active_keys_discard in Ef. rewrite <- Ef.
    destruct o1 as [[unused2 chain]|e|]; simpl.
    + destruct (@grow_grows (List.length (PySet.active_keys unused2))
                  unused2 [a0] a0 (le_n _)) as (ob & Hb & Eb).
      rewrite <- Eb.
      destruct ob as [[unused3 prepend]|e|]; simpl.
      * exists (Ret (unused3, removelast (rev prepend) ++ chain)).
        split; [eapply merges_from_merged; eauto | reflexivity].
      * exists (Raise e).
        split; [eapply merges_from_backward_raises; eauto | reflexivity].
      * exfalso. simpl in Eb. symmetry in Eb. revert Eb.
        now apply (@grow_terminates _ segments endpoint_index endpoint_tol).
    + exists (Raise e). split; [eapply merges_from_forward_raises; eauto | reflexivity].
    + exfalso. simpl in Ef. symmetry in Ef. revert Ef.
      apply (@grow_terminates _ segments endpoint_index endpoint_tol). apply le_n.
  - exists (Raise e). split; [now constructor | reflexivity].
  - exfalso. now apply (get_segment_terminates segments start_idx).
Qed.

Lemma merge_loop_merges (fuel : nat) :
  forall unused polylines,
    (List.length (PySet.active_keys unused) <= fuel)%nat ->
    merges unused polylines (merge_loop fuel (PySet.active_keys unused) polylines).
Proof.
  induction fuel as [|fuel IH]; intros unused polylines Hlen;
    pose proof (first_key_hd unused) as Ek;
    destruct (PySet.active_keys unused) as [|start_idx rest] eqn:Er; simpl in *;
    try (now constructor); [lia|].
  destruct (merge_from_merges_from start_idx unused) as (o & Hm & Eo).
  rewrite Er in Eo. rewrite <- Eo.
  destruct o as [[unused' merged]|e|]; simpl.
  - assert (List.length (PySet.active_keys unused') <= fuel)%nat.
    { simpl in Eo. symmetry in Eo. apply merge_from_unused_le in Eo.
      pose proof (set_remove_length_lt start_idx (start_idx :: rest) (or_introl eq_refl)).
      change (List.length (start_idx :: rest)) with (S (List.length rest)) in *. lia. }
    destruct (min_length <=? _polyline_length merged) eqn:El.
    + eapply merges_kept; eauto.
    + eapply merges_discarded; eauto.
  - eapply merges_raises; eauto.
  - exfalso. simpl in Eo. symmetry in Eo. revert Eo.
    apply (@merge_from_terminates _ segments endpoint_index endpoint_tol).
Qed.

End LoopRuns.

Lemma merge_segments_nonempty (segments : list Segment) (endpoint_tol min_length : float) :
  segments <> [] ->
  merge_segments segments endpoint_tol min_length
  = bind (build_index segments endpoint_tol 0 []) (fun index =>
      bind (merge_loop segments index endpoint_tol min_length
                       (List.length (seq 0 (List.length segments)))
                       (seq 0 (List.length segments)) [])
           (fun polylines => Ret (sort_reverse_by _polyline_length polylines))).
Proof. destruct segments; [congruence | reflexivity]. Qed.

(** The call is a run: every input has one. *)
Lemma extraction_runs_call (drawings : list drawing) (rect : Rect)
      (endpoint_tol min_length : float) :
  extraction_runs drawings rect endpoint_tol min_length
                  (collect_segments drawings rect [])
                  (extract_merged_polylines_in_rect drawings rect endpoint_tol min_length).
Proof.
  unfold extract_merged_polylines_in_rect.
  destruct (collect_segments drawings rect []) as [segments|e|] eqn:Ec; simpl.
  - destruct (list_eq_dec_nil segments) as [-> | Hne]; [now apply run_no_segment|].
    rewrite (merge_segments_nonempty endpoint_tol min_length Hne).
    destruct (build_index segments endpoint_tol 0 []) as [index|e|] eqn:Ei; simpl.
    + destruct (of_range_exists (List.length segments)) as [unused Hu].
      pose proof (@merge_loop_merges segments index endpoint_tol min_length
                    (List.length (PySet.active_keys unused)) unused [] (le_n _)) as Hm.
      rewrite (of_range_keys Hu) in Hm.
      destruct (merge_loop _ _ _ _ _ _ _) as [polylines|e|] eqn:El; simpl.
      * eapply run_returns; eauto.
      * eapply run_merge_raises; eauto.
      * exfalso. revert El.
        now apply (@merge_loop_terminates _ segments index endpoint_tol min_length).
    + eapply run_index_raises; eauto.
    + exfalso. now apply (build_index_terminates segments endpoint_tol 0 []).
  - now apply run_collection_raises.
  - exfalso. now apply (collect_segments_terminates drawings rect []).
Qed.

(** Every run ends as the call does. *)
Lemma extraction_runs_inv (drawings : list drawing) (rect : Rect)
      (endpoint_tol min_length : float)
      (segs : outcome (list Segment)) (out : outcome (list Polyline)) :
  extraction_runs drawings rect endpoint_tol min_length segs out ->
  segs = collect_segments drawings rect []
  /\ out = extract_merged_polylines_in_rect drawings rect endpoint_tol min_length.
Proof.
  unfold extract_merged_polylines_in_rect.
  intros H.
  inversion H as [e Ec | Ec | segments e Ec Hne Ei
                  | segments index unused e Ec Hne Ei Hu Hm
                  | segments index unused polylines Ec Hne Ei Hu Hm]; subst;
    rewrite Ec; simpl; (split; [reflexivity|]); try reflexivity;
    rewrite (merge_segments_nonempty endpoint_tol min_length Hne), Ei; simpl;
    try reflexivity;
    apply merges_merge_loop with (fuel := List.length (PySet.active_keys unused)) in Hm;
    try apply le_n;
    rewrite (of_range_keys Hu) in Hm; rewrite Hm; reflexivity.
Qed.


End Determinism.


(* ===================================================================== *)
(** * Exceptions of the reconstructor                                     *)
(* ===================================================================== *)

Lemma bind_Raise_inv {A B : Type} (c : outcome A) (k : A -> outcome B) (e : exn) :
  bind c k = Raise e -> c = Raise e \/ exists a, c = Ret a /\ k a = Raise e.
Proof.
  destruct c as [a|e'|]; simpl; intros H; try discriminate.
  - right. now exists a.
  - left. now inversion H.
Qed.

Lemma returns_bind {A B : Type} (c : outcome A) (k : A -> outcome B) :
  returns c -> (forall a, c = Ret a -> returns (k a)) -> returns (bind c k).
Proof. intros [a ->] Hk. simpl. now apply Hk. Qed.

Lemma round_coord_Raise (c tol : float) (e : exn) :
  round_coord c tol = Raise e -> rounding_error e.
Proof.
  unfold round_coord, py_div, py_round, int_to_float, rounding_error.
  destruct (tol =? 0); simpl; [intros H; inversion H; auto|].
  destruct (Prim2SF (c / tol)); simpl;
    try (intros H; inversion H; now auto);
    match goal with
    | |- context [is_infinity ?f] => destruct (is_infinity f)
    end; simpl; intros H; inversion H; auto.
Qed.

Lemma index_get_in_range (n : nat) (m : EndpointIndex) (k : Point) :
  index_in_range n m -> Forall (fun i => (i < n)%nat) (index_get m k).
Proof.
  induction 1 as [|[k' l] m Hl Hm IH]; simpl; [constructor|].
  destruct (point_eqb k' k); assumption.
Qed.

Lemma index_append_in_range (n : nat) (m : EndpointIndex) (k : Point) (i : nat) :
  (i < n)%nat -> index_in_range n m -> index_in_range n (index_append m k i).
Proof.
  intros Hi. induction 1 as [|[k' l] m Hl Hm IH]; simpl.
  - repeat constructor. exact Hi.
  - destruct (point_eqb k' k); constructor; try assumption.
    simpl in *. apply Forall_app. split; [assumption|]. now repeat constructor.
Qed.

Lemma set_remove_Forall (P : nat -> Prop) (x : nat) (s : list nat) :
  Forall P s -> Forall P (set_remove x s).
Proof.
  unfold set_remove. rewrite !Forall_forall. intros H y Hy.
  apply filter_In in Hy. now apply H.
Qed.

Section Exceptions.
Context {ext : Externals}.

Lemma _round_point_Raise (p : Point) (tol : float) (e : exn) :
  _round_point p tol = Raise e -> rounding_error e.
Proof.
  unfold _round_point. intros H.
  apply bind_Raise_inv in H. destruct H as [H | (rx & _ & H)].
  - eapply round_coord_Raise; eassumption.
  - apply bind_Raise_inv in H. destruct H as [H | (ry & _ & H)]; [|discriminate].
    eapply round_coord_Raise; eassumption.
Qed.

Lemma build_index_Raise (segments : list Segment) (tol : float) (e : exn) :
  forall idx m, build_index segments tol idx m = Raise e -> rounding_error e.
Proof.
  induction segments as [|[a b] rest IH]; intros idx m H; simpl in H; [discriminate|].
  apply bind_Raise_inv in H. destruct H as [H | (ka & _ & H)].
  - eapply _round_point_Raise; eassumption.
  - apply bind_Raise_inv in H. destruct H as [H | (kb & _ & H)].
    + eapply _round_point_Raise; eassumption.
    + eapply IH; eassumption.
Qed.

(** Building the index rounds every endpoint. *)
Lemma build_index_rounds (segments : list Segment) (tol : float) :
  forall idx m index,
    build_index segments tol idx m = Ret index ->
    forall a b, In (a, b) segments ->
                returns (_round_point a tol) /\ returns (_round_point b tol).
Proof.
  induction segments as [|[a0 b0] rest IH]; intros idx m index H a b Hin;
    [destruct Hin|].
  simpl in H. bind_inv H. bind_inv H.
  destruct Hin as [E | Hin].
  - inversion E; subst. split; eexists; eassumption.
  - eapply IH; eassumption.
Qed.

Lemma build_index_in_range (n : nat) (segments : list Segment) (tol : float) :
  forall idx m index,
    (idx + List.length segments <= n)%nat ->
    index_in_range n m ->
    build_index segments tol idx m = Ret index ->
    index_in_range n index.
Proof.
  induction segments as [|[a b] rest IH]; intros idx m index Hn Hm H; simpl in H.
  - now inversion H; subst.
  - simpl in Hn. bind_inv H. bind_inv H.
    eapply IH; [|
      |eassumption]; [lia|].
    apply index_append_in_range; [lia|].
    apply index_append_in_range; [lia|assumption].
Qed.

Section Indexed.
Variable segments : list Segment.
Variable endpoint_index : EndpointIndex.
Variable endpoint_tol : float.
Variable min_length : float.
Hypothesis index_ok : index_in_range (List.length segments) endpoint_index.
Hypothesis rounds_ok :
  forall p, is_endpoint segments p -> returns (_round_point p endpoint_tol).

Local Abbreviation grow := (grow segments endpoint_index endpoint_tol).
Local Abbreviation next_connected := (next_connected endpoint_index endpoint_tol).
Local Abbreviation merge_from := (merge_from segments endpoint_index endpoint_tol).
Local Abbreviation merge_loop := (merge_loop segments endpoint_index endpoint_tol min_length).

Lemma next_connected_in_range (unused : list nat) (current : Point) (nxt : nat) :
  next_connected unused current = Ret (Some nxt) ->
  (nxt < List.length segments)%nat.
Proof.
  unfold next_connected. intros H. bind_inv H. inversion H as [E].
  apply find_some in E. destruct E as [Hin _].
  pose proof (index_get_in_range a index_ok) as Hall.
  rewrite Forall_forall in Hall. now apply Hall.
Qed.

Lemma get_segment_returns (i : nat) :
  (i < List.length segments)%nat ->
  exists a b, get_segment segments i = Ret (a, b) /\ nth_error segments i = Some (a, b).
Proof.
  intros Hi. unfold get_segment.
  destruct (nth_error segments i) as [[a b]|] eqn:E.
  - now exists a, b.
  - apply nth_error_None in E. lia.
Qed.

Lemma grow_returns (fuel : nat) :
  forall unused pts current,
    (List.length unused <= fuel)%nat ->
    is_endpoint segments current ->
    returns (grow fuel unused pts current).
Proof.
  induction fuel as [|fuel IH]; intros unused pts current Hlen Hend; rewrite grow_eq;
    (apply returns_bind;
     [unfold next_connected;
      apply returns_bind; [now apply rounds_ok | intros; eexists; reflexivity]|]);
    intros [nxt|] Hn; try (eexists; reflexivity).
  - apply next_connected_In in Hn. destruct unused; [destruct Hn | simpl in Hlen; lia].
  - cbv zeta.
    destruct (get_segment_returns (next_connected_in_range _ _ Hn)) as (a & b & Hg & Hs).
    rewrite Hg. simpl.
    assert (List.length (set_remove nxt unused) <= fuel)%nat.
    { apply next_connected_In in Hn. apply set_remove_length_lt in Hn. lia. }
    destruct (_dist current a <=? endpoint_tol);
      [|destruct (_dist current b <=? endpoint_tol)].
    + apply IH; [assumption|]. exists nxt, a, b. auto.
    + apply IH; [assumption|]. exists nxt, a, b. auto.
    + eexists; reflexivity.
Qed.

Lemma grow_unused_Forall (P : nat -> Prop) (fuel : nat) :
  forall unused pts current unused' pts',
    grow fuel unused pts current = Ret (unused', pts') ->
    Forall P unused -> Forall P unused'.
Proof.
  induction fuel as [|fuel IH]; intros unused pts current unused' pts' H Hall;
    rewrite grow_eq in H; bind_inv H; destruct a as [nxt|]; try discriminate.
  - now inversion H; subst.
  - cbv zeta in H. bind_inv H. destruct a as [a b].
    pose proof (set_remove_Forall nxt Hall) as Hall'.
    destruct (_dist current a <=? endpoint_tol);
      [|destruct (_dist current b <=? endpoint_tol)].
    + eapply IH; eassumption.
    + eapply IH; eassumption.
    + now inversion H; subst.
  - now inversion H; subst.
Qed.

Lemma merge_from_returns (start_idx : nat) (unused : list nat) :
  (start_idx < List.length segments)%nat ->
  returns (merge_from start_idx unused).
Proof.
  intros Hi. unfold merge_from. cbv zeta.
  destruct (get_segment_returns Hi) as (a0 & b0 & Hg & Hs). rewrite Hg. simpl.
  apply returns_bind.
  - apply grow_returns; [lia|]. exists start_idx, a0, b0. auto.
  - intros [unused2 chain] _. apply returns_bind.
    + apply grow_returns; [lia|]. exists start_idx, a0, b0. auto.
    + intros [unused3 prepend] _. eexists; reflexivity.
Qed.

Lemma merge_from_unused_Forall (P : nat -> Prop) (start_idx : nat)
      (unused unused' : list nat) (merged : Polyline) :
  merge_from start_idx unused = Ret (unused', merged) ->
  Forall P unused -> Forall P unused'.
Proof.
  unfold merge_from. cbv zeta. intros H Hall.
  bind_inv H. destruct a as [a0 b0].
  bind_inv H. destruct a as [unused2 chain].
  bind_inv H. destruct a as [unused3 prepend].
  inversion H; subst.
  eapply grow_unused_Forall; [eassumption|].
  eapply grow_unused_Forall; [eassumption|].
  now apply set_remove_Forall.
Qed.

Lemma merge_loop_returns (fuel : nat) :
  forall unused polylines,
    (List.length unused <= fuel)%nat ->
    Forall (fun i => (i < List.length segments)%nat) unused ->
    returns (merge_loop fuel unused polylines).
Proof.
  induction fuel as [|fuel IH]; intros [|start_idx rest] polylines Hlen Hall; simpl;
    try (eexists; reflexivity).
  - simpl in Hlen. lia.
  - apply returns_bind.
    + apply merge_from_returns. now inversion Hall.
    + intros [unused' merged] Hm.
      pose proof (merge_from_unused_Forall _ Hm Hall) as Hall'.
      apply merge_from_unused_le in Hm.
      assert (List.length unused' <= fuel)%nat.
      { pose proof (set_remove_length_lt start_idx (start_idx :: rest) (or_introl eq_refl)).
        change (List.length (start_idx :: rest)) with (S (List.length rest)) in *. lia. }
      destruct (min_length <=? _polyline_length merged); now apply IH.
Qed.

End Indexed.

(** Once the index is built, chain merging returns. *)
Lemma merge_segments_returns (segments : list Segment) (tol min_length : float)
      (index : EndpointIndex) :
  build_index segments tol 0 [] = Ret index ->
  returns (merge_segments segments tol min_length).
Proof.
  intros Hi. unfold merge_segments. destruct segments as [|s rest] eqn:Es;
    [eexists; reflexivity|]. rewrite <- Es in *.
  rewrite Hi. simpl.
  apply returns_bind; [|intros; eexists; reflexivity].
  apply merge_loop_returns.
  - eapply build_index_in_range; [| |eassumption]; [simpl; lia | constructor].
  - intros p (i & a & b & Hn & Hp).
    apply nth_error_In in Hn.
    destruct (build_index_rounds _ _ _ _ Hi _ _ Hn) as [Ha Hb].
    destruct Hp as [-> | ->]; assumption.
  - lia.
  - rewrite Forall_forall. intros i Hin. apply in_seq in Hin. lia.
Qed.

(** X1: the exceptions of the reconstruction.  Once the segments are
    collected, the reconstruction (lines 69-137) raises only while the
    endpoint index is built, and then the [ZeroDivisionError],
    [ValueError] or [OverflowError] of quantizing an endpoint; when the
    index is built, chain merging raises nothing: the lookups
    [segments[start_idx]] and [segments[nxt]] raise no [IndexError]. *)
Theorem merge_exceptions
        (segments : list Segment) (endpoint_tol min_length : float) (e : exn) :
  merge_segments segments endpoint_tol min_length = Raise e ->
  build_index segments endpoint_tol 0 [] = Raise e
  /\ rounding_error e
  /\ e <> IndexError.
Proof.
  intros H.
  assert (Hi : build_index segments endpoint_tol 0 [] = Raise e).
  { destruct (build_index segments endpoint_tol 0 []) as [index|e'|] eqn:Ei.
    - destruct (merge_segments_returns segments endpoint_tol min_length Ei) as [r Hr].
      congruence.
    - unfold merge_segments in H. destruct segments; [discriminate|].
      rewrite Ei in H. simpl in H. congruence.
    - exfalso. now apply (build_index_terminates segments endpoint_tol 0 []). }
  assert (Hr : rounding_error e) by (eapply build_index_Raise; eassumption).
  split; [exact Hi|]. split; [exact Hr|].
  destruct Hr as [-> | [-> | ->]]; discriminate.
Qed.

End Exceptions.

(** X1 on the segments of the merge-closure example with a zero
    tolerance. *)
Lemma merge_exceptions_witness :
  build_index Example.closure_segments 0 0 [] = Raise ZeroDivisionError
  /\ rounding_error ZeroDivisionError
  /\ ZeroDivisionError <> IndexError.
Proof.
  apply (@merge_exceptions Reference.externals Example.closure_segments 0 5).
  vm_compute. reflexivity.
Defined.

(* ===================================================================== *)
(** * Degenerate tolerances                                               *)
(* ===================================================================== *)

Lemma eqb_nan_false (x y : float) : Prim2SF x = S754_nan -> (x =? y) = false.
Proof. intros E. rewrite eqb_spec, E. reflexivity. Qed.

Lemma round_coord_zero_tol (c tol : float) :
  (tol =? 0) = true -> round_coord c tol = Raise ZeroDivisionError.
Proof. intros E. unfold round_coord, py_div. now rewrite E. Qed.

Lemma round_coord_nan_tol (c tol : float) :
  Prim2SF tol = S754_nan -> round_coord c tol = Raise ValueError.
Proof.
  intros E. unfold round_coord, py_div, py_round.
  rewrite (@eqb_nan_false tol 0 E). simpl.
  rewrite div_spec, E. unfold SF64div, SFdiv.
  destruct (Prim2SF c); reflexivity.
Qed.

Section Tolerances.
Context {ext : Externals}.

(** X2: a tolerance that is zero or NaN.  When at least one segment was
    collected, [endpoint_tol = 0] (of either sign) makes the call raise
    [ZeroDivisionError] and a NaN [endpoint_tol] makes it raise
    [ValueError]: the first endpoint cannot be quantized. *)
Theorem degenerate_tolerance_raises
        (drawings : list drawing) (rect : Rect) (endpoint_tol min_length : float)
        (segments : list Segment) :
  collect_segments drawings rect [] = Ret segments ->
  segments <> [] ->
  ((endpoint_tol =? 0) = true ->
   extract_merged_polylines_in_rect drawings rect endpoint_tol min_length
   = Raise ZeroDivisionError)
  /\ (Prim2SF endpoint_tol = S754_nan ->
      extract_merged_polylines_in_rect drawings rect endpoint_tol min_length
      = Raise ValueError).
Proof.
  intros Hc Hne. unfold extract_merged_polylines_in_rect. rewrite Hc. simpl.
  destruct segments as [|[a b] rest]; [congruence|].
  unfold merge_segments. simpl. unfold _round_point.
  split; intros E.
  - now rewrite (@round_coord_zero_tol (fst a) endpoint_tol E).
  - now rewrite (@round_coord_nan_tol (fst a) endpoint_tol E).
Qed.

End Tolerances.

(** X2 on the page of the merge-closure example. *)
Lemma degenerate_tolerance_raises_witness :
  ((0 =? 0) = true ->
   @extract_merged_polylines_in_rect
     Reference.externals Example.closure_drawings Example.region 0 5
   = Raise ZeroDivisionError)
  /\ (Prim2SF 0 = S754_nan ->
      @extract_merged_polylines_in_rect
        Reference.externals Example.closure_drawings Example.region 0 5
      = Raise ValueError).
Proof.
  apply (@degenerate_tolerance_raises
           Reference.externals Example.closure_drawings Example.region 0 5
           Example.closure_segments).
  - vm_compute. reflexivity.
  - discriminate.
Defined.

(* ===================================================================== *)
(** * Segments are used once, and points are endpoints                    *)
(* ===================================================================== *)

Lemma total_edges_app (l1 l2 : list Polyline) :
  total_edges (l1 ++ l2) = (total_edges l1 + total_edges l2)%nat.
Proof. unfold total_edges. now rewrite map_app, list_sum_app. Qed.

Lemma total_edges_single (poly : Polyline) : total_edges [poly] = edges poly.
Proof. unfold total_edges. simpl. lia. Qed.

Lemma total_edges_Permutation (l1 l2 : list Polyline) :
  Permutation l1 l2 -> total_edges l1 = total_edges l2.
Proof.
  unfold total_edges. induction 1; simpl; try lia.
Qed.

Section UsedOnce.
Context {ext : Externals}.

Section Loops.
Variable segments : list Segment.
Variable endpoint_index : EndpointIndex.
Variable endpoint_tol : float.
Variable min_length : float.

Local Abbreviation grow := (grow segments endpoint_index endpoint_tol).
Local Abbreviation merge_from := (merge_from segments endpoint_index endpoint_tol).
Local Abbreviation merge_loop := (merge_loop segments endpoint_index endpoint_tol min_length).
Local Abbreviation linked := (linked segments endpoint_tol).

(** Each appended point costs an unused segment. *)
Lemma grow_measure (fuel : nat) :
  forall unused pts current unused' pts',
    grow fuel unused pts current = Ret (unused', pts') ->
    (List.length pts' + List.length unused' <= List.length pts + List.length unused)%nat.
Proof.
  induction fuel as [|fuel IH]; intros unused pts current unused' pts' H;
    rewrite grow_eq in H; destruct (bind_Ret_inv _ _ H) as ([nxt|] & Hn & H');
    try discriminate.
  - now inversion H'; subst.
  - cbv zeta in H'. bind_inv H'. destruct a as [a b].
    apply next_connected_In in Hn. apply set_remove_length_lt in Hn.
    destruct (_dist current a <=? endpoint_tol);
      [|destruct (_dist current b <=? endpoint_tol)].
    + apply IH in H'. rewrite length_app in H'. simpl in H'. lia.
    + apply IH in H'. rewrite length_app in H'. simpl in H'. lia.
    + inversion H'; subst. lia.
  - now inversion H'; subst.
Qed.

Lemma merge_from_edges (start_idx : nat) (unused unused' : list nat) (merged : Polyline) :
  In start_idx unused ->
  merge_from start_idx unused = Ret (unused', merged) ->
  (1 <= edges merged)%nat
  /\ (edges merged + List.length unused' <= List.length unused)%nat.
Proof.
  intros Hin H. apply merge_from_shape in H.
  destruct H as (a0 & b0 & u2 & chain & prepend & fwd & back
                 & _ & Hf & Hb & -> & -> & -> & _ & _).
  cbv zeta in Hf. apply grow_measure in Hf. apply grow_measure in Hb.
  apply set_remove_length_lt in Hin.
  unfold edges. rewrite length_app, length_rev. simpl in *. lia.
Qed.

Lemma merge_loop_edges (fuel : nat) :
  forall unused polylines result,
    merge_loop fuel unused polylines = Ret result ->
    (total_edges result <= total_edges polylines + List.length unused)%nat
    /\ (List.length result <= List.length polylines + List.length unused)%nat.
Proof.
  induction fuel as [|fuel IH]; intros [|start_idx rest] polylines result H;
    simpl in H; try discriminate.
  - inversion H; subst. lia.
  - inversion H; subst. lia.
  - bind_inv H. destruct a as [unused' merged].
    apply merge_from_edges in Hc; [|now left]. destruct Hc as [H1 H2].
    change (List.length (start_idx :: rest)) with (S (List.length rest)) in *.
    destruct (min_length <=? _polyline_length merged).
    + apply IH in H. rewrite total_edges_app, total_edges_single, length_app in H.
      change (List.length [merged]) with 1%nat in H. lia.
    + apply IH in H. lia.
Qed.

Lemma linked_endpoints (current : Point) (more : list Point) :
  linked current more -> Forall (is_endpoint segments) more.
Proof.
  revert current. induction more as [|q more IH]; intros current H; [constructor|].
  destruct H as [(i & a & b & Hs & Hq) Hl]. constructor; [|eapply IH; eassumption].
  exists i, a, b. split; [exact Hs|]. destruct Hq as [[-> _] | [-> _]]; auto.
Qed.

Lemma merge_from_endpoints (start_idx : nat) (unused unused' : list nat) (merged : Polyline) :
  merge_from start_idx unused = Ret (unused', merged) ->
  Forall (is_endpoint segments) merged.
Proof.
  intros H. apply merge_from_shape in H.
  destruct H as (a0 & b0 & u2 & chain & prepend & fwd & back
                 & Hs & _ & _ & _ & _ & -> & Hf & Hb).
  apply Forall_app. split.
  - apply Forall_rev. eapply linked_endpoints; eassumption.
  - constructor; [exists start_idx, a0, b0; auto|].
    constructor; [exists start_idx, a0, b0; auto|].
    eapply linked_endpoints; eassumption.
Qed.

End Loops.

(** The polylines returned for [n] collected segments have at most [n]
    edges in total, each of them at least one, so that at most [n]
    polylines are returned. *)
Lemma returned_edges_bounded
        (drawings : list drawing) (rect : Rect) (endpoint_tol min_length : float)
        (segments : list Segment) (result : list Polyline) :
  collect_segments drawings rect [] = Ret segments ->
  extract_merged_polylines_in_rect drawings rect endpoint_tol min_length = Ret result ->
  (total_edges result <= List.length segments)%nat
  /\ (List.length result <= List.length segments)%nat
  /\ Forall (fun poly => (1 <= edges poly)%nat) result.
Proof.
  unfold extract_merged_polylines_in_rect. intros Hs H. rewrite Hs in H. simpl in H.
  assert (Hone : Forall (fun poly => (1 <= edges poly)%nat) result).
  { eapply merge_segments_Forall; [|eassumption].
    intros index start_idx unused unused' merged Hm _.
    apply merge_from_joined in Hm. unfold edges. lia. }
  unfold merge_segments in H. destruct segments as [|s rest] eqn:Es.
  - inversion H; subst. repeat split; [reflexivity | reflexivity | constructor].
  - rewrite <- Es in *. bind_inv H. bind_inv H. inversion H; subst result.
    apply merge_loop_edges in Hc0. rewrite length_seq in Hc0.
    pose proof (sort_reverse_by_Permutation _polyline_length a0) as Hp.
    rewrite <- (total_edges_Permutation Hp), <- (Permutation_length Hp).
    change (total_edges []) with 0%nat in Hc0. change (@List.length Polyline []) with 0%nat in Hc0.
    repeat split; [lia | lia | exact Hone].
Qed.

(** X4: the reconstructor makes up no point.  Every point of every
    returned polyline is an endpoint of a collected segment. *)
Theorem returned_points_are_endpoints
        (drawings : list drawing) (rect : Rect) (endpoint_tol min_length : float)
        (segments : list Segment) (result : list Polyline) :
  collect_segments drawings rect [] = Ret segments ->
  extract_merged_polylines_in_rect drawings rect endpoint_tol min_length = Ret result ->
  Forall (Forall (is_endpoint segments)) result.
Proof.
  unfold extract_merged_polylines_in_rect. intros Hs H. rewrite Hs in H. simpl in H.
  eapply merge_segments_Forall; [|eassumption].
  intros index start_idx unused unused' merged Hm _.
  eapply merge_from_endpoints; eassumption.
Qed.

End UsedOnce.

(** X4 on the page of the merge-closure example. *)
Lemma returned_points_are_endpoints_witness :
  Forall (Forall (is_endpoint Example.closure_segments)) [[(0, 0); (10, 0); (20, 0)]].
Proof.
  apply (@returned_points_are_endpoints
           Reference.externals Example.closure_drawings Example.region 1 5);
    vm_compute; reflexivity.
Defined.

(* From here on the arguments of a lemma are written out where it is used. *)
Unset Implicit Arguments.

(* ===================================================================== *)
(** * Equality of floats and of buckets                                   *)
(* ===================================================================== *)

Lemma SFcompare_Eq_sym (x y : spec_float) :
  SFcompare x y = Some Eq -> SFcompare y x = Some Eq.
Proof. intros H. now rewrite (SFcompare_antisym x y), H. Qed.

Lemma CompOpp_Eq (c : comparison) : CompOpp c = Eq -> c = Eq.
Proof. now destruct c. Qed.

Lemma SFcompare_Eq_trans (x y z : spec_float) :
  SFcompare x y = Some Eq -> SFcompare y z = Some Eq -> SFcompare x z = Some Eq.
Proof.
  destruct x as [sx|sx| |sx mx ex], y as [sy|sy| |sy my ey], z as [sz|sz| |sz mz ez];
    simpl; try discriminate; try reflexivity;
    try (destruct sx; discriminate); try (destruct sy; discriminate);
    try (destruct sz; discriminate);
    try (destruct sx, sy; discriminate); try (destruct sy, sz; discriminate);
    try (destruct sx, sy, sz; simpl; intros; congruence).
  destruct sx, sy; try discriminate; destruct sz; try discriminate;
    destruct (Z.compare_spec ex ey); try discriminate;
    destruct (Z.compare_spec ey ez); try discriminate; subst;
    rewrite Z.compare_refl; intros H1 H2; inversion H1 as [E1]; inversion H2 as [E2];
    try apply CompOpp_Eq in E1; try apply CompOpp_Eq in E2;
    apply (Pos.compare_eq mx my) in E1; apply (Pos.compare_eq my mz) in E2; subst;
    rewrite ?Pos.compare_cont_refl; reflexivity.
Qed.

Lemma eqb_sym (x y : float) : (x =? y) = true -> (y =? x) = true.
Proof.
  rewrite !eqb_spec. unfold SFeqb.
  destruct (SFcompare (Prim2SF x) (Prim2SF y)) as [[]|] eqn:E; try discriminate.
  now rewrite (SFcompare_Eq_sym _ _ E).
Qed.

Lemma eqb_trans (x y z : float) :
  (x =? y) = true -> (y =? z) = true -> (x =? z) = true.
Proof.
  rewrite !eqb_spec. unfold SFeqb.
  destruct (SFcompare (Prim2SF x) (Prim2SF y)) as [[]|] eqn:E1; try discriminate.
  destruct (SFcompare (Prim2SF y) (Prim2SF z)) as [[]|] eqn:E2; try discriminate.
  now rewrite (SFcompare_Eq_trans _ _ _ E1 E2).
Qed.

(** Equal keys select the same entries. *)
Lemma eqb_congr_r (q a c : float) : (a =? c) = true -> (q =? a) = (q =? c).
Proof.
  intros Hac. destruct (q =? a) eqn:Ea.
  - symmetry. eapply eqb_trans; eassumption.
  - destruct (q =? c) eqn:Ec; [|reflexivity].
    rewrite <- Ea. eapply eqb_trans; [eassumption|]. now apply eqb_sym.
Qed.

Lemma point_eqb_congr_r (q a c : Point) :
  point_eqb a c = true -> point_eqb q a = point_eqb q c.
Proof.
  unfold point_eqb. intros H. apply andb_prop in H. destruct H as [H1 H2].
  now rewrite (eqb_congr_r (fst q) _ _ H1), (eqb_congr_r (snd q) _ _ H2).
Qed.

Lemma point_eqb_sym (a c : Point) : point_eqb a c = true -> point_eqb c a = true.
Proof.
  unfold point_eqb. intros H. apply andb_prop in H. destruct H as [H1 H2].
  now rewrite (eqb_sym _ _ H1), (eqb_sym _ _ H2).
Qed.

Lemma point_eqb_trans (a b c : Point) :
  point_eqb a b = true -> point_eqb b c = true -> point_eqb a c = true.
Proof.
  unfold point_eqb. intros H1 H2.
  apply andb_prop in H1. apply andb_prop in H2. destruct H1, H2.
  apply andb_true_intro. split; eapply eqb_trans; eassumption.
Qed.

Lemma index_get_congr (m : EndpointIndex) (a c : Point) :
  point_eqb a c = true -> index_get m a = index_get m c.
Proof.
  intros H. induction m as [|[q l] m IH]; simpl; [reflexivity|].
  now rewrite (point_eqb_congr_r q _ _ H), IH.
Qed.

(* ===================================================================== *)
(** * The endpoint index                                                  *)
(* ===================================================================== *)

Lemma index_get_append_same (m : EndpointIndex) (k : Point) (i : nat) :
  point_eqb k k = true -> index_get (index_append m k i) k = index_get m k ++ [i].
Proof.
  intros Hk. induction m as [|[q l] m IH]; simpl.
  - now rewrite Hk.
  - destruct (point_eqb q k) eqn:E; simpl; now rewrite E.
Qed.

Lemma index_get_append_In (m : EndpointIndex) (k k' : Point) (i j : nat) :
  In j (index_get m k') -> In j (index_get (index_append m k i) k').
Proof.
  induction m as [|[q l] m IH]; simpl; [tauto|].
  destruct (point_eqb q k) eqn:E; simpl;
    destruct (point_eqb q k') eqn:E'; try tauto.
  intros H. apply in_or_app. now left.
Qed.

(** What [index_append] stores under a key was stored there before, or is
    the new index under an equal key. *)
Lemma index_get_append_inv (m : EndpointIndex) (k k' : Point) (i j : nat) :
  In j (index_get (index_append m k i) k') ->
  In j (index_get m k') \/ (j = i /\ point_eqb k k' = true).
Proof.
  induction m as [|[q l] m IH]; simpl.
  - destruct (point_eqb k k') eqn:E; simpl; [|tauto].
    intros [-> | []]. now right.
  - destruct (point_eqb q k) eqn:E; simpl;
      destruct (point_eqb q k') eqn:E'; try tauto.
    intros H. apply in_app_or in H. destruct H as [H | [<- | []]]; [now left|].
    right. split; [reflexivity|].
    eapply point_eqb_trans; [|eassumption]. now apply point_eqb_sym.
Qed.

Section IndexFacts.
Context {ext : Externals}.

Lemma build_index_In (segments : list Segment) (tol : float) (k : Point) (j : nat) :
  forall idx m index,
    build_index segments tol idx m = Ret index ->
    In j (index_get m k) -> In j (index_get index k).
Proof.
  induction segments as [|[a b] rest IH]; intros idx m index H Hj; simpl in H.
  - now inversion H; subst.
  - bind_inv H. bind_inv H. eapply IH; [eassumption|].
    now do 2 apply index_get_append_In.
Qed.

Lemma build_index_complete (segments : list Segment) (tol : float) :
  forall idx m index i a b k,
    build_index segments tol idx m = Ret index ->
    nth_error segments i = Some (a, b) ->
    _round_point a tol = Ret k \/ _round_point b tol = Ret k ->
    point_eqb k k = true ->
    In (idx + i)%nat (index_get index k).
Proof.
  induction segments as [|[a0 b0] rest IH]; intros idx m index i a b k H Hn Hr Hk;
    [destruct i; discriminate|].
  simpl in H.
  apply bind_Ret_inv in H. destruct H as (ka & Hka & H).
  apply bind_Ret_inv in H. destruct H as (kb & Hkb & H).
  destruct i as [|i]; simpl in Hn.
  - inversion Hn; subst a0 b0. rewrite Nat.add_0_r.
    eapply build_index_In; [eassumption|].
    destruct Hr as [Hr | Hr].
    + rewrite Hr in Hka. inversion Hka; subst ka.
      apply index_get_append_In. rewrite index_get_append_same by assumption.
      apply in_or_app. right. now left.
    + rewrite Hr in Hkb. inversion Hkb; subst kb.
      rewrite index_get_append_same by assumption.
      apply in_or_app. right. now left.
  - replace (idx + S i)%nat with (S idx + i)%nat by lia.
    eapply IH; eassumption.
Qed.

Lemma build_index_sound (segments : list Segment) (tol : float) :
  forall idx m index k j,
    build_index segments tol idx m = Ret index ->
    In j (index_get index k) ->
    In j (index_get m k)
    \/ exists i a b k',
        j = (idx + i)%nat /\ nth_error segments i = Some (a, b)
        /\ (_round_point a tol = Ret k' \/ _round_point b tol = Ret k')
        /\ point_eqb k' k = true.
Proof.
  induction segments as [|[a b] rest IH]; intros idx m index k j H Hj; simpl in H.
  - inversion H; subst. now left.
  - apply bind_Ret_inv in H. destruct H as (ka & Hka & H).
    apply bind_Ret_inv in H. destruct H as (kb & Hkb & H).
    destruct (IH _ _ _ _ _ H Hj) as [Hm | (i & a' & b' & k' & -> & Hn & Hr & Hk)].
    + apply index_get_append_inv in Hm. destruct Hm as [Hm | [-> Hk]].
      * apply index_get_append_inv in Hm. destruct Hm as [Hm | [-> Hk]]; [now left|].
        right. exists 0%nat, a, b, ka. rewrite Nat.add_0_r. auto.
      * right. exists 0%nat, a, b, kb. rewrite Nat.add_0_r. auto.
    + right. exists (S i), a', b', k'.
      repeat split; try assumption. lia.
Qed.

(** X5: the bucket lists of the index.  Once [endpoint_index] is built,
    the list found under a bucket holds the index of every segment one of
    whose endpoints quantizes to that bucket, and holds only such indices.
    The bucket is one whose coordinates are numbers, so that it equals
    itself. *)
Theorem endpoint_index_lookup
        (segments : list Segment) (endpoint_tol : float) (index : EndpointIndex) :
  build_index segments endpoint_tol 0 [] = Ret index ->
  (forall i a b k,
      nth_error segments i = Some (a, b) ->
      _round_point a endpoint_tol = Ret k \/ _round_point b endpoint_tol = Ret k ->
      point_eqb k k = true ->
      In i (index_get index k))
  /\ (forall k j,
         In j (index_get index k) ->
         exists a b k',
           nth_error segments j = Some (a, b)
           /\ (_round_point a endpoint_tol = Ret k' \/ _round_point b endpoint_tol = Ret k')
           /\ point_eqb k' k = true).
Proof.
  intros H. split.
  - intros i a b k Hn Hr Hk.
    apply (build_index_complete segments endpoint_tol 0 [] index i a b k H Hn Hr Hk).
  - intros k j Hj.
    destruct (build_index_sound segments endpoint_tol 0 [] index k j H Hj)
      as [[] | (i & a & b & k' & -> & Hn & Hr & Hk)].
    exists a, b, k'. auto.
Qed.

Lemma StronglySorted_snoc (l : list nat) (x : nat) :
  StronglySorted le l -> Forall (fun i => (i <= x)%nat) l -> StronglySorted le (l ++ [x]).
Proof.
  induction 1 as [|y l Hs IH Hy]; intros Hx; simpl; [repeat constructor|].
  inversion Hx as [|? ? Hyx Hl]; subst. constructor; [now apply IH|].
  apply Forall_app. split; [exact Hy | now repeat constructor].
Qed.

Lemma index_ascending_le (b b' : nat) (m : EndpointIndex) :
  (b <= b')%nat -> index_ascending b m -> index_ascending b' m.
Proof.
  intros Hb. unfold index_ascending. apply Forall_impl. intros entry [Hs Hall].
  split; [exact Hs|]. eapply Forall_impl; [|exact Hall]. simpl. intros; lia.
Qed.

Lemma index_append_ascending (b : nat) (m : EndpointIndex) (k : Point) :
  index_ascending b m -> index_ascending b (index_append m k b).
Proof.
  induction 1 as [|[k' l] m [Hs Hall] Hm IH]; simpl.
  - repeat constructor.
  - destruct (point_eqb k' k); constructor; try assumption; simpl in *.
    + split; [now apply StronglySorted_snoc|].
      apply Forall_app. split; [exact Hall | now repeat constructor].
    + now split.
Qed.

Lemma build_index_ascending (segments : list Segment) (tol : float) :
  forall idx m index,
    build_index segments tol idx m = Ret index ->
    index_ascending idx m ->
    exists bound, index_ascending bound index.
Proof.
  induction segments as [|[a b] rest IH]; intros idx m index H Hm; simpl in H.
  - inversion H; subst. now exists idx.
  - apply bind_Ret_inv in H. destruct H as (ka & _ & H).
    apply bind_Ret_inv in H. destruct H as (kb & _ & H).
    eapply IH; [exact H|].
    apply (index_ascending_le idx (S idx)); [lia|].
    now do 2 apply index_append_ascending.
Qed.

Lemma index_get_ascending (bound : nat) (m : EndpointIndex) (k : Point) :
  index_ascending bound m -> StronglySorted le (index_get m k).
Proof.
  induction 1 as [|[k' l] m [Hs _] Hm IH]; simpl; [constructor|].
  destruct (point_eqb k' k); assumption.
Qed.

(** The first element of an ascending list that passes a test is the least
    one that passes it. *)
Lemma find_least (f : nat -> bool) (l : list nat) (x : nat) :
  StronglySorted le l -> find f l = Some x ->
  forall y, In y l -> f y = true -> (x <= y)%nat.
Proof.
  induction 1 as [|z l Hs IH Hz]; intros Hf y Hy Hfy; [destruct Hy|].
  simpl in Hf. destruct (f z) eqn:Ez.
  - inversion Hf; subst. destruct Hy as [-> | Hy]; [lia|].
    rewrite Forall_forall in Hz. now apply Hz.
  - destruct Hy as [-> | Hy]; [congruence|]. now apply IH.
Qed.

(** X6: the candidate is picked by bucket and by index, not by distance.
    If an unused segment has an endpoint in the bucket of the current
    point, [next_connected] returns a candidate: the unused segment of
    least index among those with an endpoint in that bucket, whether or
    not it lies within the tolerance. *)
Theorem next_connected_finds_bucket_mate
        (segments : list Segment) (endpoint_tol : float) (index : EndpointIndex)
        (unused : list nat) (current : Point) (i : nat) (a b k kc : Point) :
  build_index segments endpoint_tol 0 [] = Ret index ->
  In i unused ->
  nth_error segments i = Some (a, b) ->
  _round_point a endpoint_tol = Ret k \/ _round_point b endpoint_tol = Ret k ->
  _round_point current endpoint_tol = Ret kc ->
  point_eqb k kc = true ->
  exists nxt a' b' k',
    next_connected index endpoint_tol unused current = Ret (Some nxt)
    /\ In nxt unused
    /\ nth_error segments nxt = Some (a', b')
    /\ (_round_point a' endpoint_tol = Ret k' \/ _round_point b' endpoint_tol = Ret k')
    /\ point_eqb k' kc = true
    /\ (forall j a2 b2 k2,
           In j unused ->
           nth_error segments j = Some (a2, b2) ->
           _round_point a2 endpoint_tol = Ret k2 \/ _round_point b2 endpoint_tol = Ret k2 ->
           point_eqb k2 kc = true ->
           (nxt <= j)%nat).
Proof.
  intros H Hin Hn Hr Hc Hk.
  assert (Hbucket :
            forall j a2 b2 k2,
              In j unused ->
              nth_error segments j = Some (a2, b2) ->
              _round_point a2 endpoint_tol = Ret k2 \/ _round_point b2 endpoint_tol = Ret k2 ->
              point_eqb k2 kc = true ->
              In j (index_get index kc) /\ set_mem j unused = true).
  { intros j a2 b2 k2 Hj Hn2 Hr2 Hk2.
    assert (Hkk : point_eqb k2 k2 = true).
    { eapply point_eqb_trans; [eassumption|]. now apply point_eqb_sym. }
    pose proof (build_index_complete segments endpoint_tol 0 [] index j a2 b2 k2
                  H Hn2 Hr2 Hkk) as Hi.
    simpl in Hi. rewrite (index_get_congr index _ _ Hk2) in Hi.
    split; [exact Hi|]. unfold set_mem. apply existsb_exists.
    exists j. split; [exact Hj | apply Nat.eqb_refl]. }
  unfold next_connected. rewrite Hc. simpl.
  destruct (find (fun cand => set_mem cand unused) (index_get index kc)) as [nxt|] eqn:Ef.
  - pose proof Ef as Ef'. apply find_some in Ef'. destruct Ef' as [Hj Hm].
    destruct (build_index_sound segments endpoint_tol 0 [] index kc nxt H Hj)
      as [[] | (i' & a' & b' & k' & -> & Hn' & Hr' & Hk')].
    exists i', a', b', k'. repeat split; try assumption; [now apply set_mem_In|].
    intros j a2 b2 k2 Hj2 Hn2 Hr2 Hk2.
    destruct (Hbucket j a2 b2 k2 Hj2 Hn2 Hr2 Hk2) as [Hi2 Hm2].
    destruct (build_index_ascending segments endpoint_tol 0 [] index H) as [bound Hasc];
      [constructor|].
    apply (find_least (fun cand => set_mem cand unused) (index_get index kc) (0 + i')%nat
             (index_get_ascending bound index kc Hasc) Ef j Hi2 Hm2).
  - exfalso. destruct (Hbucket i a b k Hin Hn Hr Hk) as [Hi Hm].
    pose proof (find_none _ _ Ef i Hi) as Hm'. simpl in Hm'. congruence.
Qed.

End IndexFacts.

(** X5 on the segments of the merge-closure example. *)
Lemma endpoint_index_lookup_witness :
  (forall i a b k,
      nth_error Example.closure_segments i = Some (a, b) ->
      _round_point a 1 = Ret k \/ _round_point b 1 = Ret k ->
      point_eqb k k = true ->
      In i (index_get [((0, 0), [0%nat]); ((10, 0), [0; 1]%nat); ((20, 0), [1%nat])] k))
  /\ (forall k j,
         In j (index_get [((0, 0), [0%nat]); ((10, 0), [0; 1]%nat); ((20, 0), [1%nat])] k) ->
         exists a b k',
           nth_error Example.closure_segments j = Some (a, b)
           /\ (_round_point a 1 = Ret k' \/ _round_point b 1 = Ret k')
           /\ point_eqb k' k = true).
Proof.
  apply (@endpoint_index_lookup Example.closure_segments 1). reflexivity.
Defined.

(** X6 on the segments of the consumed-candidate example: at the point
    [(4, 4)], with both segments unused, the candidate is segment 0. *)
Lemma next_connected_finds_bucket_mate_witness :
  exists nxt a' b' k',
    next_connected [((10, 0), [0%nat]); ((0, 0), [0; 1]%nat); ((-10, 0), [1%nat])]
                   10 [0; 1]%nat (4, 4) = Ret (Some nxt)
    /\ In nxt [0; 1]%nat
    /\ nth_error Example.far_segments nxt = Some (a', b')
    /\ (_round_point a' 10 = Ret k' \/ _round_point b' 10 = Ret k')
    /\ point_eqb k' (0, 0) = true
    /\ (forall j a2 b2 k2,
           In j [0; 1]%nat ->
           nth_error Example.far_segments j = Some (a2, b2) ->
           _round_point a2 10 = Ret k2 \/ _round_point b2 10 = Ret k2 ->
           point_eqb k2 (0, 0) = true ->
           le nxt j).
Proof.
  apply (@next_connected_finds_bucket_mate
           Example.far_segments 10
           [((10, 0), [0%nat]); ((0, 0), [0; 1]%nat); ((-10, 0), [1%nat])]
           [0; 1]%nat (4, 4) 1%nat (-4, -4) (-10, 0) (0, 0) (0, 0));
    try reflexivity.
  - right. now left.
  - now left.
Defined.

(* ===================================================================== *)
(** * Section frames                                                      *)
(* ===================================================================== *)

Lemma ltb_leb (a b : float) : (a <? b) = true -> (a <=? b) = true.
Proof.
  rewrite ltb_spec, leb_spec. unfold SFltb, SFleb.
  destruct (SFcompare (Prim2SF a) (Prim2SF b)) as [[]|]; congruence.
Qed.

Lemma leb_refl_number (a : float) : is_number a -> (a <=? a) = true.
Proof.
  intros H. rewrite leb_spec. unfold SFleb. now rewrite (SFcompare_refl H).
Qed.

(** [max(lo, v)] is a number that is at least [lo]. *)
Lemma py_max_lower (lo v : float) : is_number lo -> (lo <=? py_max lo v) = true.
Proof.
  intros H. unfold py_max. destruct (lo <? v) eqn:E.
  - now apply ltb_leb.
  - now apply leb_refl_number.
Qed.

(** [min(hi, v)] is at most [hi]. *)
Lemma py_min_upper (hi v : float) : is_number hi -> (py_min hi v <=? hi) = true.
Proof.
  intros H. unfold py_min. destruct (v <? hi) eqn:E.
  - now apply ltb_leb.
  - now apply leb_refl_number.
Qed.

Lemma find_station_text_length (words : list word) :
  (List.length (find_station_text words) <= List.length words)%nat.
Proof.
  induction words as [|w ws IH]; simpl; [lia|].
  destruct (Re.re_match STATION_RE (w_text w)); simpl; lia.
Qed.

(** X7: frames are clamped to the page.  The frame built around a station
    spans the page from 3% of its width to 98% of it, its top is a number
    that is at least 0 and, the page height being a number, its bottom is
    at most the page height. *)
Theorem frame_of_clamped (section_h width height : float) (hit : StationHit) :
  is_number height ->
  let fr := frame_of section_h width height hit in
  x0 fr = width * 0.03
  /\ x1 fr = width - width * 0.02
  /\ (0 <=? y0 fr) = true
  /\ (y1 fr <=? height) = true.
Proof.
  intros Hh fr. unfold fr, frame_of. simpl.
  repeat split.
  - apply py_max_lower. discriminate.
  - now apply py_min_upper.
Qed.

(** X7 on a page of 1000 by 1000. *)
Lemma frame_of_clamped_witness :
  let fr := frame_of 200 1000 1000 ("445+00"%string, mkRect 900 100 940 110) in
  x0 fr = 1000 * 0.03
  /\ x1 fr = 1000 - 1000 * 0.02
  /\ (0 <=? y0 fr) = true
  /\ (y1 fr <=? 1000) = true.
Proof.
  apply (frame_of_clamped 200 1000 1000 ("445+00"%string, mkRect 900 100 940 110)).
  discriminate.
Defined.

(** X8: the floor of the section height.  With two or more station hits
    the section height is a number that is at least 200, whatever the
    positions of the hits. *)
Theorem section_height_floor (h1 h2 : StationHit) (rest : list StationHit) (height : float) :
  (200 <=? section_height (h1 :: h2 :: rest) height) = true.
Proof.
  unfold section_height.
  destruct (deltas_of (map hit_y0 (h1 :: h2 :: rest))) as [|d ds] eqn:E;
    [discriminate|].
  cbv zeta. apply py_max_lower. discriminate.
Qed.

Section FrameCount.
Context {ext : Externals}.

Lemma dedup_step_length (merged : list Rect) (fr : Rect) :
  (1 <= List.length (dedup_step merged fr))%nat
  /\ (List.length merged <= List.length (dedup_step merged fr))%nat
  /\ (List.length (dedup_step merged fr) <= S (List.length merged))%nat.
Proof.
  unfold dedup_step. destruct merged as [|r l] eqn:E; [simpl; lia|].
  rewrite <- E. assert (Hne : merged <> []) by (subst; discriminate).
  destruct (_ && _).
  - rewrite length_app. simpl.
    destruct (exists_last Hne) as (l' & x & ->).
    rewrite removelast_last, length_app. simpl. lia.
  - rewrite length_app. simpl. lia.
Qed.

Lemma dedup_fold_length (frames : list Rect) :
  forall merged,
    (List.length merged <= List.length (fold_left dedup_step frames merged))%nat
    /\ (List.length (fold_left dedup_step frames merged)
        <= List.length merged + List.length frames)%nat
    /\ (frames <> [] -> (1 <= List.length (fold_left dedup_step frames merged))%nat).
Proof.
  induction frames as [|fr frames IH]; intros merged; simpl.
  - repeat split; try lia. congruence.
  - destruct (IH (dedup_step merged fr)) as (H1 & H2 & _).
    destruct (dedup_step_length merged fr) as (H3 & H4 & H5).
    repeat split; lia.
Qed.

(** X9: the number of section frames.  [detect_section_frames] returns at
    most one frame for each station hit, and at least one frame when there
    is a station hit; the station hits are at most as many as the words. *)
Theorem detect_section_frames_count (pg : page) :
  let hits := find_station_text (page_words pg) in
  (List.length (detect_section_frames pg) <= List.length hits)%nat
  /\ (hits <> [] -> (1 <= List.length (detect_section_frames pg))%nat)
  /\ (List.length hits <= List.length (page_words pg))%nat.
Proof.
  intros hits. unfold detect_section_frames. fold hits.
  split; [|split]; [| |apply find_station_text_length].
  - destruct hits as [|h hs] eqn:E; [simpl; lia|]. rewrite <- E.
    unfold dedup_frames.
    match goal with
    | |- (List.length (fold_left _ ?fs []) <= _)%nat =>
        destruct (dedup_fold_length fs []) as (_ & H & _);
        assert (Hl : List.length fs = List.length hits)
          by (rewrite sorted_by_length, length_map, sorted_by_length; reflexivity)
    end.
    simpl in H. lia.
  - intros Hne. destruct hits as [|h hs] eqn:E; [congruence|]. rewrite <- E.
    unfold dedup_frames.
    match goal with
    | |- (1 <= List.length (fold_left _ ?fs []))%nat =>
        destruct (dedup_fold_length fs []) as (_ & _ & H); apply H;
        assert (Hl : List.length fs = List.length hits)
          by (rewrite sorted_by_length, length_map, sorted_by_length; reflexivity)
    end.
    intros Hfs. rewrite Hfs, E in Hl. discriminate.
Qed.

End FrameCount.

(* ===================================================================== *)
(** * The order of floats is transitive                                   *)
(* ===================================================================== *)

Lemma SFleb_trans (x y z : spec_float) :
  SFleb x y = true -> SFleb y z = true -> SFleb x z = true.
Proof.
  unfold SFleb.
  destruct x as [sx|sx| |sx mx ex], y as [sy|sy| |sy my ey], z as [sz|sz| |sz mz ez];
    simpl; try discriminate; try reflexivity;
    try (destruct sx; simpl; try discriminate; try reflexivity;
         destruct sy; simpl; try discriminate; try reflexivity;
         destruct sz; simpl; try discriminate; reflexivity);
    try (destruct sx; simpl; try discriminate; try reflexivity;
         destruct sz; simpl; try discriminate; reflexivity);
    try (destruct sy; simpl; try discriminate; try reflexivity;
         destruct sz; simpl; try discriminate; reflexivity);
    try (destruct sx; simpl; try discriminate; try reflexivity;
         destruct sy; simpl; try discriminate; reflexivity).
  all: change (Pos.compare_cont Eq mx my) with (Pos.compare mx my);
    change (Pos.compare_cont Eq my mz) with (Pos.compare my mz);
    change (Pos.compare_cont Eq mx mz) with (Pos.compare mx mz).
  all: destruct sx, sy; simpl; try discriminate; try reflexivity;
    destruct sz; simpl; try discriminate; try reflexivity.
  all: destruct (Z.compare_spec ex ey); try discriminate;
    destruct (Z.compare_spec ey ez); try discriminate;
    destruct (Z.compare_spec ex ez); try lia; try reflexivity.
  all: destruct (Pos.compare_spec mx my); simpl; try discriminate;
    destruct (Pos.compare_spec my mz); simpl; try discriminate;
    destruct (Pos.compare_spec mx mz); simpl; try lia; try reflexivity.
Qed.

Lemma leb_trans (x y z : float) :
  (x <=? y) = true -> (y <=? z) = true -> (x <=? z) = true.
Proof. rewrite !leb_spec. apply SFleb_trans. Qed.

Lemma SFcompare_opp (a b : spec_float) :
  SFcompare (SFopp a) (SFopp b) = SFcompare b a.
Proof.
  destruct a as [sa|sa| |sa ma ea], b as [sb|sb| |sb mb eb]; simpl;
    try reflexivity;
    try (destruct sa; reflexivity); try (destruct sb; reflexivity);
    try (destruct sa, sb; reflexivity).
  destruct sa, sb; simpl; try reflexivity;
    rewrite (Z.compare_antisym ea eb);
    destruct (ea ?= eb)%Z; simpl; try reflexivity;
    rewrite (Pos.compare_cont_antisym _ _ Eq); simpl;
    rewrite ?CompOpp_involutive; reflexivity.
Qed.

Lemma opp_leb (a b : float) : (- a <=? - b) = (b <=? a).
Proof. rewrite !leb_spec, !opp_spec. unfold SFleb. now rewrite SFcompare_opp. Qed.

Lemma opp_is_number (a : float) : is_number a -> is_number (- a).
Proof.
  unfold is_number. rewrite opp_spec. destruct (Prim2SF a); simpl; congruence.
Qed.

(* ===================================================================== *)
(** * The head of a sorted list                                           *)
(* ===================================================================== *)

Section SortedHead.
Variable A : Type.
Variable key : A -> float.

Lemma insert_asc_In (x y : A) (l : list A) :
  In y (insert_asc key x l) <-> y = x \/ In y l.
Proof.
  induction l as [|z l IH]; simpl; [intuition congruence|].
  destruct (key z <? key x); simpl; rewrite ?IH; intuition congruence.
Qed.

Lemma sorted_by_In (y : A) (l : list A) : In y (sorted_by key l) <-> In y l.
Proof.
  induction l as [|x l IH]; simpl; [tauto|].
  rewrite insert_asc_In, IH. intuition congruence.
Qed.

(** On keys that are numbers, the first element of the sorted list has a
    least key. *)
Lemma sorted_by_head_least (l : list A) (h : A) (t : list A) :
  Forall (fun x => is_number (key x)) l ->
  sorted_by key l = h :: t ->
  Forall (fun x => (key h <=? key x) = true) l.
Proof.
  revert h t. induction l as [|x l IH]; intros h t Hn Hs; [constructor|].
  inversion Hn as [|? ? Hx Hl]; subst. simpl in Hs.
  destruct (sorted_by key l) as [|y s'] eqn:Es.
  - assert (l = []) as ->.
    { apply length_zero_iff_nil. rewrite <- (sorted_by_length key l), Es. reflexivity. }
    simpl in Hs. inversion Hs; subst. constructor; [|constructor].
    now apply leb_refl_number.
  - specialize (IH y s' Hl eq_refl).
    assert (Hy : is_number (key y)).
    { rewrite Forall_forall in Hl. apply Hl. apply (sorted_by_In y l).
      rewrite Es. now left. }
    simpl in Hs. destruct (key y <? key x) eqn:E; inversion Hs; subst.
    + constructor; [now apply ltb_leb | exact IH].
    + pose proof (ltb_false_leb Hy Hx E) as Hxy.
      constructor; [now apply leb_refl_number|].
      eapply Forall_impl; [|exact IH]. intros e He. simpl in He.
      eapply leb_trans; eassumption.
Qed.

End SortedHead.

(* ===================================================================== *)
(** * The overlay of a frame                                              *)
(* ===================================================================== *)

(** X10: the station of a frame.  Without a hit the label is the default
    text.  With hits whose right edges are numbers, the station is the
    text of a hit whose right edge [x1] is the largest. *)
Theorem frame_station_rightmost (stations : list StationHit) :
  Forall (fun s => is_number (x1 (snd s))) stations ->
  (stations = [] ->
   station_or_default (frame_station stations) = "NO STATION FOUND"%string)
  /\ (stations <> [] ->
      exists s,
        In s stations
        /\ frame_station stations = Some (fst s)
        /\ Forall (fun t => (x1 (snd t) <=? x1 (snd s)) = true) stations).
Proof.
  intros Hn. split; [intros ->; reflexivity|].
  intros Hne. unfold frame_station.
  destruct stations as [|s0 rest] eqn:E; [congruence|]. rewrite <- E in *.
  destruct (sorted_by (fun s => - x1 (snd s)) stations) as [|h t] eqn:Es.
  - exfalso. apply Hne. apply length_zero_iff_nil.
    pose proof (sorted_by_length (fun s => - x1 (snd s)) stations) as Hl.
    rewrite Es in Hl. symmetry. exact Hl.
  - exists h. split; [|split; [reflexivity|]].
    + apply (sorted_by_In _ (fun s => - x1 (snd s)) h stations). rewrite Es. now left.
    + assert (Hneg : Forall (fun s => is_number (- x1 (snd s))) stations).
      { eapply Forall_impl; [|exact Hn]. intros a Ha. now apply opp_is_number. }
      pose proof (sorted_by_head_least _ (fun s => - x1 (snd s)) stations h t Hneg Es) as Hl.
      eapply Forall_impl; [|exact Hl]. intros a Ha. simpl in Ha.
      now rewrite opp_leb in Ha.
Qed.

(** X10 on two hits, of which the second is the rightmost. *)
Lemma frame_station_rightmost_witness :
  (OverlayExample.stations = [] ->
   station_or_default (frame_station OverlayExample.stations) = "NO STATION FOUND"%string)
  /\ (OverlayExample.stations <> [] ->
      exists s,
        In s OverlayExample.stations
        /\ frame_station OverlayExample.stations = Some (fst s)
        /\ Forall (fun t => (x1 (snd t) <=? x1 (snd s)) = true) OverlayExample.stations).
Proof.
  apply (frame_station_rightmost OverlayExample.stations).
  repeat constructor; discriminate.
Defined.

Lemma StronglySorted_app_Forall {A : Type} (R : A -> A -> Prop) (l1 l2 : list A) :
  StronglySorted R (l1 ++ l2) -> Forall (fun p => Forall (R p) l2) l1.
Proof.
  induction l1 as [|p l1 IH]; intros H; [constructor|].
  simpl in H. inversion H as [|? ? Hs Hall]; subst.
  constructor; [|now apply IH].
  apply Forall_app in Hall. tauto.
Qed.

Lemma StronglySorted_firstn {A : Type} (R : A -> A -> Prop) (n : nat) (l : list A) :
  StronglySorted R l -> StronglySorted R (firstn n l).
Proof.
  revert n. induction l as [|x l IH]; intros n H; [now rewrite firstn_nil|].
  destruct n as [|n]; [constructor|]. simpl.
  inversion H as [|? ? Hs Hall]; subst. constructor; [now apply IH|].
  rewrite Forall_forall in *. intros y Hy. apply Hall.
  eapply (In_nth_error) in Hy. destruct Hy as [i Hi].
  apply nth_error_In with (n := i).
  rewrite nth_error_firstn in Hi. destruct (Nat.ltb i n); [exact Hi | discriminate].
Qed.

Section Overlay.
Context {ext : Externals}.

Lemma non_increasing_transitive :
  forall p q r : Polyline,
    non_increasing _polyline_length p q -> non_increasing _polyline_length q r ->
    non_increasing _polyline_length p r.
Proof.
  unfold non_increasing. intros p q r Hpq Hqr. eapply leb_trans; eassumption.
Qed.

(** What the reconstruction returns is filtered and sorted pairwise. *)
Lemma merge_segments_StronglySorted (segments : list Segment) (tol min_length : float)
      (result : list Polyline) :
  merge_segments segments tol min_length = Ret result ->
  Forall (fun poly => (min_length <=? _polyline_length poly) = true) result
  /\ StronglySorted (non_increasing _polyline_length) result.
Proof.
  intros H.
  assert (Hall : Forall (fun poly => (min_length <=? _polyline_length poly) = true) result).
  { eapply merge_segments_Forall; [|eassumption]. intros; assumption. }
  split; [exact Hall|].
  apply Sorted_StronglySorted; [exact non_increasing_transitive|].
  unfold merge_segments in H. destruct segments as [|s rest]; [inversion H; constructor|].
  apply bind_Ret_inv in H. destruct H as (index & _ & H).
  apply bind_Ret_inv in H. destruct H as (polylines & Hl & H).
  inversion H; subst.
  apply sort_reverse_by_Sorted.
  eapply merge_loop_Forall with (P := fun poly => is_number (_polyline_length poly));
    [|constructor|eassumption].
  intros ? ? ? ? _ Hlen. eapply leb_is_number_r; eassumption.
Qed.

(** X11: the longest polyline comes first.  In the returned list every
    polyline is at most as long as each polyline before it. *)
Theorem returned_pairwise_sorted
        (drawings : list drawing) (rect : Rect) (endpoint_tol min_length : float)
        (result : list Polyline) :
  extract_merged_polylines_in_rect drawings rect endpoint_tol min_length = Ret result ->
  StronglySorted (non_increasing _polyline_length) result
  /\ (forall first rest,
         result = first :: rest ->
         Forall (fun poly => (_polyline_length poly <=? _polyline_length first) = true)
                rest).
Proof.
  unfold extract_merged_polylines_in_rect. intros H.
  apply bind_Ret_inv in H. destruct H as (segments & _ & H).
  apply merge_segments_StronglySorted in H. destruct H as [_ Hs].
  split; [exact Hs|].
  intros first rest ->. now inversion Hs.
Qed.

(** X12: the polylines drawn for a frame.  They are the first 12 of the
    polylines that the reconstructor returns for [endpoint_tol = 2.0] and
    [min_length = 120.0]: at most 12, each of length at least 120, sorted
    pairwise, and no polyline that was left out is longer than one that is
    drawn. *)
Theorem frame_polylines_top
        (drawings : list drawing) (fr : Rect) (polys : list Polyline) :
  frame_polylines drawings fr = Ret polys ->
  exists all,
    extract_merged_polylines_in_rect drawings fr 2 120 = Ret all
    /\ polys = firstn 12 all
    /\ (List.length polys <= 12)%nat
    /\ Forall (fun poly => (120 <=? _polyline_length poly) = true) polys
    /\ StronglySorted (non_increasing _polyline_length) polys
    /\ Forall (fun kept =>
                 Forall (fun left_out =>
                           (_polyline_length left_out <=? _polyline_length kept) = true)
                        (skipn 12 all)) polys.
Proof.
  unfold frame_polylines. intros H.
  apply bind_Ret_inv in H. destruct H as (all & Hall & H).
  assert (Hp : polys = firstn 12 all) by (unfold TOP_N in H; congruence).
  clear H. subst polys. exists all.
  split; [exact Hall|]. split; [reflexivity|].
  unfold extract_merged_polylines_in_rect in Hall.
  apply bind_Ret_inv in Hall. destruct Hall as (segments & _ & Hm).
  apply merge_segments_StronglySorted in Hm. destruct Hm as [Hlen Hs].
  split; [apply firstn_le_length|]. repeat split.
  - rewrite <- (firstn_skipn 12 all) in Hlen. apply Forall_app in Hlen. tauto.
  - now apply StronglySorted_firstn.
  - apply StronglySorted_app_Forall. now rewrite firstn_skipn.
Qed.

End Overlay.

(** X11 on a page with three lines of lengths 50, 300 and 120, drawn in
    this order: they are returned in the order 300, 120, 50. *)
Lemma returned_pairwise_sorted_witness :
  StronglySorted (non_increasing (@_polyline_length Reference.externals))
                 [[(100, 100); (400, 100)]; [(100, 150); (220, 150)]; [(100, 50); (150, 50)]]
  /\ (forall first rest,
         [[(100, 100); (400, 100)]; [(100, 150); (220, 150)]; [(100, 50); (150, 50)]]
         = first :: rest ->
         Forall (fun poly =>
                   (@_polyline_length Reference.externals poly
                    <=? @_polyline_length Reference.externals first) = true)
                rest).
Proof.
  apply (@returned_pairwise_sorted
           Reference.externals Example.three_lines OverlayExample.frame 2 5).
  vm_compute. reflexivity.
Defined.

(** X12 on a frame with a line of length 300 and a line of length 50. *)
Lemma frame_polylines_top_witness :
  exists all,
    @extract_merged_polylines_in_rect
      Reference.externals OverlayExample.drawings OverlayExample.frame 2 120 = Ret all
    /\ [[(100, 100); (400, 100)]] = firstn 12 all
    /\ le (List.length [[(100, 100); (400, 100)]]) 12
    /\ Forall (fun poly => (120 <=? @_polyline_length Reference.externals poly) = true)
              [[(100, 100); (400, 100)]]
    /\ StronglySorted (non_increasing (@_polyline_length Reference.externals))
                      [[(100, 100); (400, 100)]]
    /\ Forall (fun kept =>
                 Forall (fun left_out =>
                           (@_polyline_length Reference.externals left_out
                            <=? @_polyline_length Reference.externals kept) = true)
                        (skipn 12 all)) [[(100, 100); (400, 100)]].
Proof.
  apply (@frame_polylines_top
           Reference.externals OverlayExample.drawings OverlayExample.frame).
  vm_compute. reflexivity.
Defined.

(* ===================================================================== *)
(** * The order of collection                                             *)
(* ===================================================================== *)

Section CollectionOrder.
Context {ext : Externals}.

(** X13: segments are collected drawing by drawing.  Collecting from the
    drawings [ds1] followed by [ds2] is collecting from [ds1] and then from
    [ds2] onto the segments already collected, with the exception of the
    first failing item if there is one. *)
Theorem collect_segments_app (ds1 ds2 : list drawing) (rect : Rect) :
  forall segments,
    collect_segments (ds1 ++ ds2) rect segments
    = bind (collect_segments ds1 rect segments)
           (fun collected => collect_segments ds2 rect collected).
Proof.
  induction ds1 as [|d ds1 IH]; intros segments; simpl; [reflexivity|].
  destruct (d_rect d) as [drect|]; [|apply IH].
  destruct (negb (rect_truthy drect)); [apply IH|].
  destruct (negb (rect_intersects drect rect)); [apply IH|].
  destruct (collect_items (d_items d) segments) as [s|e|]; simpl;
    [apply IH | reflexivity | reflexivity].
Qed.

End CollectionOrder.

(* ===================================================================== *)
(** * The ascending sort                                                  *)
(* ===================================================================== *)

Section AscendingSort.
Variable A : Type.
Variable key : A -> float.

Lemma insert_asc_Permutation (x : A) (l : list A) :
  Permutation (x :: l) (insert_asc key x l).
Proof.
  induction l as [|y l IH]; simpl; [reflexivity|].
  destruct (key y <? key x); [|reflexivity].
  rewrite perm_swap. now apply perm_skip.
Qed.

(** The sort returns the elements it was given. *)
Lemma sorted_by_Permutation (l : list A) : Permutation l (sorted_by key l).
Proof.
  induction l as [|x l IH]; simpl; [constructor|].
  rewrite <- insert_asc_Permutation. now apply perm_skip.
Qed.

Lemma sorted_by_Forall (P : A -> Prop) (l : list A) :
  Forall P l -> Forall P (sorted_by key l).
Proof.
  rewrite !Forall_forall. intros H x Hx. apply H. now apply (sorted_by_In A key x l).
Qed.

Lemma insert_asc_HdRel (x y : A) (l : list A) :
  non_decreasing (key y) (key x) ->
  HdRel (fun p q => non_decreasing (key p) (key q)) y l ->
  HdRel (fun p q => non_decreasing (key p) (key q)) y (insert_asc key x l).
Proof.
  intros Hyx Hl. destruct l as [|z l]; simpl.
  - now constructor.
  - destruct (key z <? key x); constructor; [|assumption].
    now inversion Hl.
Qed.

Lemma insert_asc_Sorted (x : A) (l : list A) :
  is_number (key x) -> Forall (fun y => is_number (key y)) l ->
  Sorted (fun p q => non_decreasing (key p) (key q)) l ->
  Sorted (fun p q => non_decreasing (key p) (key q)) (insert_asc key x l).
Proof.
  intros Hx Hl Hs. induction Hs as [|y l Hs IH Hd]; simpl.
  - repeat constructor.
  - inversion Hl as [|? ? Hy Hl']; subst.
    destruct (key y <? key x) eqn:E.
    + constructor; [now apply IH|].
      apply insert_asc_HdRel; [|assumption]. now apply ltb_leb.
    + constructor; [now constructor|].
      constructor. now apply (@ltb_false_leb (key y) (key x)).
Qed.

(** On keys that are numbers the sort puts the elements in ascending
    order of their keys. *)
Lemma sorted_by_Sorted (l : list A) :
  Forall (fun y => is_number (key y)) l ->
  Sorted (fun p q => non_decreasing (key p) (key q)) (sorted_by key l).
Proof.
  induction 1 as [|x l Hx Hl IH]; simpl; [constructor|].
  apply insert_asc_Sorted; [assumption| |assumption].
  now apply sorted_by_Forall.
Qed.

End AscendingSort.

(* ===================================================================== *)
(** * The delta that sets the section height                              *)
(* ===================================================================== *)

Lemma non_decreasing_transitive :
  forall a b c : float, non_decreasing a b -> non_decreasing b c -> non_decreasing a c.
Proof. unfold non_decreasing. intros a b c. apply leb_trans. Qed.

Lemma sorted_deltas_ascending (deltas : list float) :
  Forall is_number deltas ->
  StronglySorted non_decreasing (sorted_by (fun d => d) deltas).
Proof.
  intros H. apply Sorted_StronglySorted; [exact non_decreasing_transitive|].
  now apply (sorted_by_Sorted float (fun d => d) deltas).
Qed.

Lemma section_height_of_deltas (station_hits : list StationHit) (height : float) :
  deltas_of (map hit_y0 station_hits) <> [] ->
  section_height station_hits height
  = py_max 200
      (nth (Nat.div (List.length (deltas_of (map hit_y0 station_hits))) 2)
           (sorted_by (fun d => d) (deltas_of (map hit_y0 station_hits))) 0 * 0.9).
Proof.
  intros Hne. unfold section_height.
  destruct (deltas_of (map hit_y0 station_hits)) as [|d ds] eqn:E; [congruence|].
  cbv zeta. rewrite sorted_by_length. reflexivity.
Qed.

Lemma half_of_rest (count before after : nat) :
  (1 <= count)%nat -> count = (before + S after)%nat -> before = Nat.div count 2 ->
  after = Nat.div (count - 1) 2.
Proof.
  intros Hc Hs Hb.
  pose proof (Nat.div_mod_eq count 2) as E1.
  pose proof (Nat.mod_upper_bound count 2) as B1.
  pose proof (Nat.div_mod_eq (count - 1) 2) as E2.
  pose proof (Nat.mod_upper_bound (count - 1) 2) as B2.
  lia.
Qed.

(** C4, as stated: the element at index [count // 2] of two sorted deltas
    is the upper of the two middle elements and not the lower one.  For
    the [y0] positions 100, 300, 520 it is 220 and not 200; for the
    positions 100, 300, 700 the section height is [400 x 0.9], above 200,
    where the lower-middle element 200 would give 200. *)
Lemma section_height_lower_middle_counterexample :
  (let hits := sorted_by hit_y0 (find_station_text Example.station_words) in
   let deltas_sorted := sorted_by (fun d => d) (deltas_of (map hit_y0 hits)) in
   deltas_sorted = [200; 220]
   /\ nth (Nat.div (List.length deltas_sorted) 2) deltas_sorted 0 = 220
   /\ lower_middle deltas_sorted = 200)
  /\ (let hits := sorted_by hit_y0 (find_station_text Example.spread_words) in
      map hit_y0 hits = [100; 300; 700]
      /\ sorted_by (fun d => d) (deltas_of (map hit_y0 hits)) = [200; 400]
      /\ section_height hits 1000 = 400 * 0.9
      /\ (200 <? 400 * 0.9) = true
      /\ section_height_as_specified hits 1000 = 200
      /\ section_height hits 1000 <> section_height_as_specified hits 1000).
Proof.
  split; [repeat split; vm_compute; reflexivity|].
  cbv zeta. repeat match goal with |- _ /\ _ => split end;
    try (vm_compute; reflexivity).
  intros H. apply (f_equal Prim2SF) in H. vm_compute in H. discriminate.
Qed.

(** C4, amended: with at least two station hits, sorted by [y0], whose
    deltas are numbers, the section height is [max(200, 0.9 x d)], that
    is [0.9 x d] when this is above 200 and 200 otherwise, where [d] is
    the element at index [count // 2] of the deltas put in ascending
    order: [count // 2] deltas come before it and [(count - 1) // 2] after
    it, so that [d] is the median of an odd number of deltas and the
    upper of the two middle elements of an even number.  With one station
    hit the section height is [page_height / 3].  For the [y0] positions
    100, 300, 520 the deltas are 200 and 220, [d] is 220 and the section
    height is 200; for the positions 100, 700, 900 the deltas are 600 and
    200 and the section height is [600 x 0.9]. *)
Theorem section_height_upper_middle
        (h1 h2 : StationHit) (rest : list StationHit) (height : float) :
  let deltas := deltas_of (map hit_y0 (h1 :: h2 :: rest)) in
  let count := List.length deltas in
  Forall is_number deltas ->
  count = S (List.length rest)
  /\ (exists before d after,
         Permutation deltas (before ++ d :: after)
         /\ StronglySorted non_decreasing (before ++ d :: after)
         /\ List.length before = Nat.div count 2
         /\ List.length after = Nat.div (count - 1) 2
         /\ section_height (h1 :: h2 :: rest) height
            = (if 200 <? d * 0.9 then d * 0.9 else 200))
  /\ (forall h, section_height [h] height = height / 3)
  /\ (let hits := sorted_by hit_y0 (find_station_text Example.station_words) in
      map hit_y0 hits = [100; 300; 520]
      /\ deltas_of (map hit_y0 hits) = [200; 220]
      /\ nth (Nat.div 2 2) (sorted_by (fun d => d) (deltas_of (map hit_y0 hits))) 0 = 220
      /\ section_height hits 1000 = 200)
  /\ (let hits := sorted_by hit_y0 (find_station_text Example.uneven_words) in
      map hit_y0 hits = [100; 700; 900]
      /\ deltas_of (map hit_y0 hits) = [600; 200]
      /\ section_height hits 1000 = 600 * 0.9
      /\ (200 <? 600 * 0.9) = true).
Proof.
  intros deltas count Hn.
  assert (Hc : count = S (List.length rest)).
  { unfold count, deltas. cbn [map]. rewrite deltas_of_length.
    cbn [List.length]. now rewrite length_map. }
  split; [exact Hc|]. split; [|split; [|split]].
  - pose proof (sorted_by_length (fun d => d) deltas) as Hl. fold count in Hl.
    assert (Hlt : (Nat.div count 2 < List.length (sorted_by (fun d => d) deltas))%nat).
    { rewrite Hl. apply Nat.div_lt; lia. }
    destruct (nth_split (sorted_by (fun d => d) deltas) 0 Hlt)
      as (before & after & Es & Hb).
    exists before, (nth (Nat.div count 2) (sorted_by (fun d => d) deltas) 0), after.
    rewrite <- Es. split; [apply sorted_by_Permutation|].
    split; [now apply sorted_deltas_ascending|].
    split; [exact Hb|]. split.
    + apply (half_of_rest count (List.length before) (List.length after)); [lia| |exact Hb].
      rewrite <- Hl, Es, length_app. reflexivity.
    + rewrite section_height_of_deltas.
      * reflexivity.
      * intros E. unfold count, deltas in Hc. rewrite E in Hc. discriminate.
  - intros h. reflexivity.
  - repeat split; vm_compute; reflexivity.
  - repeat split; vm_compute; reflexivity.
Qed.

(** C4 on the station labels at 100, 700 and 900, whose deltas are not in
    ascending order and whose section height is above 200. *)
Lemma section_height_upper_middle_witness :
  Forall is_number [600; 200]
  /\ exists before d after,
       Permutation [600; 200] (before ++ d :: after)
       /\ StronglySorted non_decreasing (before ++ d :: after)
       /\ List.length before = 1%nat
       /\ List.length after = 0%nat
       /\ section_height (map station_hit Example.uneven_words) 1000
          = (if 200 <? d * 0.9 then d * 0.9 else 200).
Proof.
  assert (Hn : Forall is_number [600; 200]).
  { repeat constructor; intros H; vm_compute in H; discriminate. }
  split; [exact Hn|].
  exact (proj1 (proj2 (section_height_upper_middle
                         (station_hit (Example.station_word 100))
                         (station_hit (Example.station_word 700))
                         [station_hit (Example.station_word 900)] 1000 Hn))).
Defined.

(* ===================================================================== *)
(** * The walk that merges overlapping frames                             *)
(* ===================================================================== *)

Section DedupWalk.
Context {ext : Externals}.

Lemma dedup_step_last (merged : list Rect) (fr : Rect) :
  exists kept prev, dedup_step merged fr = kept ++ [prev].
Proof.
  unfold dedup_step. destruct merged as [|r l]; [now exists [], fr|].
  match goal with
  | |- exists kept prev, (if ?c then _ else _) = _ => destruct c
  end; eexists; eexists; reflexivity.
Qed.

(** After its first frame the walk always has a previous kept frame. *)
Lemma dedup_frames_last (first : Rect) (others : list Rect) :
  exists kept prev, dedup_frames (first :: others) = kept ++ [prev].
Proof.
  destruct (exists_last (l := first :: others)) as (l & fr & E); [discriminate|].
  rewrite E, (@dedup_frames_snoc ext l fr). apply dedup_step_last.
Qed.

(** C5: in the walk over the sorted frames, the previous kept frame [prev]
    and the next frame [fr] are merged, their union replacing [prev],
    exactly when the area of their intersection is strictly above 40% of
    the smaller of their two areas; otherwise [fr] is appended as a
    distinct entry.  The first frame is kept as it is, and after it the
    walk always has a previous kept frame.  The rectangles are those of a
    library in which areas are not negative and a false rectangle has area
    zero. *)
Theorem dedup_walk_threshold (frames kept : list Rect) (prev fr : Rect) :
  dedup_frames frames = kept ++ [prev] ->
  (rect_truthy (rect_and prev fr) = false -> (get_area (rect_and prev fr) =? 0) = true) ->
  (get_area prev <? 0) = false ->
  (get_area fr <? 0) = false ->
  let smaller := if get_area fr <? get_area prev then get_area fr else get_area prev in
  dedup_frames (frames ++ [fr])
  = (if 0.4 * smaller <? get_area (rect_and prev fr)
     then kept ++ [rect_or prev fr]
     else kept ++ [prev; fr])
  /\ (is_number (get_area prev) -> is_number (get_area fr) ->
      (smaller <=? get_area prev) = true /\ (smaller <=? get_area fr) = true)
  /\ dedup_frames [fr] = [fr]
  /\ (forall first others,
         exists kept' prev', dedup_frames (first :: others) = kept' ++ [prev']).
Proof.
  intros Hwalk Hfalse Hprev Hfr smaller. split; [|split; [|split]].
  - rewrite (@dedup_frames_snoc ext frames fr), Hwalk.
    apply (@dedup_step_threshold ext kept prev fr Hfalse Hprev Hfr).
  - intros Np Nf. unfold smaller. destruct (get_area fr <? get_area prev) eqn:E.
    + split; [now apply ltb_leb | now apply leb_refl_number].
    + split; [now apply leb_refl_number | now apply (@ltb_false_leb (get_area fr))].
  - reflexivity.
  - intros first others. apply dedup_frames_last.
Qed.

End DedupWalk.

(** C5 on a walk over three frames.  The second frame has half the area
    of the first and their intersection is a quarter of the first, which
    is above 40% of the smaller area and below 40% of the larger: the two
    are merged.  The third frame overlaps their union on a twentieth of
    its own area and stays distinct. *)
Lemma dedup_walk_threshold_witness :
  @dedup_frames Reference.externals [Example.frame_a; Example.frame_short]
  = [mkRect 30 0 980 250]
  /\ @dedup_frames Reference.externals
       [Example.frame_a; Example.frame_short; Example.frame_below]
     = [mkRect 30 0 980 250; Example.frame_below]
  /\ (0.4 * Reference.get_area Example.frame_short
      <? Reference.get_area (Reference.intersect Example.frame_a Example.frame_short)) = true
  /\ (0.4 * Reference.get_area Example.frame_a
      <? Reference.get_area (Reference.intersect Example.frame_a Example.frame_short)) = false.
Proof.
  split; [|split; [|split; reflexivity]].
  - change [Example.frame_a; Example.frame_short]
      with ([Example.frame_a] ++ [Example.frame_short]).
    rewrite (proj1 (@dedup_walk_threshold Reference.externals
                      [Example.frame_a] [] Example.frame_a Example.frame_short
                      eq_refl (fun H => ltac:(discriminate H)) eq_refl eq_refl)).
    reflexivity.
  - change [Example.frame_a; Example.frame_short; Example.frame_below]
      with ([Example.frame_a; Example.frame_short] ++ [Example.frame_below]).
    rewrite (proj1 (@dedup_walk_threshold Reference.externals
                      [Example.frame_a; Example.frame_short] [] (mkRect 30 0 980 250)
                      Example.frame_below
                      eq_refl (fun H => ltac:(discriminate H)) eq_refl eq_refl)).
    reflexivity.
Defined.

(* ===================================================================== *)
(** * Each segment gives at most one edge                                 *)
(* ===================================================================== *)

Lemma In_set_remove (x i : nat) (s : list nat) :
  In i (set_remove x s) <-> In i s /\ i <> x.
Proof.
  unfold set_remove. rewrite filter_In, negb_true_iff, Nat.eqb_neq.
  intuition congruence.
Qed.

Lemma NoDup_set_remove (x : nat) (s : list nat) : NoDup s -> NoDup (set_remove x s).
Proof. apply NoDup_filter. Qed.

Lemma concat_Permutation (l l' : list (list nat)) :
  Permutation l l' -> Permutation (concat l) (concat l').
Proof.
  induction 1 as [|x l l' _ IH|x y l|l l' l'' _ IH1 _ IH2]; simpl.
  - constructor.
  - now apply Permutation_app_head.
  - apply Permutation_app_swap_app.
  - now transitivity (concat l').
Qed.

Section EdgesFromSegments.
Context {ext : Externals}.

Section Loops.
Variable segments : list Segment.
Variable endpoint_index : EndpointIndex.
Variable endpoint_tol : float.
Variable min_length : float.

Local Abbreviation grow := (grow segments endpoint_index endpoint_tol).
Local Abbreviation merge_loop := (merge_loop segments endpoint_index endpoint_tol min_length).
Local Abbreviation link_via := (link_via segments endpoint_tol).
Local Abbreviation linked_via := (linked_via segments endpoint_tol).
Local Abbreviation joined_via := (joined_via segments endpoint_tol).
Local Abbreviation edges_from := (edges_from segments endpoint_tol).

(** A growth loop takes each appended point through a segment of its own,
    which it removes from the unused set. *)
Lemma grow_trace (fuel : nat) :
  forall unused pts current unused' pts',
    grow fuel unused pts current = Ret (unused', pts') ->
    NoDup unused ->
    exists steps,
      pts' = pts ++ map snd steps
      /\ linked_via current steps
      /\ NoDup (map fst steps)
      /\ (forall i, In i (map fst steps) -> In i unused /\ ~ In i unused')
      /\ (forall i, In i unused' -> In i unused)
      /\ NoDup unused'.
Proof.
  induction fuel as [|fuel IH]; intros unused pts current unused' pts' H Hnd;
    rewrite grow_eq in H; destruct (bind_Ret_inv _ _ H) as ([nxt|] & Hn & H');
    try discriminate.
  - inversion H'; subst. exists []. rewrite app_nil_r. simpl.
    split; [reflexivity|]. split; [exact I|]. split; [constructor|].
    split; [intros i []|]. split; [auto | exact Hnd].
  - cbv zeta in H'. apply bind_Ret_inv in H'. destruct H' as ([a b] & Hs & H').
    apply get_segment_Ret in Hs. apply next_connected_In in Hn.
    pose proof (NoDup_set_remove nxt unused Hnd) as Hnd'.
    assert (Hstep :
              forall q,
                link_via nxt current q ->
                grow fuel (set_remove nxt unused) (pts ++ [q]) q = Ret (unused', pts') ->
                exists steps,
                  pts' = pts ++ map snd steps
                  /\ linked_via current steps
                  /\ NoDup (map fst steps)
                  /\ (forall i, In i (map fst steps) -> In i unused /\ ~ In i unused')
                  /\ (forall i, In i unused' -> In i unused)
                  /\ NoDup unused').
    { intros q Hq Hg.
      destruct (IH _ _ _ _ _ Hg Hnd') as (steps & -> & Hl & Hns & Hin & Hsub & Hnd'').
      exists ((nxt, q) :: steps). simpl. rewrite <- app_assoc.
      split; [reflexivity|]. split; [now split|]. split; [|split; [|split]].
      - constructor; [|exact Hns]. intros Hi. apply Hin in Hi.
        destruct Hi as [Hi _]. apply In_set_remove in Hi. tauto.
      - intros i [<- | Hi].
        + split; [exact Hn|]. intros Hi. apply Hsub, In_set_remove in Hi. tauto.
        + destruct (Hin i Hi) as [Hi1 Hi2]. apply In_set_remove in Hi1. tauto.
      - intros i Hi. apply Hsub, In_set_remove in Hi. tauto.
      - exact Hnd''. }
    destruct (_dist current a <=? endpoint_tol) eqn:Ea;
      [|destruct (_dist current b <=? endpoint_tol) eqn:Eb].
    + apply (Hstep b); [|exact H']. exists a, b. auto.
    + apply (Hstep a); [|exact H']. exists a, b. auto.
    + inversion H'; subst. exists []. rewrite app_nil_r. simpl.
      split; [reflexivity|]. split; [exact I|]. split; [constructor|].
      split; [tauto|]. split; [|exact Hnd'].
      intros i Hi. apply In_set_remove in Hi. tauto.
  - inversion H'; subst. exists []. rewrite app_nil_r. simpl.
    split; [reflexivity|]. split; [exact I|]. split; [constructor|].
    split; [intros i []|]. split; [auto | exact Hnd].
Qed.

Lemma linked_via_edges (steps : list (nat * Point)) :
  forall current,
    linked_via current steps ->
    edges_from (current :: map snd steps) (map fst steps).
Proof.
  induction steps as [|[i q] steps IH]; intros current H; simpl; [reflexivity|].
  destruct H as [Hq Hl]. split; [|now apply IH].
  right. now left.
Qed.

Lemma linked_via_edges_back (back : list (nat * Point)) :
  forall start tail used,
    linked_via start back ->
    edges_from (start :: tail) used ->
    edges_from (rev (map snd back) ++ start :: tail) (rev (map fst back) ++ used).
Proof.
  induction back as [|[i q] back IH]; intros start tail used H Ht; simpl; [exact Ht|].
  destruct H as [Hq Hl]. rewrite <- !app_assoc. simpl.
  apply IH; [exact Hl|]. simpl. split; [|exact Ht].
  right. now right.
Qed.

(** One iteration of [while unused] joins the points of the merged
    polyline through segments that are all different, that were unused
    before it and are not afterwards. *)
Lemma merge_from_trace (start_idx : nat) (unused unused' : list nat) (merged : Polyline) :
  merge_from segments endpoint_index endpoint_tol start_idx unused = Ret (unused', merged) ->
  In start_idx unused ->
  NoDup unused ->
  exists used,
    edges_from merged used
    /\ NoDup used
    /\ (forall i, In i used -> In i unused /\ ~ In i unused')
    /\ (forall i, In i unused' -> In i unused)
    /\ NoDup unused'.
Proof.
  unfold merge_from. cbv zeta. intros H Hin Hnd.
  apply bind_Ret_inv in H. destruct H as ([a0 b0] & Hs & H).
  apply bind_Ret_inv in H. destruct H as ([unused2 chain] & Hf & H).
  apply bind_Ret_inv in H. destruct H as ([unused3 prepend] & Hb & H).
  inversion H; subst; clear H. apply get_segment_Ret in Hs.
  destruct (grow_trace _ _ _ _ _ _ Hf (NoDup_set_remove start_idx unused Hnd))
    as (fwd & -> & Hlf & Hnf & Hinf & Hsubf & Hnd2).
  destruct (grow_trace _ _ _ _ _ _ Hb Hnd2)
    as (back & -> & Hlb & Hnb & Hinb & Hsubb & Hnd3).
  exists (rev (map fst back) ++ start_idx :: map fst fwd).
  simpl rev. rewrite removelast_last. simpl app.
  split; [|split; [|split; [|split]]].
  - apply linked_via_edges_back; [exact Hlb|]. simpl. split; [now left|].
    now apply linked_via_edges.
  - apply NoDup_app.
    + now apply NoDup_rev.
    + constructor; [|exact Hnf]. intros Hi. apply Hinf in Hi.
      destruct Hi as [Hi _]. apply In_set_remove in Hi. tauto.
    + intros i Hi Hi'. apply in_rev, Hinb in Hi. destruct Hi as [Hi _].
      destruct Hi' as [<- | Hi'].
      * apply Hsubf, In_set_remove in Hi. tauto.
      * apply Hinf in Hi'. tauto.
  - intros i Hi. apply in_app_or in Hi. destruct Hi as [Hi | [<- | Hi]].
    + apply in_rev, Hinb in Hi. destruct Hi as [Hi1 Hi2].
      apply Hsubf, In_set_remove in Hi1. tauto.
    + split; [exact Hin|]. intros Hi. apply Hsubb, Hsubf, In_set_remove in Hi. tauto.
    + apply Hinf in Hi. destruct Hi as [Hi1 Hi2]. apply In_set_remove in Hi1.
      split; [tauto|]. intros Hi. apply Hi2. now apply Hsubb.
  - intros i Hi. apply Hsubb, Hsubf, In_set_remove in Hi. tauto.
  - exact Hnd3.
Qed.

Lemma merge_loop_trace (fuel : nat) :
  forall unused polylines result,
    merge_loop fuel unused polylines = Ret result ->
    NoDup unused ->
    forall used0,
      Forall2 edges_from polylines used0 ->
      NoDup (concat used0) ->
      (forall i, In i (concat used0) -> ~ In i unused) ->
      exists used,
        Forall2 edges_from result used
        /\ NoDup (concat used)
        /\ (forall i, In i (concat used) -> In i (concat used0) \/ In i unused).
Proof.
  induction fuel as [|fuel IH]; intros [|start_idx rest] polylines result H Hnd
                                       used0 Hall Hnd0 Hdis;
    simpl in H; try discriminate.
  - inversion H; subst. exists used0. auto.
  - inversion H; subst. exists used0. auto.
  - apply bind_Ret_inv in H. destruct H as ([unused' merged] & Hm & H).
    destruct (merge_from_trace _ _ _ _ Hm (or_introl eq_refl) Hnd)
      as (used_m & He & Hnm & Hinm & Hsub & Hnd').
    destruct (min_length <=? _polyline_length merged).
    + destruct (IH _ _ _ H Hnd' (used0 ++ [used_m])) as (used & Hr & Hnr & Hinr).
      * apply Forall2_app; [exact Hall | now repeat constructor].
      * rewrite concat_app. simpl. rewrite app_nil_r.
        apply NoDup_app; [exact Hnd0 | exact Hnm |].
        intros i Hi Hi'. apply (Hdis i Hi). now apply Hinm.
      * intros i Hi. rewrite concat_app in Hi. simpl in Hi. rewrite app_nil_r in Hi.
        apply in_app_or in Hi. destruct Hi as [Hi | Hi].
        -- intros Hi'. apply (Hdis i Hi). now apply Hsub.
        -- now apply Hinm.
      * exists used. split; [exact Hr|]. split; [exact Hnr|].
        intros i Hi. apply Hinr in Hi. destruct Hi as [Hi | Hi].
        -- rewrite concat_app in Hi. simpl in Hi. rewrite app_nil_r in Hi.
           apply in_app_or in Hi. destruct Hi as [Hi | Hi]; [now left|].
           right. now apply Hinm.
        -- right. now apply Hsub.
    + destruct (IH _ _ _ H Hnd' used0 Hall Hnd0) as (used & Hr & Hnr & Hinr).
      * intros i Hi Hi'. apply (Hdis i Hi). now apply Hsub.
      * exists used. split; [exact Hr|]. split; [exact Hnr|].
        intros i Hi. apply Hinr in Hi. destruct Hi as [Hi | Hi]; [now left|].
        right. now apply Hsub.
Qed.

Lemma edges_from_length (used : list nat) :
  forall poly, edges_from poly used -> edges poly = List.length used.
Proof.
  unfold edges. induction used as [|i used IH]; intros poly H; simpl in H.
  - rewrite H. reflexivity.
  - destruct poly as [|p [|q tail]]; try contradiction.
    destruct H as [_ H]. apply IH in H. simpl in *. lia.
Qed.

Lemma total_edges_used (polylines : list Polyline) (used : list (list nat)) :
  Forall2 edges_from polylines used ->
  total_edges polylines = List.length (concat used).
Proof.
  induction 1 as [|poly us polylines used Hp _ IH]; [reflexivity|].
  change (total_edges (poly :: polylines))
    with (edges poly + total_edges polylines)%nat.
  simpl. rewrite length_app, IH, (edges_from_length _ _ Hp). reflexivity.
Qed.

End Loops.

(** X3: no segment is used twice.  Each edge of each returned polyline
    can be given a collected segment that joins its two points (the seed
    segment itself, or a segment with one of the points as an endpoint and
    its other endpoint within the tolerance of the other point), in such a
    way that no segment is given to two edges.  Hence the returned
    polylines have at most as many edges in total as there are collected
    segments; each has at least one edge, and at most as many polylines
    are returned as there are segments. *)
Theorem segments_used_once
        (drawings : list drawing) (rect : Rect) (endpoint_tol min_length : float)
        (segments : list Segment) (result : list Polyline) :
  collect_segments drawings rect [] = Ret segments ->
  extract_merged_polylines_in_rect drawings rect endpoint_tol min_length = Ret result ->
  exists used : list (list nat),
    Forall2 (edges_from segments endpoint_tol) result used
    /\ NoDup (concat used)
    /\ Forall (fun i => (i < List.length segments)%nat) (concat used)
    /\ total_edges result = List.length (concat used)
    /\ (total_edges result <= List.length segments)%nat
    /\ (List.length result <= List.length segments)%nat
    /\ Forall (fun poly => (1 <= edges poly)%nat) result.
Proof.
  intros Hs H.
  destruct (@returned_edges_bounded ext drawings rect endpoint_tol min_length
              segments result Hs H) as (Hb1 & Hb2 & Hb3).
  unfold extract_merged_polylines_in_rect in H. rewrite Hs in H. simpl in H.
  assert (Hex : exists used : list (list nat),
             Forall2 (edges_from segments endpoint_tol) result used
             /\ NoDup (concat used)
             /\ Forall (fun i => (i < List.length segments)%nat) (concat used)).
  { unfold merge_segments in H. destruct segments as [|s rest] eqn:Es.
    - inversion H; subst. exists []. repeat split; constructor.
    - rewrite <- Es in *.
      apply bind_Ret_inv in H. destruct H as (index & _ & H).
      apply bind_Ret_inv in H. destruct H as (polylines & Hl & H).
      inversion H; subst result; clear H.
      destruct (merge_loop_trace segments index endpoint_tol min_length _ _ _ _ Hl
                  (seq_NoDup _ _) [] (Forall2_nil _) (NoDup_nil _)
                  (fun i Hi => match Hi with end))
        as (used & Hr & Hnr & Hinr).
      destruct (Permutation_Forall2
                  (sort_reverse_by_Permutation _polyline_length polylines) Hr)
        as (used' & Hp & Hr').
      pose proof (concat_Permutation _ _ Hp) as Hpc.
      exists used'. split; [exact Hr'|].
      split; [exact (Permutation_NoDup Hpc Hnr)|].
      rewrite Forall_forall. intros i Hi.
      apply (Permutation_in _ (Permutation_sym Hpc)) in Hi.
      apply Hinr in Hi. destruct Hi as [[] | Hi]. apply in_seq in Hi. lia. }
  destruct Hex as (used & Hr & Hn & Hlt).
  exists used. repeat split; try assumption.
  now apply total_edges_used with (segments := segments) (endpoint_tol := endpoint_tol).
Qed.

End EdgesFromSegments.

(** X3 on the page of the merge-closure example, whose polyline of two
    edges uses the two segments. *)
Lemma segments_used_once_witness :
  exists used : list (list nat),
    Forall2 (@edges_from Reference.externals Example.closure_segments 1)
            [[(0, 0); (10, 0); (20, 0)]] used
    /\ NoDup (concat used)
    /\ Forall (fun i => (i < List.length Example.closure_segments)%nat) (concat used)
    /\ total_edges [[(0, 0); (10, 0); (20, 0)]] = List.length (concat used)
    /\ le (total_edges [[(0, 0); (10, 0); (20, 0)]]) (List.length Example.closure_segments)
    /\ le (List.length [[(0, 0); (10, 0); (20, 0)]]) (List.length Example.closure_segments)
    /\ Forall (fun poly => (1 <= edges poly)%nat) [[(0, 0); (10, 0); (20, 0)]].
Proof.
  apply (@segments_used_once
           Reference.externals Example.closure_drawings Example.region 1 5);
    vm_compute; reflexivity.
Defined.
